(** * The schema model of [swift/codegen/lib/schema/schema.py]

    A shallow embedding of the schema front end: the [Property], [Class] and
    [Schema] data model, the property pipeline, the doc normaliser, the class
    builder, the grouped topological sorter and the loader, followed by the
    properties established about them.

    Conventions of the embedding.
    - A Python [str] is a [string]; every character is read as a code point
      below 256.  Byte-wise lexicographic comparison ([String.compare]) is
      then Python's string comparison.
    - A Python exception is a value of [exn]; a computation that may raise
      has type [result A].
    - A [dict] is an association list in insertion order with the update
      discipline of Python ([setitem] keeps the position of an existing key).
    - A [set] of strings is a list; only membership and emptiness of such a
      list are ever observed, except where the source iterates over it.
    - A [Property] is a value.  The source renames a [Property] object in
      place, so an object that stands under several annotations carries the
      name given last under all of them.  The embedding has no object
      identity: its statements hold of each application of a modifier, and
      none of them states the name that a property given as a [Property]
      object carries in a built class.  Kinds and types are never written
      after construction.
    - The object on the left of [|] in an annotation leaves the operator to
      the modifier on its right: it is a class, a string, the predicate
      marker, a [Property], or another object whose type has no [__or__] of
      its own or one that returns [NotImplemented], so that
      [PropertyModifier.__ror__] runs.  An object that handles [|] itself
      (a [typing] generic alias, whose [__or__] raises [TypeError]) is not
      represented. *)

From Stdlib Require Import String Ascii List Bool Arith Lia NArith.
From Stdlib Require Import Permutation Sorted Relations.
Import ListNotations.
Open Scope string_scope.
Open Scope list_scope.

(* ================================================================== *)
(** * Part I: definitions                                              *)
(* ================================================================== *)

(** ** Exceptions and the error monad *)

Inductive exn : Type :=
| Error (msg : string)           (* schema.Error, line 14 *)
| KeyError (key : string)
| IndexError
| TypeError
| NotImplementedError
| CircularDependencyError.       (* toposort.CircularDependencyError *)

Inductive result (A : Type) : Type :=
| Ok (a : A)
| Raise (e : exn).

Arguments Ok {A} a.
Arguments Raise {A} e.

Definition bind {A B : Type} (c : result A) (k : A -> result B) : result B :=
  match c with
  | Ok a => k a
  | Raise e => Raise e
  end.

Notation "x <- c ;; k" := (bind c (fun x => k))
  (at level 61, c at next level, right associativity).
Notation "c ;;; k" := (bind c (fun _ => k))
  (at level 61, right associativity).

(** [for x in xs: body(x)] where [body] may raise. *)
Fixpoint for_each {A : Type} (body : A -> result unit) (xs : list A) : result unit :=
  match xs with
  | [] => Ok tt
  | x :: xs' => body x ;;; for_each body xs'
  end.

(** [for x in xs: st = body(st, x)] where [body] may raise. *)
Fixpoint for_fold {A S : Type} (body : S -> A -> result S) (xs : list A) (st : S) : result S :=
  match xs with
  | [] => Ok st
  | x :: xs' => st' <- body st x ;; for_fold body xs' st'
  end.

(** [[f(x) for x in xs]] where [f] may raise. *)
Fixpoint comprehension {A B : Type} (f : A -> result B) (xs : list A) : result (list B) :=
  match xs with
  | [] => Ok []
  | x :: xs' => y <- f x ;; ys <- comprehension f xs' ;; Ok (y :: ys)
  end.

(** ** Python [str] *)

Module PyStr.

Definition code (c : ascii) : nat := nat_of_ascii c.

Definition between (lo hi n : nat) : bool := Nat.leb lo n && Nat.leb n hi.

(** [c.isspace()] *)
Definition isspace (c : ascii) : bool :=
  let n := code c in
  between 9 13 n || between 28 32 n || Nat.eqb n 133 || Nat.eqb n 160.

(** [c.islower()] *)
Definition islower (c : ascii) : bool :=
  let n := code c in
  between 97 122 n || Nat.eqb n 170 || Nat.eqb n 181 || Nat.eqb n 186
  || between 223 246 n || between 248 255 n.

(** Line boundaries recognised by [str.splitlines]. *)
Definition is_linebreak (c : ascii) : bool :=
  let n := code c in
  between 10 13 n || between 28 30 n || Nat.eqb n 133.

(** [s.lstrip(chars)], the stripped set given as a predicate. *)
Fixpoint lstrip_by (p : ascii -> bool) (s : string) : string :=
  match s with
  | EmptyString => EmptyString
  | String c s' => if p c then lstrip_by p s' else s
  end.

(** [s.rstrip(chars)] *)
Fixpoint rstrip_by (p : ascii -> bool) (s : string) : string :=
  match s with
  | EmptyString => EmptyString
  | String c s' =>
      match rstrip_by p s' with
      | EmptyString => if p c then EmptyString else String c EmptyString
      | r => String c r
      end
  end.

Definition lstrip (s : string) : string := lstrip_by isspace s.
Definition rstrip (s : string) : string := rstrip_by isspace s.
Definition strip (s : string) : string := lstrip (rstrip s).

(** [s[n:]] *)
Fixpoint slice_from (n : nat) (s : string) : string :=
  match n, s with
  | 0, _ => s
  | S n', String _ s' => slice_from n' s'
  | S _, EmptyString => EmptyString
  end.

(** [s.startswith(p)] is [String.prefix p s]. *)
Definition startswith (s p : string) : bool := String.prefix p s.

(** [s.splitlines()]: [cur] is the line being read.  A ["\r\n"] pair is
    one boundary.  Text after the last boundary is a line only when it is
    not empty. *)
Fixpoint splitlines_from (cur : string) (s : string) : list string :=
  match s with
  | EmptyString =>
      match cur with
      | EmptyString => []
      | _ => [cur]
      end
  | String c s' =>
      if is_linebreak c then
        match s' with
        | String c' s'' =>
            if Nat.eqb (code c) 13 && Nat.eqb (code c') 10
            then cur :: splitlines_from EmptyString s''
            else cur :: splitlines_from EmptyString s'
        | EmptyString => cur :: splitlines_from EmptyString s'
        end
      else splitlines_from (String.append cur (String c EmptyString)) s'
  end.

Definition splitlines (s : string) : list string := splitlines_from EmptyString s.

(** [sorted(xs)] on strings. *)
Fixpoint insert_sorted (x : string) (l : list string) : list string :=
  match l with
  | [] => [x]
  | y :: l' => if String.leb x y then x :: l else y :: insert_sorted x l'
  end.

Definition sort (l : list string) : list string := fold_right insert_sorted [] l.

(** [x in xs] *)
Definition mem (x : string) (xs : list string) : bool :=
  existsb (String.eqb x) xs.

(** [sorted(set(xs))] *)
Definition sorted_set (xs : list string) : list string :=
  sort (nodup string_dec xs).

End PyStr.

(** ** Python [dict] with string keys *)

Definition dict (V : Type) : Type := list (string * V).

Definition keys {V : Type} (d : dict V) : list string := map fst d.
Definition values {V : Type} (d : dict V) : list V := map snd d.

(** [d.get(k)] *)
Fixpoint get {V : Type} (d : dict V) (k : string) : option V :=
  match d with
  | [] => None
  | (k', v) :: d' => if String.eqb k' k then Some v else get d' k
  end.

(** [d[k]] *)
Definition getitem {V : Type} (d : dict V) (k : string) : result V :=
  match get d k with
  | Some v => Ok v
  | None => Raise (KeyError k)
  end.

(** [d[k] = v]: an existing key keeps its position, a new key goes last. *)
Fixpoint setitem {V : Type} (d : dict V) (k : string) (v : V) : dict V :=
  match d with
  | [] => [(k, v)]
  | (k', v') :: d' =>
      if String.eqb k' k then (k, v) :: d' else (k', v') :: setitem d' k v
  end.

(** [d.setdefault(k, []).append(x)] *)
Fixpoint setdefault_append {A : Type} (d : dict (list A)) (k : string) (x : A) : dict (list A) :=
  match d with
  | [] => [(k, [x])]
  | (k', l) :: d' =>
      if String.eqb k' k then (k', l ++ [x]) :: d'
      else (k', l) :: setdefault_append d' k x
  end.

(** [sorted(d.items())]: tuples compare on their first component first, and
    the keys of a dict are pairwise distinct, so the key decides. *)
Fixpoint insert_item {V : Type} (kv : string * V) (l : list (string * V)) : list (string * V) :=
  match l with
  | [] => [kv]
  | kv' :: l' =>
      if String.leb (fst kv) (fst kv') then kv :: l else kv' :: insert_item kv l'
  end.

Definition sorted_items {V : Type} (d : dict V) : list (string * V) :=
  fold_right insert_item [] d.

(** ** The [toposort] package (imported at line 11)

    An external dependency of the schema module; the model follows the
    package.  [toposort(data)] returns at once on an empty table.  Otherwise
    it copies [data] without self-dependencies, gives an empty entry to
    every item that only occurs as a dependency, and then repeats: collect
    the set [ordered] of the items whose dependency set is empty, stop if
    there is none, yield [ordered], and drop its items from the table and
    from every dependency set.  After the loop it raises
    [CircularDependencyError] if the table is not empty.
    [toposort_flatten(data, sort=True)] concatenates the yielded sets, each
    one [sorted]; the sorter calls it with the default [sort]. *)

Module toposort.

(** One dependency table: item -> set of items it depends on. *)
Definition table : Type := dict (list string).

(** Self-dependencies are discarded. *)
Definition discard_self (data : table) : table :=
  map (fun '(item, dep) => (item, filter (fun e => negb (String.eqb e item)) dep)) data.

(** Items that occur as a dependency but have no entry of their own. *)
Definition extra_items_in_deps (data : table) : list string :=
  nodup string_dec
    (filter (fun e => negb (PyStr.mem e (keys data))) (concat (values data))).

(** Items without pending dependencies. *)
Definition ready (data : table) : list string :=
  keys (filter (fun '(_, dep) => match dep with [] => true | _ => false end) data).

(** [{item: dep - ordered for item, dep in data.items() if item not in ordered}] *)
Definition remove_ordered (ordered : list string) (data : table) : table :=
  map (fun '(item, dep) => (item, filter (fun e => negb (PyStr.mem e ordered)) dep))
      (filter (fun '(item, _) => negb (PyStr.mem item ordered)) data).

(** The [while True] loop.  Every round that continues removes at least one
    entry, so [S (length data)] rounds always suffice. *)
Fixpoint rounds (fuel : nat) (data : table) : result (list (list string)) :=
  match fuel with
  | 0 => Raise CircularDependencyError
  | S fuel' =>
      match ready data with
      | [] =>
          match data with
          | [] => Ok []
          | _ => Raise CircularDependencyError
          end
      | ordered =>
          rest <- rounds fuel' (remove_ordered ordered data) ;;
          Ok (ordered :: rest)
      end
  end.

Definition toposort (data : table) : result (list (list string)) :=
  match data with
  | [] => Ok []
  | _ =>
      let data := discard_self data in
      let data := data ++ map (fun item => (item, [])) (extra_items_in_deps data) in
      rounds (S (length data)) data
  end.

Definition toposort_flatten (data : table) : result (list string) :=
  batches <- toposort data ;;
  Ok (concat (map PyStr.sorted_set batches)).

End toposort.


(** ** The data model (lines 25-106) *)

Module Property.

Inductive Kind : Type := SINGLE | REPEATED | OPTIONAL | REPEATED_OPTIONAL | PREDICATE.

Record t : Type := mk {
  kind : Kind;
  name : option string;
  type : option string;
  is_child : bool;
  pragmas : list string;
  doc : option string;
  description : list string
}.

Definition Kind_eqb (a b : Kind) : bool :=
  match a, b with
  | SINGLE, SINGLE | REPEATED, REPEATED | OPTIONAL, OPTIONAL
  | REPEATED_OPTIONAL, REPEATED_OPTIONAL | PREDICATE, PREDICATE => true
  | _, _ => false
  end.

Definition is_single (self : t) : bool := Kind_eqb (kind self) SINGLE.
Definition is_optional (self : t) : bool :=
  Kind_eqb (kind self) OPTIONAL || Kind_eqb (kind self) REPEATED_OPTIONAL.
Definition is_repeated (self : t) : bool :=
  Kind_eqb (kind self) REPEATED || Kind_eqb (kind self) REPEATED_OPTIONAL.
Definition is_predicate (self : t) : bool := Kind_eqb (kind self) PREDICATE.

(** The dataclass constructor with every field but [kind] and [type] left
    at its default. *)
Definition new (k : Kind) (ty : option string) : t :=
  mk k None ty false [] None [].

(** [prop.name = n] *)
Definition set_name (prop : t) (n : option string) : t :=
  mk (kind prop) n (type prop) (is_child prop) (pragmas prop) (doc prop) (description prop).

End Property.

(** [functools.partial(Property, Property.Kind.SINGLE)] and
    [functools.partial(Property, Property.Kind.PREDICATE)], lines 59-64. *)
Definition SingleProperty (ty : option string) : Property.t :=
  Property.new Property.SINGLE ty.
Definition PredicateProperty : Property.t :=
  Property.new Property.PREDICATE None.

Module IpaInfo.

Record t : Type := mk {
  from_class : option string;
  on_arguments : option (dict string)
}.

End IpaInfo.

Module Class.

Record t : Type := mk {
  name : string;
  bases : list string;
  derived : list string;          (* a set; the list is its iteration order *)
  properties : list Property.t;
  group : string;
  pragmas : list string;
  ipa : option IpaInfo.t;
  doc : list string;
  default_doc_name : option string
}.

Definition final (self : t) : bool :=
  match derived self with
  | [] => true
  | _ => false
  end.

End Class.

Module Schema.

Record t : Type := mk {
  classes : dict Class.t;
  includes : list string          (* a set *)
}.

End Schema.

(** ** Type validation (lines 20-22 and 89-100) *)

Definition _check_type (t : option string) (known : list string) : result unit :=
  match t with
  | Some t' =>
      if negb (PyStr.mem t' known)
      then Raise (Error (String.append "Unknown type " t'))
      else Ok tt
  | None => Ok tt
  end.

Definition check_types (self : Class.t) (known : list string) : result unit :=
  for_each (fun b => _check_type (Some b) known) (Class.bases self) ;;;
  for_each (fun d => _check_type (Some d) known) (Class.derived self) ;;;
  for_each (fun p => _check_type (Property.type p) known) (Class.properties self) ;;;
  match Class.ipa self with
  | Some ipa =>
      _check_type (IpaInfo.from_class ipa) known ;;;
      match IpaInfo.on_arguments ipa with
      | Some args => for_each (fun t => _check_type (Some t) known) (values args)
      | None => Ok tt
      end
  | None => Ok tt
  end.

(** ** The property pipeline (lines 109-159 and 183-188) *)

(** [TypeRef = Union[type, str]]: a class object, seen through its
    [__name__], or a string. *)
Inductive TypeRef : Type :=
| RefType (__name__ : string)
| RefStr (s : string).

(** What may stand on the left of [|]: a type reference, the
    [predicate_marker], a [Property], or any other object that leaves [|]
    to the modifier on its right (given by its [str()]); see the
    conventions at the head of the file. *)
Inductive Specifier : Type :=
| SpecRef (r : TypeRef)
| SpecPredicateMarker
| SpecProperty (p : Property.t)
| SpecOther (repr : string).

(** On the two registered types the dispatch never reaches the default
    implementation (line 116). *)
Definition get_type_name (arg : TypeRef) : string :=
  match arg with
  | RefType n => n
  | RefStr s => s
  end.

Definition _make_property (arg : Specifier) : result Property.t :=
  match arg with
  | SpecRef r => Ok (SingleProperty (Some (get_type_name r)))
  | SpecProperty p => Ok p
  | SpecPredicateMarker => Ok PredicateProperty
  | SpecOther repr => Raise (Error (String.append "Illegal property specifier " repr))
  end.

(** A [PropertyModifier] is any object with a [modify] method; [modify]
    mutates the property it is given, here it returns the mutated value.
    No statement below states the name that a property object reached
    under two annotations carries in a built class; see the conventions at
    the head of the file. *)
Record PropertyModifier : Type := {
  modify : Property.t -> result Property.t
}.

(** The base class itself. *)
Definition abstract_modifier : PropertyModifier :=
  {| modify := fun _ => Raise NotImplementedError |}.

Definition __ror__ (self : PropertyModifier) (other : Specifier) : result Property.t :=
  ret <- _make_property other ;;
  modify self ret.

(** [spec | m1 | m2 | ...]: the first [|] builds the property, every later
    one finds a [Property] on its left. *)
Definition pipeline (spec : Specifier) (m : PropertyModifier) (ms : list PropertyModifier)
  : result Property.t :=
  p <- __ror__ m spec ;;
  for_fold (fun p m' => __ror__ m' (SpecProperty p)) ms p.

Definition is_underscore (c : ascii) : bool := Ascii.eqb c "_".

Definition _PropertyNamer (name : string) : PropertyModifier :=
  {| modify := fun prop =>
       Ok (Property.set_name prop (Some (PyStr.rstrip_by is_underscore name))) |}.

(** ** The doc normaliser (lines 162-180) *)

(** [while trimmed and not trimmed[-1]: trimmed.pop()] *)
Fixpoint pop_trailing_blank (trimmed : list string) : list string :=
  match trimmed with
  | [] => []
  | x :: rest =>
      match pop_trailing_blank rest with
      | [] => match x with EmptyString => [] | _ => [x] end
      | r => x :: r
      end
  end.

(** [while trimmed and not trimmed[0]: trimmed.pop(0)] *)
Fixpoint pop_leading_blank (trimmed : list string) : list string :=
  match trimmed with
  | EmptyString :: rest => pop_leading_blank rest
  | _ => trimmed
  end.

(** The indentation of one line, for the non-blank lines only. *)
Definition indent_of (line : string) : list nat :=
  match PyStr.lstrip line with
  | EmptyString => []
  | stripped => [String.length line - String.length stripped]
  end.

Definition split_doc (doc : option string) : list string :=
  match doc with
  | None | Some EmptyString => []
  | Some d =>
      match PyStr.splitlines d with
      | [] => []     (* not reached: a non-empty string has a first line *)
      | first :: rest =>
          let indents := flat_map indent_of rest in
          let trimmed :=
            PyStr.strip first ::
            match indents with
            | [] => []
            | i :: others =>
                let indent := fold_right Nat.min i others in
                map (fun line => PyStr.rstrip (PyStr.slice_from indent line)) rest
            end in
          pop_leading_blank (pop_trailing_blank trimmed)
      end
  end.

(** ** Class objects as the builder observes them *)

(** One entry of [cls.__bases__]. *)
Module PyBase.

Record t : Type := mk {
  __name__ : string;
  is_object : bool;                 (* [b is object] *)
  _group : option string            (* [b._group], [None] when [hasattr] fails *)
}.

End PyBase.

(** A class object [cls]: the attributes [_get_class] reads. *)
Module PyClass.

Record t : Type := mk {
  __name__ : string;
  __bases__ : list PyBase.t;
  __subclasses__ : list string;     (* [d.__name__] of each direct subclass *)
  _group : option string;           (* attribute lookup, so inherited *)
  _pragmas : option (list string);  (* from [cls.__dict__], so its own *)
  _ipa : option IpaInfo.t;
  __annotations__ : option (dict Specifier);
  __doc__ : option string;
  _doc_name : option string
}.

End PyClass.

(** A value bound in the schema module: a class object, or another object
    given by its [str()] and, when it is iterable, its items. *)
Inductive PyObject : Type :=
| PyType (cls : PyClass.t)
| PyOther (str : string) (items : option (list string)).

(** ** The class builder (lines 191-212) *)

(** [{b._group for b in cls.__bases__ if hasattr(b, "_group")}] *)
Definition base_groups (bs : list PyBase.t) : list string :=
  nodup string_dec
    (flat_map (fun b => match PyBase._group b with Some g => [g] | None => [] end) bs).

(** [a | _PropertyNamer(n)] at line 207 is [_PropertyNamer(n).__ror__(a)]:
    by the conventions at the head of the file the annotation [a] leaves
    [|] to the modifier.  Each property of the class is the object that
    [__ror__] returns; for an annotation that is a [Property] object the
    source returns that object itself, renamed in place. *)
Definition _get_class (cls : PyObject) : result Class.t :=
  match cls with
  | PyOther str _ =>
      Raise (Error (String.append "Only class definitions allowed in schema, found " str))
  | PyType c =>
      first <- match PyClass.__name__ c with
               | EmptyString => Raise IndexError
               | String ch _ => Ok ch
               end ;;
      if PyStr.islower first then
        Raise (Error (String.append "Class name must be capitalized, found " (PyClass.__name__ c)))
      else if Nat.ltb 1 (length (base_groups (PyClass.__bases__ c))) then
        Raise (Error (String.append "Bases with mixed groups for " (PyClass.__name__ c)))
      else
        properties <-
          comprehension (fun '(n, a) => __ror__ (_PropertyNamer n) a)
            (match PyClass.__annotations__ c with Some d => d | None => [] end) ;;
        Ok (Class.mk
              (PyClass.__name__ c)
              (map PyBase.__name__
                 (filter (fun b => negb (PyBase.is_object b)) (PyClass.__bases__ c)))
              (nodup string_dec (PyClass.__subclasses__ c))
              properties
              (match PyClass._group c with Some g => g | None => EmptyString end)
              (match PyClass._pragmas c with Some l => l | None => [] end)
              (PyClass._ipa c)
              (split_doc (PyClass.__doc__ c))
              (PyClass._doc_name c))
  end.

(** ** The grouped topological sorter (lines 215-227) *)

(** The body of the first loop: [groups.setdefault(cls.group, []).append(name)]. *)
Definition group_step (groups : dict (list string)) (item : string * Class.t)
  : dict (list string) :=
  let '(name, cls) := item in setdefault_append groups (Class.group cls) name.

(** The first loop: class names by group, in declaration order. *)
Definition group_names (classes : dict Class.t) : dict (list string) :=
  fold_left group_step classes [].

(** [{name: classes[name].bases for name in grouped}] *)
Definition inheritance_of (classes : dict Class.t) (grouped : list string)
  : result toposort.table :=
  for_fold (fun inh name =>
              cls <- getitem classes name ;;
              Ok (setitem inh name (Class.bases cls)))
    grouped [].

(** [for name in names: ret[name] = classes[name]] *)
Definition store_all (classes : dict Class.t) (names : list string) (ret : dict Class.t)
  : result (dict Class.t) :=
  for_fold (fun ret name =>
              cls <- getitem classes name ;;
              Ok (setitem ret name cls))
    names ret.

(** The body of the second loop, for one group. *)
Definition sorter_step (classes : dict Class.t) (ret : dict Class.t)
    (item : string * list string) : result (dict Class.t) :=
  let '(group, grouped) := item in
  inheritance <- inheritance_of classes grouped ;;
  names <- toposort.toposort_flatten inheritance ;;
  store_all classes names ret.

Definition _toposort_classes_by_group (classes : dict Class.t) : result (dict Class.t) :=
  let groups := group_names classes in
  for_fold (sorter_step classes) (sorted_items groups) [].

(** ** The loader (lines 230-251)

    [defs_has name] is [hasattr(defs, name)] for the module
    [swift.codegen.lib.schema.defs], which the loader imports. *)

Definition initial_known (m : dict PyObject) : list string :=
  ["int"; "string"; "boolean"]
  ++ filter (fun n => negb (PyStr.startswith n "__")) (keys m).

Definition is_nil {A : Type} (l : list A) : bool :=
  match l with
  | [] => true
  | _ => false
  end.

(** One round of the loop over [m.__dict__.items()]; the state is
    [(includes, classes)]. *)
Definition load_step (defs_has : string -> bool) (known : list string)
    (st : list string * dict Class.t) (item : string * PyObject)
  : result (list string * dict Class.t) :=
  let '(includes, classes) := st in
  let '(name, data) := item in
  if defs_has name then Ok (includes, classes)
  else if String.eqb name "__includes" then
    match data with
    | PyOther _ (Some items) => Ok (nodup string_dec items, classes)
    | _ => Raise TypeError
    end
  else if PyStr.startswith name "__" then Ok (includes, classes)
  else
    cls <- _get_class data ;;
    if negb (is_nil classes) && is_nil (Class.bases cls) then
      Raise (Error (String.append "Only one root class allowed, found second root " name))
    else
      check_types cls known ;;;
      Ok (includes, setitem classes name cls).

Definition load (defs_has : string -> bool) (m : dict PyObject) : result Schema.t :=
  let known := initial_known m in
  st <- for_fold (load_step defs_has known) m ([], []) ;;
  classes <- _toposort_classes_by_group (snd st) ;;
  Ok (Schema.mk classes (fst st)).

(** ** Vocabulary of the statements *)

(** *** Lists of names *)

(** Weakly ascending lists of strings. *)
Definition ascending (l : list string) : Prop :=
  StronglySorted (fun a b => String.leb a b = true) l.

(** Every entry is smaller than the next one. *)
Fixpoint strictly_ascending (l : list string) : bool :=
  match l with
  | [] => true
  | x :: l' =>
      match l' with
      | y :: _ => String.ltb x y && strictly_ascending l'
      | [] => true
      end
  end.

(** A list with every run of equal adjacent entries reduced to one entry. *)
Fixpoint runs (l : list string) : list string :=
  match l with
  | [] => []
  | x :: l' =>
      match l' with
      | y :: _ => if String.eqb x y then runs l' else x :: runs l'
      | [] => [x]
      end
  end.

(** Position of the first occurrence of a name in a list. *)
Fixpoint index_of (x : string) (l : list string) : option nat :=
  match l with
  | [] => None
  | y :: l' =>
      if String.eqb y x then Some 0
      else match index_of x l' with
           | Some i => Some (S i)
           | None => None
           end
  end.

(** Both names occur and [a] comes first. *)
Definition occurs_before (a b : string) (l : list string) : bool :=
  match index_of a l, index_of b l with
  | Some i, Some j => Nat.ltb i j
  | _, _ => false
  end.

(** Some occurrence of [a] comes before some occurrence of [b]. *)
Definition precedes (a b : string) (l : list string) : Prop :=
  exists l1 l2, l = l1 ++ l2 /\ In a l1 /\ In b l2.

(** *** The doc normaliser *)

(** The line feed character. *)
Definition LF : string := String (ascii_of_nat 10) EmptyString.

(** Number of whitespace characters a line starts with. *)
Fixpoint leading_whitespace (line : string) : nat :=
  match line with
  | String c s' => if PyStr.isspace c then S (leading_whitespace s') else 0
  | EmptyString => 0
  end.

(** A line made of whitespace only. *)
Fixpoint is_blank (line : string) : bool :=
  match line with
  | String c s' => PyStr.isspace c && is_blank s'
  | EmptyString => true
  end.

(** The least element of a non-empty list [n :: ns]. *)
Fixpoint minimum (n : nat) (ns : list nat) : nat :=
  match ns with
  | [] => n
  | n' :: ns' => Nat.min n (minimum n' ns')
  end.

(** The common indent of the non-blank lines, 0 when there is none. *)
Definition common_indent (lines : list string) : nat :=
  match map leading_whitespace (filter (fun l => negb (is_blank l)) lines) with
  | [] => 0
  | n :: ns => minimum n ns
  end.

(** What the normaliser computes before blank lines are dropped at both
    ends. *)
Definition normalized_lines (first : string) (rest : list string) : list string :=
  PyStr.strip first
  :: map (fun line => PyStr.rstrip (PyStr.slice_from (common_indent rest) line)) rest.

(** [k] empty lines. *)
Definition blanks (k : nat) : list string := repeat EmptyString k.

(** *** Properties *)

(** A string made of [k] underscores. *)
Fixpoint underscores (k : nat) : string :=
  match k with
  | 0 => EmptyString
  | S k' => String "_" (underscores k')
  end.

(** The last character is an underscore. *)
Fixpoint ends_with_underscore (s : string) : bool :=
  match s with
  | EmptyString => false
  | String c EmptyString => is_underscore c
  | String _ s' => ends_with_underscore s'
  end.

(** The invariant of the data model: [type] is absent exactly for
    predicates. *)
Definition type_invariant (p : Property.t) : Prop :=
  Property.type p = None <-> Property.kind p = Property.PREDICATE.

(** A modifier that keeps the invariant of every property it accepts. *)
Definition preserves_type_invariant (m : PropertyModifier) : Prop :=
  forall p p', type_invariant p -> modify m p = Ok p' -> type_invariant p'.

(** A specifier that is not itself a property breaking the invariant. *)
Definition specifier_ok (spec : Specifier) : Prop :=
  match spec with
  | SpecProperty p => type_invariant p
  | _ => True
  end.

(** *** Type validation *)

(** An optional value as a list of at most one element. *)
Definition option_to_list {A : Type} (o : option A) : list A :=
  match o with
  | Some a => [a]
  | None => []
  end.

(** Every type name a class refers to: its bases, its derived classes, the
    types of its properties and its IPA references. *)
Definition referenced_types (c : Class.t) : list string :=
  Class.bases c
  ++ Class.derived c
  ++ flat_map (fun p => option_to_list (Property.type p)) (Class.properties c)
  ++ match Class.ipa c with
     | Some ipa =>
         option_to_list (IpaInfo.from_class ipa)
         ++ match IpaInfo.on_arguments ipa with
            | Some args => values args
            | None => []
            end
     | None => []
     end.

(** The first name of a list that is not known. *)
Definition first_unknown (known : list string) (ts : list string) : option string :=
  find (fun t => negb (PyStr.mem t known)) ts.

(** The check of a whole list of names, in order. *)
Definition check_names (known : list string) (ts : list string) : result unit :=
  match first_unknown known ts with
  | Some t => Raise (Error (String.append "Unknown type " t))
  | None => Ok tt
  end.

(** *** Class objects *)

(** [c.isupper()] *)
Definition isupper (c : ascii) : bool :=
  let n := PyStr.code c in
  PyStr.between 65 90 n || PyStr.between 192 214 n || PyStr.between 216 222 n.

(** The group a base class is filed under once it is built: its [_group],
    or the default. *)
Definition effective_group (b : PyBase.t) : string :=
  match PyBase._group b with
  | Some g => g
  | None => EmptyString
  end.

(** The base [object] and a base class with the given [_group] lookup. *)
Definition base_object : PyBase.t := PyBase.mk "object" true None.

Definition base_class (name : string) (g : option string) : PyBase.t :=
  PyBase.mk name false g.

(** Class objects for examples: [class name(bases)] with the given
    [_group] lookup and nothing else declared. *)
Definition plain_class (name : string) (bases : list PyBase.t) (g : option string) : PyObject :=
  PyType (PyClass.mk name bases [] g None None None None None).

(** A class with the given bases and group and nothing else. *)
Definition simple_class (name : string) (bases : list string) (g : string) : Class.t :=
  Class.mk name bases [] [] g [] None [] None.

(** *** Dependency tables *)

(** Dependency tables in which every dependency has an entry. *)
Definition closed (data : toposort.table) : Prop :=
  forall x deps d, In (x, deps) data -> In d deps -> In d (keys data).

(** The table the rounds of [toposort] start from. *)
Definition prepared (data : toposort.table) : toposort.table :=
  toposort.discard_self data
  ++ map (fun item => (item, [])) (toposort.extra_items_in_deps (toposort.discard_self data)).

(** [d] is yielded in an earlier batch than [x]. *)
Definition earlier_batch (d x : string) (batches : list (list string)) : Prop :=
  exists b1 b2, batches = b1 ++ b2 /\ In d (concat b1) /\ In x (concat b2).

(** [rank] decreases along every dependency of a table. *)
Definition table_ranked (rank : string -> nat) (data : toposort.table) : Prop :=
  forall x deps d, In (x, deps) data -> In d deps -> rank d < rank x.

(** *** The sorter *)

(** The names of the classes of one group, in declaration order. *)
Definition names_of_group (g : string) (classes : dict Class.t) : list string :=
  keys (filter (fun '(_, c) => String.eqb (Class.group c) g) classes).

(** The classes of one group in the order the sort of that group gives
    them. *)
Definition group_order (classes : dict Class.t) (grouped : list string) : list string :=
  match inheritance_of classes grouped with
  | Ok inheritance =>
      match toposort.toposort_flatten inheritance with
      | Ok names => filter (fun n => PyStr.mem n grouped) names
      | Raise _ => []
      end
  | Raise _ => []
  end.

(** The batches the sort of one group goes through. *)
Definition group_batches (classes : dict Class.t) (g : string) : result (list (list string)) :=
  inheritance <- inheritance_of classes (names_of_group g classes) ;;
  toposort.toposort inheritance.

(** A result mapping all of whose bindings are bindings of [classes]. *)
Definition agrees (classes ret : dict Class.t) : Prop :=
  forall k v, In (k, v) ret -> get classes k = Some v.

(** The group tags of the classes of a mapping, in iteration order. *)
Definition group_tags (classes : dict Class.t) : list string :=
  map Class.group (values classes).

(** Groups are consecutive and appear in strictly ascending order. *)
Definition groups_ascending (classes : dict Class.t) : bool :=
  strictly_ascending (runs (group_tags classes)).

(** Every class comes after each of its bases (other than itself). *)
Definition bases_first (classes : dict Class.t) : Prop :=
  forall k c b,
    In (k, c) classes -> In b (Class.bases c) -> b <> k ->
    occurs_before b k (keys classes) = true.

(** Every class comes after each of its bases, as a statement on splits of
    the key list. *)
Definition bases_precede (classes : dict Class.t) : Prop :=
  forall k c b,
    In (k, c) classes -> In b (Class.bases c) -> b <> k -> precedes b k (keys classes).

(** No class has a base filed under a later group than its own. *)
Definition base_groups_not_later (classes : dict Class.t) : bool :=
  forallb (fun '(_, c) =>
             forallb (fun b =>
                        match get classes b with
                        | Some cb => String.leb (Class.group cb) (Class.group c)
                        | None => true
                        end)
               (Class.bases c))
    classes.

(** Every base of every class is a key of the mapping. *)
Definition bases_are_keys (classes : dict Class.t) : bool :=
  forallb (fun '(_, c) => forallb (fun b => PyStr.mem b (keys classes)) (Class.bases c))
    classes.

(** [rank] decreases from a class to each of its bases in the same group:
    the base relation inside every group is acyclic. *)
Definition ranked (rank : string -> nat) (classes : dict Class.t) : bool :=
  forallb (fun '(k, c) =>
             forallb (fun b =>
                        String.eqb b k
                        || match get classes b with
                           | Some cb =>
                               negb (String.eqb (Class.group cb) (Class.group c))
                               || Nat.ltb (rank b) (rank k)
                           | None => true
                           end)
               (Class.bases c))
    classes.

(** *** The loader *)

(** A module entry that the loader builds into a class. *)
Definition is_class_entry (defs_has : string -> bool) (name : string) : bool :=
  negb (defs_has name) && negb (String.eqb name "__includes")
  && negb (PyStr.startswith name "__").

(** The entries of a module that are built into a class without bases. *)
Definition baseless_entries (m : dict PyObject) : dict PyObject :=
  filter (fun '(_, data) =>
            match _get_class data with
            | Ok cls => is_nil (Class.bases cls)
            | Raise _ => false
            end) m.

(** The message of the root error. *)
Definition second_root_message (name : string) : string :=
  String.append "Only one root class allowed, found second root " name.

(** ** Further definitions of the source *)

(** The other [functools.partial] constructors, lines 60-63. *)
Definition OptionalProperty (ty : option string) : Property.t :=
  Property.new Property.OPTIONAL ty.
Definition RepeatedProperty (ty : option string) : Property.t :=
  Property.new Property.REPEATED ty.
Definition RepeatedOptionalProperty (ty : option string) : Property.t :=
  Property.new Property.REPEATED_OPTIONAL ty.

(** ** Further vocabulary *)

(** No character of the string is a line boundary. *)
Fixpoint single_line (s : string) : bool :=
  match s with
  | String c s' => negb (PyStr.is_linebreak c) && single_line s'
  | EmptyString => true
  end.

(** What the builder makes of one annotation [n: a].  The property made
    for a type reference or for the predicate marker is a new object and
    carries the name of its annotation.  A [Property] given as annotation
    keeps its kind and type; its name is left open, since the source renames
    the object in place and the object may stand under several
    annotations. *)
Definition built_from (na : string * Specifier) (p : Property.t) : Prop :=
  match snd na with
  | SpecRef r =>
      Property.name p = Some (PyStr.rstrip_by is_underscore (fst na))
      /\ Property.kind p = Property.SINGLE /\ Property.type p = Some (get_type_name r)
  | SpecPredicateMarker =>
      Property.name p = Some (PyStr.rstrip_by is_underscore (fst na))
      /\ Property.kind p = Property.PREDICATE /\ Property.type p = None
  | SpecProperty q =>
      Property.kind p = Property.kind q /\ Property.type p = Property.type q
  | SpecOther _ => False
  end.

(** The annotations of a class object. *)
Definition annotations_of (c : PyClass.t) : dict Specifier :=
  match PyClass.__annotations__ c with
  | Some d => d
  | None => []
  end.

(** A specifier the pipeline accepts. *)
Definition legal_specifier (a : Specifier) : bool :=
  match a with
  | SpecOther _ => false
  | _ => true
  end.

(** *** The sorter, continued *)



(** The base relation inside every group is acyclic. *)
Definition groups_acyclic (classes : dict Class.t) : Prop :=
  exists rank, ranked rank classes = true.

(** Two lists with the same elements. *)
Definition same_elements {A : Type} (l l' : list A) : Prop :=
  forall x, In x l <-> In x l'.

(** Two runs of the toposort loop that raise alike or yield batches with the
    same elements. *)
Definition same_batches (r r' : result (list (list string))) : Prop :=
  match r, r' with
  | Ok b, Ok b' => Forall2 same_elements b b'
  | Raise e, Raise e' => e = e'
  | _, _ => False
  end.

(** *** The loader, continued *)

(** Every class but the first one of the mapping has a base. *)
Definition later_have_bases (classes : dict Class.t) : Prop :=
  Forall (fun kc => Class.bases (snd kc) <> []) (tl classes).

(** What the loop leaves in [includes] after one entry that is not built
    into a class. *)
Definition includes_after (defs_has : string -> bool) (includes : list string)
    (item : string * PyObject) : list string :=
  if negb (defs_has (fst item)) && String.eqb (fst item) "__includes" then
    match snd item with
    | PyOther _ (Some items) => nodup string_dec items
    | _ => includes
    end
  else includes.

(** The exceptions that leave the loader. *)
Definition loader_exception (e : exn) : Prop :=
  match e with
  | Error _ | IndexError | TypeError | KeyError _ | CircularDependencyError => True
  | _ => False
  end.

(** *** Depth in a group *)

(** The round of the sort in which a name is yielded. *)
Fixpoint batch_of (x : string) (batches : list (list string)) : option nat :=
  match batches with
  | [] => None
  | batch :: rest =>
      if PyStr.mem x batch then Some 0
      else match batch_of x rest with
           | Some i => Some (S i)
           | None => None
           end
  end.

(** The same, with round 0 for a name that is never yielded. *)
Definition round_of (batches : list (list string)) (x : string) : nat :=
  match batch_of x batches with
  | Some i => i
  | None => 0
  end.

(** One more than the greatest of the levels of the dependencies, and 0
    without dependencies. *)
Definition level_above (level : string -> nat) (deps : list string) : nat :=
  match deps with
  | [] => 0
  | _ => S (list_max (map level deps))
  end.

(** The bases of a class other than the class itself. *)
Definition proper_bases (k : string) (c : Class.t) : list string :=
  filter (fun b => negb (String.eqb b k)) (Class.bases c).

(** The depth of a name with respect to group [g]: a class of the group
    without bases has depth 0, a class of the group with bases is one deeper
    than its deepest base, and a name that is no class of the group (a base
    from another group) has depth 0.  [fuel] bounds the length of the chains
    of bases that are followed. *)
Fixpoint depth_in (fuel : nat) (classes : dict Class.t) (g k : string) : nat :=
  match fuel with
  | 0 => 0
  | S fuel' =>
      match get classes k with
      | Some c =>
          if String.eqb (Class.group c) g
          then level_above (depth_in fuel' classes g) (proper_bases k c)
          else 0
      | None => 0
      end
  end.

(** The depth of a class in its own group; no chain of bases without a
    cycle is longer than the number of classes. *)
Definition group_depth (classes : dict Class.t) (k : string) : nat :=
  match get classes k with
  | Some c => depth_in (S (List.length classes)) classes (Class.group c) k
  | None => 0
  end.

(** The order of the classes of one group: by depth, then by name. *)
Definition depth_then_name (classes : dict Class.t) (x y : string) : bool :=
  Nat.ltb (group_depth classes x) (group_depth classes y)
  || (Nat.eqb (group_depth classes x) (group_depth classes y) && String.ltb x y).

(** *** Cycles of bases *)



(** *** Classes up to the names of their properties *)

(** A class with the names of its properties removed. *)
Definition forget_names (c : Class.t) : Class.t :=
  Class.mk (Class.name c) (Class.bases c) (Class.derived c)
    (map (fun p => Property.set_name p None) (Class.properties c))
    (Class.group c) (Class.pragmas c) (Class.ipa c) (Class.doc c)
    (Class.default_doc_name c).

(* ================================================================== *)
(** * Part II: properties                                              *)
(* ================================================================== *)

(** ** The error monad *)

Lemma for_each_app {A} (body : A -> result unit) xs ys :
  for_each body (xs ++ ys) = (for_each body xs ;;; for_each body ys).
Proof.
  induction xs as [|x xs IH]; simpl; auto.
  destruct (body x); simpl; auto.
Qed.

Lemma for_fold_app {A S} (body : S -> A -> result S) xs ys st :
  for_fold body (xs ++ ys) st = (st' <- for_fold body xs st ;; for_fold body ys st').
Proof.
  revert st. induction xs as [|x xs IH]; intros st; simpl; auto.
  destruct (body st x); simpl; auto.
Qed.

Lemma for_fold_cons {A S} (body : S -> A -> result S) x xs st :
  for_fold body (x :: xs) st = (st' <- body st x ;; for_fold body xs st').
Proof. reflexivity. Qed.

Lemma for_fold_raise {A S} (body : S -> A -> result S) xs st e :
  for_fold body xs st = Raise e ->
  exists pre x post st',
    xs = pre ++ x :: post /\ for_fold body pre st = Ok st' /\ body st' x = Raise e.
Proof.
  revert st. induction xs as [|x xs IH]; intros st H; simpl in H; [discriminate|].
  destruct (body st x) as [st1|e1] eqn:Hb; simpl in H.
  - destruct (IH _ H) as (pre & y & post & st' & -> & Hpre & Hy).
    exists (x :: pre), y, post, st'. simpl. rewrite Hb. simpl. auto.
  - injection H as ->. exists [], x, xs, st. auto.
Qed.

(** [bind_ok H as x eqn:E]: in [H : (x <- c ;; k) = Ok _] the computation
    [c] has returned some [x]; [E] records [c = Ok x]. *)
Ltac bind_head c :=
  lazymatch c with
  | bind ?c' _ => bind_head c'
  | _ => c
  end.

Tactic Notation "bind_ok" hyp(H) "as" ident(x) "eqn" ":" ident(E) :=
  lazymatch type of H with
  | bind ?c _ = Ok _ =>
      let h := bind_head c in
      destruct h as [x|?] eqn:E; simpl in H; [|discriminate H]
  end.

Lemma mem_In x xs : PyStr.mem x xs = true <-> In x xs.
Proof.
  unfold PyStr.mem. rewrite existsb_exists. split.
  - intros (y & Hy & E). apply String.eqb_eq in E. now subst.
  - intros H. exists x. split; auto. apply String.eqb_refl.
Qed.

Lemma mem_false x xs : PyStr.mem x xs = false <-> ~ In x xs.
Proof.
  rewrite <- mem_In. destruct (PyStr.mem x xs); intuition congruence.
Qed.

(** ** Strings *)

Lemma rstrip_by_fixed p s : PyStr.rstrip_by p (PyStr.rstrip_by p s) = PyStr.rstrip_by p s.
Proof.
  induction s as [|c s IH]; simpl; auto.
  destruct (PyStr.rstrip_by p s) as [|c' r] eqn:E.
  - destruct (p c) eqn:Hp; simpl; auto; try now rewrite Hp.
  - simpl in *. rewrite IH. reflexivity.
Qed.

Lemma rstrip_by_blank p s :
  PyStr.rstrip_by p s = EmptyString <-> (forall c, In c (list_ascii_of_string s) -> p c = true).
Proof.
  induction s as [|c s IH]; simpl.
  - split; auto; intros _ ? [].
  - destruct (PyStr.rstrip_by p s) as [|c' r] eqn:E.
    + destruct (p c) eqn:Hp.
      * split; auto. intros _ x [<-|Hx]; auto. now apply IH.
      * split; [discriminate|]. intros H. rewrite H in Hp; [discriminate|auto].
    + split; [discriminate|]. intros H.
      assert (String c' r = EmptyString) by (apply IH; auto). discriminate.
Qed.

Lemma rstrip_by_decompose s :
  exists k, s = String.append (PyStr.rstrip_by is_underscore s) (underscores k).
Proof.
  induction s as [|c s [k IH]]; simpl.
  - exists 0. reflexivity.
  - destruct (PyStr.rstrip_by is_underscore s) as [|c' r] eqn:E.
    + destruct (is_underscore c) eqn:Hc.
      * exists (S k). simpl in *. apply Ascii.eqb_eq in Hc. subst c. now rewrite IH at 1.
      * exists k. simpl in *. now rewrite IH at 1.
    + exists k. simpl in *. now rewrite IH at 1.
Qed.

Lemma rstrip_by_no_underscore s :
  ends_with_underscore (PyStr.rstrip_by is_underscore s) = false.
Proof.
  induction s as [|c s IH]; simpl; auto.
  destruct (PyStr.rstrip_by is_underscore s) as [|c' r] eqn:E.
  - destruct (is_underscore c) eqn:Hc; simpl; auto.
  - simpl in *. exact IH.
Qed.

Lemma ends_with_underscore_app s k :
  ends_with_underscore (String.append s (underscores (S k))) = true.
Proof.
  induction s as [|c s IH].
  - induction k as [|k IHk]; [reflexivity|].
    change (ends_with_underscore (String.append EmptyString (underscores (S k))) = true) in IHk.
    simpl in IHk |- *. exact IHk.
  - change (String.append (String c s) (underscores (S k)))
      with (String c (String.append s (underscores (S k)))).
    destruct (String.append s (underscores (S k))) eqn:E.
    + destruct s; discriminate.
    + exact IH.
Qed.

Lemma append_underscores_inj s1 s2 k1 k2 :
  ends_with_underscore s1 = false -> ends_with_underscore s2 = false ->
  String.append s1 (underscores k1) = String.append s2 (underscores k2) ->
  s1 = s2.
Proof.
  revert s2. induction s1 as [|c s1 IH]; intros s2 H1 H2 E.
  - destruct s2 as [|c2 s2]; auto. simpl in E.
    destruct k1 as [|k1]; [discriminate|]. simpl in E. injection E as <- E.
    exfalso. clear H1.
    assert (Hall : forall s k, underscores k = String.append s (underscores k2) ->
                          ends_with_underscore (String "_" s) = true).
    { clear. induction s as [|c s IH]; intros k E; auto.
      destruct k as [|k]; [discriminate|]. simpl in E. injection E as <- E.
      apply IH in E. simpl in *. exact E. }
    rewrite (Hall _ _ E) in H2. discriminate.
  - destruct s2 as [|c2 s2].
    + simpl in E. destruct k2 as [|k2]; [discriminate|]. simpl in E. injection E as -> E.
      exfalso.
      assert (Hall : forall s k, String.append s (underscores k1) = underscores k ->
                            ends_with_underscore (String "_" s) = true).
      { clear. induction s as [|c s IH]; intros k E; auto.
        destruct k as [|k]; [discriminate|]. simpl in E. injection E as -> E.
        apply IH in E. simpl in *. exact E. }
      rewrite (Hall _ _ E) in H1. discriminate.
    + simpl in E. injection E as <- E. f_equal. apply (IH s2); auto.
      * simpl in H1. destruct s1; auto.
      * simpl in H2. destruct s2; auto.
Qed.

Lemma rstrip_lstrip_fixed s : PyStr.rstrip s = s -> PyStr.rstrip (PyStr.lstrip s) = PyStr.lstrip s.
Proof.
  unfold PyStr.rstrip, PyStr.lstrip.
  induction s as [|c s IH]; simpl; auto.
  intros H. destruct (PyStr.isspace c) eqn:Hc.
  - apply IH. destruct (PyStr.rstrip_by PyStr.isspace s) as [|c' r] eqn:E.
    + discriminate.
    + now injection H.
  - simpl. now rewrite Hc.
Qed.

Lemma strip_rstripped s : PyStr.rstrip (PyStr.strip s) = PyStr.strip s.
Proof.
  unfold PyStr.strip. apply rstrip_lstrip_fixed. apply rstrip_by_fixed.
Qed.

Lemma is_blank_chars s :
  is_blank s = true <-> (forall c, In c (list_ascii_of_string s) -> PyStr.isspace c = true).
Proof.
  induction s as [|c s IH]; simpl.
  - split; auto; intros _ ? [].
  - rewrite andb_true_iff, IH. split.
    + intros [Hc Hs] x [<-|Hx]; auto.
    + intros H. split; auto.
Qed.

Lemma rstrip_blank s : is_blank s = true -> PyStr.rstrip s = EmptyString.
Proof.
  intros H. apply rstrip_by_blank. now apply is_blank_chars.
Qed.

Lemma lstrip_blank s : PyStr.lstrip s = EmptyString <-> is_blank s = true.
Proof.
  unfold PyStr.lstrip. induction s as [|c s IH]; simpl.
  - tauto.
  - destruct (PyStr.isspace c); simpl; auto. split; discriminate.
Qed.

Lemma lstrip_length_sum s :
  String.length s = leading_whitespace s + String.length (PyStr.lstrip s).
Proof.
  unfold PyStr.lstrip. induction s as [|c s IH]; simpl; auto.
  destruct (PyStr.isspace c); simpl; auto.
Qed.

Lemma lstrip_length s :
  String.length s - String.length (PyStr.lstrip s) = leading_whitespace s.
Proof.
  rewrite (lstrip_length_sum s) at 1. lia.
Qed.

Lemma indent_of_spec line :
  indent_of line = if is_blank line then [] else [leading_whitespace line].
Proof.
  unfold indent_of. rewrite <- lstrip_length.
  destruct (is_blank line) eqn:Hb.
  - apply lstrip_blank in Hb. now rewrite Hb.
  - destruct (PyStr.lstrip line) eqn:E; auto.
    apply lstrip_blank in E. congruence.
Qed.

Lemma indents_spec rest :
  flat_map indent_of rest
  = map leading_whitespace (filter (fun l => negb (is_blank l)) rest).
Proof.
  induction rest as [|l rest IH]; simpl; auto.
  rewrite indent_of_spec, IH. now destruct (is_blank l).
Qed.

Lemma minimum_swap a b ns : Nat.min a (minimum b ns) = Nat.min b (minimum a ns).
Proof.
  revert a b. induction ns as [|n ns IH]; intros a b; simpl; lia.
Qed.

Lemma fold_min_minimum i others : fold_right Nat.min i others = minimum i others.
Proof.
  revert i. induction others as [|o os IH]; intros i; simpl; auto.
  rewrite IH. apply minimum_swap.
Qed.

(** ** The order on strings *)

Lemma ascii_compare_lt_trans a b c :
  Ascii.compare a b = Lt -> Ascii.compare b c = Lt -> Ascii.compare a c = Lt.
Proof.
  unfold Ascii.compare. rewrite !N.compare_lt_iff. lia.
Qed.

Lemma compare_refl s : String.compare s s = Eq.
Proof.
  induction s as [|c s IH]; simpl; auto.
  unfold Ascii.compare. now rewrite N.compare_refl.
Qed.

Lemma compare_eq s t : String.compare s t = Eq <-> s = t.
Proof.
  split; [apply String.compare_eq_iff|]. intros ->. apply compare_refl.
Qed.

Lemma compare_lt_trans s t u :
  String.compare s t = Lt -> String.compare t u = Lt -> String.compare s u = Lt.
Proof.
  revert t u. induction s as [|a s IH]; intros [|b t] [|c u]; simpl; try congruence.
  destruct (Ascii.compare a b) eqn:Eab; try discriminate;
    destruct (Ascii.compare b c) eqn:Ebc; try discriminate; intros H1 H2.
  - apply Ascii.compare_eq_iff in Eab, Ebc. subst.
    unfold Ascii.compare. rewrite N.compare_refl. eauto.
  - apply Ascii.compare_eq_iff in Eab. subst. now rewrite Ebc.
  - apply Ascii.compare_eq_iff in Ebc. subst. now rewrite Eab.
  - now rewrite (ascii_compare_lt_trans _ _ _ Eab Ebc).
Qed.

Lemma ltb_lt s t : String.ltb s t = true <-> String.compare s t = Lt.
Proof.
  unfold String.ltb. destruct (String.compare s t); split; congruence.
Qed.

Lemma leb_le s t : String.leb s t = true <-> String.compare s t = Lt \/ s = t.
Proof.
  unfold String.leb. destruct (String.compare s t) eqn:E.
  - apply compare_eq in E. tauto.
  - tauto.
  - split; [discriminate|]. intros [H| ->]; [discriminate|].
    rewrite compare_refl in E. discriminate.
Qed.

Lemma ltb_irrefl s : String.ltb s s = false.
Proof.
  unfold String.ltb. now rewrite compare_refl.
Qed.

Lemma ltb_trans s t u :
  String.ltb s t = true -> String.ltb t u = true -> String.ltb s u = true.
Proof.
  rewrite !ltb_lt. apply compare_lt_trans.
Qed.

Lemma leb_refl s : String.leb s s = true.
Proof.
  apply leb_le. now right.
Qed.

Lemma leb_trans s t u :
  String.leb s t = true -> String.leb t u = true -> String.leb s u = true.
Proof.
  rewrite !leb_le. intros [H1| ->] [H2| ->]; auto.
  left. eapply compare_lt_trans; eauto.
Qed.

Lemma ltb_leb s t : String.ltb s t = true -> String.leb s t = true.
Proof.
  rewrite ltb_lt, leb_le. auto.
Qed.

Lemma leb_ltb s t : String.leb s t = true -> s <> t -> String.ltb s t = true.
Proof.
  rewrite ltb_lt, leb_le. intros [H| ->] Hne; congruence.
Qed.

Lemma leb_ltb_trans s t u :
  String.leb s t = true -> String.ltb t u = true -> String.ltb s u = true.
Proof.
  rewrite leb_le, !ltb_lt. intros [H1| ->] H2; auto. eapply compare_lt_trans; eauto.
Qed.

Lemma ltb_leb_trans s t u :
  String.ltb s t = true -> String.leb t u = true -> String.ltb s u = true.
Proof.
  rewrite leb_le, !ltb_lt. intros H1 [H2| <-]; auto. eapply compare_lt_trans; eauto.
Qed.

Lemma ltb_asym s t : String.ltb s t = true -> String.ltb t s = false.
Proof.
  intros H. destruct (String.ltb t s) eqn:E; auto.
  pose proof (ltb_trans _ _ _ H E) as Hc. rewrite ltb_irrefl in Hc. discriminate.
Qed.

Lemma leb_false_ltb s t : String.leb s t = false -> String.ltb t s = true.
Proof.
  intros H. destruct (String.leb_total s t) as [H1|H1]; [congruence|].
  apply leb_ltb; auto. intros ->. rewrite leb_refl in H. discriminate.
Qed.

Create HintDb order discriminated.
#[local] Hint Resolve leb_refl ltb_leb leb_trans ltb_trans leb_ltb_trans ltb_leb_trans : order.

(** ** Sorting *)

Lemma insert_sorted_perm x l : Permutation (x :: l) (PyStr.insert_sorted x l).
Proof.
  induction l as [|y l IH]; simpl; auto.
  destruct (String.leb x y); auto.
  rewrite perm_swap. now constructor.
Qed.

Lemma sort_perm l : Permutation l (PyStr.sort l).
Proof.
  induction l as [|x l IH]; simpl; auto.
  rewrite <- insert_sorted_perm. now constructor.
Qed.

Lemma insert_sorted_ascending x l : ascending l -> ascending (PyStr.insert_sorted x l).
Proof.
  unfold ascending. induction l as [|y l IH]; intros Hs; simpl.
  - repeat constructor.
  - inversion Hs as [|? ? Hl Hy]; subst.
    destruct (String.leb x y) eqn:E.
    + constructor; auto. constructor; auto.
      eapply Forall_impl; [|exact Hy]. intros z Hz. eauto with order.
    + constructor; auto.
      apply leb_false_ltb, ltb_leb in E.
      rewrite <- (insert_sorted_perm x l). constructor; auto.
Qed.

Lemma sort_ascending l : ascending (PyStr.sort l).
Proof.
  induction l as [|x l IH]; simpl.
  - constructor.
  - now apply insert_sorted_ascending.
Qed.

Lemma sorted_set_In x l : In x (PyStr.sorted_set l) <-> In x l.
Proof.
  unfold PyStr.sorted_set. split; intros H.
  - apply (nodup_In string_dec). eapply Permutation_in; [symmetry; apply sort_perm|exact H].
  - eapply Permutation_in; [apply sort_perm|]. now apply (nodup_In string_dec).
Qed.

Lemma sorted_set_NoDup l : NoDup (PyStr.sorted_set l).
Proof.
  unfold PyStr.sorted_set. eapply Permutation_NoDup; [apply sort_perm|].
  apply NoDup_nodup.
Qed.

Lemma sorted_set_ascending l : ascending (PyStr.sorted_set l).
Proof.
  apply sort_ascending.
Qed.

(** ** Positions in a list *)

Lemma index_of_None x l : index_of x l = None <-> ~ In x l.
Proof.
  induction l as [|y l IH]; simpl.
  - tauto.
  - destruct (String.eqb_spec y x) as [->|Hne].
    + split; [discriminate|]. intros H. exfalso. auto.
    + destruct (index_of x l); intuition (try discriminate; try congruence).
Qed.

Lemma index_of_Some_lt x l i : index_of x l = Some i -> i < List.length l.
Proof.
  revert i. induction l as [|y l IH]; simpl; intros i; [discriminate|].
  destruct (String.eqb y x).
  - intros H. injection H as <-. lia.
  - destruct (index_of x l) as [j|]; [|discriminate].
    intros H. injection H as <-. specialize (IH j eq_refl). lia.
Qed.

Lemma index_of_In x l : In x l -> exists i, index_of x l = Some i.
Proof.
  intros H. destruct (index_of x l) as [i|] eqn:E; eauto.
  apply index_of_None in E. contradiction.
Qed.

Lemma index_of_app x l1 l2 :
  index_of x (l1 ++ l2)
  = match index_of x l1 with
    | Some i => Some i
    | None => option_map (Nat.add (List.length l1)) (index_of x l2)
    end.
Proof.
  induction l1 as [|y l1 IH]; simpl.
  - destruct (index_of x l2); reflexivity.
  - destruct (String.eqb y x); auto.
    rewrite IH. destruct (index_of x l1); auto.
    destruct (index_of x l2); reflexivity.
Qed.

Lemma NoDup_app_disjoint {A} (l1 l2 : list A) x :
  NoDup (l1 ++ l2) -> In x l1 -> In x l2 -> False.
Proof.
  induction l1 as [|y l1 IH]; simpl; [tauto|].
  intros Hnd [->|Hin] H2; inversion Hnd as [|? ? Hy Hnd']; subst; auto.
  apply Hy. apply in_or_app. now right.
Qed.

Lemma precedes_occurs_before a b l :
  NoDup l -> precedes a b l -> occurs_before a b l = true.
Proof.
  intros Hnd (l1 & l2 & -> & Ha & Hb). unfold occurs_before.
  rewrite !index_of_app.
  destruct (index_of_In _ _ Ha) as (i & Hi). rewrite Hi.
  assert (Hb1 : index_of b l1 = None).
  { apply index_of_None. intros Hin. eapply NoDup_app_disjoint; eauto. }
  rewrite Hb1. destruct (index_of_In _ _ Hb) as (j & Hj). rewrite Hj. simpl.
  apply index_of_Some_lt in Hi. apply Nat.ltb_lt. lia.
Qed.

Lemma occurs_before_asym a b l : occurs_before a b l = true -> occurs_before b a l = false.
Proof.
  unfold occurs_before. destruct (index_of a l), (index_of b l); auto.
  rewrite Nat.ltb_lt, Nat.ltb_ge. lia.
Qed.

Lemma precedes_app_l a b l l' : precedes a b l -> precedes a b (l ++ l').
Proof.
  intros (l1 & l2 & -> & Ha & Hb). exists l1, (l2 ++ l'). rewrite app_assoc.
  repeat split; auto. apply in_or_app. now left.
Qed.

Lemma precedes_app_r a b l l' : precedes a b l' -> precedes a b (l ++ l').
Proof.
  intros (l1 & l2 & -> & Ha & Hb). exists (l ++ l1), l2. rewrite app_assoc.
  repeat split; auto. apply in_or_app. now right.
Qed.

Lemma precedes_app_cross a b l l' : In a l -> In b l' -> precedes a b (l ++ l').
Proof.
  intros Ha Hb. exists l, l'. auto.
Qed.

Lemma precedes_filter p a b l :
  precedes a b l -> p a = true -> p b = true -> precedes a b (filter p l).
Proof.
  intros (l1 & l2 & -> & Ha & Hb) Hpa Hpb. exists (filter p l1), (filter p l2).
  rewrite filter_app. repeat split; auto; apply filter_In; auto.
Qed.

Lemma precedes_In a b l : precedes a b l -> In a l /\ In b l.
Proof.
  intros (l1 & l2 & -> & Ha & Hb). split; apply in_or_app; auto.
Qed.

(** ** Dictionaries *)

Lemma keys_setitem {V} (d : dict V) k v x :
  In x (keys (setitem d k v)) <-> x = k \/ In x (keys d).
Proof.
  induction d as [|[k' v'] d IH]; simpl.
  - intuition.
  - destruct (String.eqb k' k) eqn:E; simpl.
    + apply String.eqb_eq in E. subst. intuition.
    + rewrite IH. intuition.
Qed.

Lemma append_inj_l p a b : String.append p a = String.append p b -> a = b.
Proof.
  induction p as [|c p IH]; simpl; auto. intros H. injection H as H. auto.
Qed.

Lemma get_None {V} (d : dict V) k : get d k = None <-> ~ In k (keys d).
Proof.
  induction d as [|[k' v] d IH]; simpl.
  - tauto.
  - destruct (String.eqb_spec k' k) as [->|Hne].
    + split; [discriminate|]. intros H. exfalso. auto.
    + rewrite IH. intuition.
Qed.

Lemma get_Some_In {V} (d : dict V) k v : get d k = Some v -> In (k, v) d.
Proof.
  induction d as [|[k' v'] d IH]; simpl; [discriminate|].
  destruct (String.eqb_spec k' k) as [->|Hne].
  - intros H. injection H as ->. now left.
  - intros H. right. auto.
Qed.

Lemma In_keys {V} (d : dict V) k v : In (k, v) d -> In k (keys d).
Proof.
  intros H. unfold keys. apply in_map_iff. exists (k, v). auto.
Qed.

Lemma keys_In {V} (d : dict V) k : In k (keys d) -> exists v, In (k, v) d.
Proof.
  unfold keys. rewrite in_map_iff. intros ([k' v] & <- & H). eauto.
Qed.

Lemma In_get {V} (d : dict V) k v : NoDup (keys d) -> In (k, v) d -> get d k = Some v.
Proof.
  induction d as [|[k' v'] d IH]; simpl; [tauto|].
  intros Hnd [H|H].
  - injection H as -> ->. now rewrite String.eqb_refl.
  - inversion Hnd as [|? ? Hk Hnd']; subst.
    destruct (String.eqb_spec k' k) as [->|Hne]; auto.
    exfalso. apply Hk. eapply In_keys; eauto.
Qed.

Lemma get_In_keys {V} (d : dict V) k : In k (keys d) -> exists v, get d k = Some v.
Proof.
  intros H. destruct (get d k) eqn:E; eauto. apply get_None in E. contradiction.
Qed.

Lemma setitem_new {V} (d : dict V) k v : ~ In k (keys d) -> setitem d k v = d ++ [(k, v)].
Proof.
  induction d as [|[k' v'] d IH]; simpl; auto.
  intros H. destruct (String.eqb_spec k' k) as [->|Hne].
  - exfalso. auto.
  - f_equal. apply IH. auto.
Qed.

Lemma setitem_same {V} (d : dict V) k v : get d k = Some v -> setitem d k v = d.
Proof.
  induction d as [|[k' v'] d IH]; simpl; [discriminate|].
  destruct (String.eqb_spec k' k) as [->|Hne].
  - intros H. now injection H as ->.
  - intros H. f_equal. auto.
Qed.

Lemma keys_setitem_old {V} (d : dict V) k v : In k (keys d) -> keys (setitem d k v) = keys d.
Proof.
  induction d as [|[k' v'] d IH]; simpl; [tauto|].
  destruct (String.eqb_spec k' k) as [->|Hne]; simpl; auto.
  intros [H|H]; [congruence|]. f_equal. auto.
Qed.

Lemma setitem_NoDup {V} (d : dict V) k v : NoDup (keys d) -> NoDup (keys (setitem d k v)).
Proof.
  intros H. destruct (in_dec string_dec k (keys d)) as [Hin|Hin].
  - now rewrite keys_setitem_old.
  - rewrite setitem_new; auto. unfold keys. rewrite map_app. simpl.
    apply NoDup_app; auto.
    + repeat constructor. intros [].
    + intros x Hx [<-|[]]. contradiction.
Qed.

Lemma get_setitem {V} (d : dict V) k v k' :
  get (setitem d k v) k' = if String.eqb k k' then Some v else get d k'.
Proof.
  induction d as [|[k0 v0] d IH]; simpl.
  - reflexivity.
  - destruct (String.eqb_spec k0 k) as [->|Hne]; simpl.
    + destruct (String.eqb_spec k k'); auto.
    + rewrite IH. destruct (String.eqb_spec k0 k') as [->|Hne'].
      * destruct (String.eqb_spec k k'); congruence.
      * reflexivity.
Qed.

(** ** The doc normaliser *)

Lemma pop_trailing_blank_decompose l :
  exists b, l = pop_trailing_blank l ++ blanks b.
Proof.
  induction l as [|x l [b IH]]; simpl.
  - now exists 0.
  - destruct (pop_trailing_blank l) as [|y r] eqn:E.
    + destruct x.
      * exists (S b). simpl in *. now rewrite IH at 1.
      * exists b. simpl in *. now rewrite IH at 1.
    + exists b. simpl in *. now rewrite IH at 1.
Qed.

Lemma pop_leading_blank_decompose l :
  exists a, l = blanks a ++ pop_leading_blank l.
Proof.
  induction l as [|x l [a IH]]; simpl.
  - now exists 0.
  - destruct x.
    + exists (S a). simpl. now rewrite IH at 1.
    + now exists 0.
Qed.

Lemma pop_leading_blank_head l t : pop_leading_blank l <> EmptyString :: t.
Proof.
  induction l as [|x l IH]; simpl; [discriminate|].
  destruct x; auto. discriminate.
Qed.

Lemma pop_trailing_blank_last l t : pop_trailing_blank l <> t ++ [EmptyString].
Proof.
  revert t. induction l as [|x l IH]; intros t; simpl.
  - destruct t; discriminate.
  - destruct (pop_trailing_blank l) as [|y r] eqn:E.
    + destruct x; destruct t as [|? [|]]; simpl; discriminate.
    + destruct t as [|z t]; simpl; [discriminate|].
      intros H. injection H as _ H. now apply IH in H.
Qed.

Lemma pop_leading_blank_last l t :
  (forall t', l <> t' ++ [EmptyString]) -> pop_leading_blank l <> t ++ [EmptyString].
Proof.
  destruct (pop_leading_blank_decompose l) as [a Ha].
  intros H E. apply (H (blanks a ++ t)). rewrite Ha at 1. rewrite E.
  now rewrite app_assoc.
Qed.

Lemma pop_trailing_blank_incl l x : In x (pop_trailing_blank l) -> In x l.
Proof.
  destruct (pop_trailing_blank_decompose l) as [b Hb]. intros H.
  rewrite Hb. apply in_or_app. now left.
Qed.

Lemma pop_leading_blank_incl l x : In x (pop_leading_blank l) -> In x l.
Proof.
  destruct (pop_leading_blank_decompose l) as [a Ha]. intros H.
  rewrite Ha. apply in_or_app. now right.
Qed.

Lemma splitlines_from_nonempty cur s :
  cur <> EmptyString \/ s <> EmptyString -> PyStr.splitlines_from cur s <> [].
Proof.
  revert cur. induction s as [|c s IH]; intros cur H; simpl.
  - destruct cur; [|discriminate]. destruct H; congruence.
  - destruct (PyStr.is_linebreak c).
    + destruct s as [|c' s']; [discriminate|].
      destruct (Nat.eqb (PyStr.code c) 13 && Nat.eqb (PyStr.code c') 10); discriminate.
    + apply IH. left. destruct cur; discriminate.
Qed.

Lemma splitlines_nonempty d : d <> EmptyString -> PyStr.splitlines d <> [].
Proof.
  intros H. apply splitlines_from_nonempty. now right.
Qed.

Lemma split_doc_unfold c d first rest :
  PyStr.splitlines (String c d) = first :: rest ->
  split_doc (Some (String c d))
  = pop_leading_blank (pop_trailing_blank
      (PyStr.strip first ::
       match flat_map indent_of rest with
       | [] => []
       | i :: others =>
           map (fun line => PyStr.rstrip (PyStr.slice_from (fold_right Nat.min i others) line)) rest
       end)).
Proof.
  intros H. unfold split_doc. now rewrite H.
Qed.

Lemma normalized_lines_trimmed first rest :
  exists b,
    normalized_lines first rest
    = (PyStr.strip first ::
       match flat_map indent_of rest with
       | [] => []
       | i :: others =>
           map (fun line => PyStr.rstrip (PyStr.slice_from (fold_right Nat.min i others) line)) rest
       end) ++ blanks b.
Proof.
  unfold normalized_lines, common_indent. rewrite indents_spec.
  destruct (map leading_whitespace (filter (fun l => negb (is_blank l)) rest)) as [|i others] eqn:E.
  - exists (List.length rest). simpl. f_equal.
    assert (Hall : forall l, In l rest -> is_blank l = true).
    { intros l Hl. destruct (is_blank l) eqn:Hb; auto.
      assert (In l (filter (fun l => negb (is_blank l)) rest))
        by (apply filter_In; split; auto; now rewrite Hb).
      apply map_eq_nil in E. rewrite E in H. destruct H. }
    clear E. induction rest as [|l rest IH]; simpl; auto.
    unfold blanks. simpl. f_equal.
    + apply rstrip_blank. apply Hall. now left.
    + apply IH. intros l' Hl'. apply Hall. now right.
  - exists 0. rewrite fold_min_minimum. simpl. now rewrite app_nil_r.
Qed.

Lemma split_doc_decompose d :
  d <> EmptyString ->
  exists first rest a b,
    PyStr.splitlines d = first :: rest
    /\ normalized_lines first rest = blanks a ++ split_doc (Some d) ++ blanks b.
Proof.
  intros Hd. destruct d as [|c d]; [congruence|].
  destruct (PyStr.splitlines (String c d)) as [|first rest] eqn:Hl.
  - now apply splitlines_nonempty in Hl.
  - exists first, rest.
    destruct (normalized_lines_trimmed first rest) as [b0 Hn].
    rewrite (split_doc_unfold _ _ _ _ Hl). rewrite Hn.
    set (trimmed := PyStr.strip first :: _).
    destruct (pop_trailing_blank_decompose trimmed) as [b1 H1].
    destruct (pop_leading_blank_decompose (pop_trailing_blank trimmed)) as [a H2].
    exists a, (b1 + b0). split; auto.
    rewrite H1 at 1. rewrite H2 at 1.
    unfold blanks. rewrite repeat_app, <- !app_assoc. reflexivity.
Qed.

Lemma split_doc_edges doc :
  (forall t, split_doc doc <> EmptyString :: t)
  /\ (forall t, split_doc doc <> t ++ [EmptyString]).
Proof.
  assert (Hnil : (forall t : list string, [] <> EmptyString :: t)
                 /\ (forall t : list string, [] <> t ++ [EmptyString])).
  { split; intros t; [discriminate | destruct t; discriminate]. }
  destruct doc as [[|c d]|]; try exact Hnil.
  unfold split_doc. destruct (PyStr.splitlines (String c d)) as [|first rest]; [exact Hnil|].
  split; intros t.
  - apply pop_leading_blank_head.
  - apply pop_leading_blank_last. intros t'. apply pop_trailing_blank_last.
Qed.

Lemma split_doc_rstripped doc :
  Forall (fun line => PyStr.rstrip line = line) (split_doc doc).
Proof.
  destruct doc as [[|c d]|]; try constructor.
  unfold split_doc. destruct (PyStr.splitlines (String c d)) as [|first rest]; [constructor|].
  apply Forall_forall. intros x Hx.
  apply pop_leading_blank_incl, pop_trailing_blank_incl in Hx.
  destruct Hx as [<-|Hx].
  - apply strip_rstripped.
  - destruct (flat_map indent_of rest); [destruct Hx|].
    apply in_map_iff in Hx. destruct Hx as (line & <- & _). apply rstrip_by_fixed.
Qed.

(** C3 (as stated, refuted): on the second example of the claim the
    normaliser keeps the two blank lines between ["Summary"] and
    ["indented"]; it does not return [["Summary"; "indented"]]. *)
Lemma split_doc_keeps_inner_blank_lines :
  split_doc (Some ("Summary" ++ LF ++ LF ++ "   " ++ LF ++ "  indented")%string)
  <> ["Summary"; "indented"].
Proof. vm_compute. discriminate. Qed.

(** C3 (amended): [split_doc] maps ["Summary\n    line one\n    line two"]
    to [["Summary"; "line one"; "line two"]] and ["Summary\n\n   \n  indented"]
    to [["Summary"; ""; ""; "indented"]].  In general the result neither
    starts nor ends with a blank line, no line of it has trailing whitespace,
    and, up to blank lines at both ends, it is the first line stripped of
    surrounding whitespace followed by every later line with the common
    indent of the non-blank later lines cut off and trailing whitespace
    stripped; blank lines between two kept lines are kept. *)
Theorem split_doc_normalizes :
  split_doc (Some ("Summary" ++ LF ++ "    line one" ++ LF ++ "    line two")%string)
  = ["Summary"; "line one"; "line two"]
  /\ split_doc (Some ("Summary" ++ LF ++ LF ++ "   " ++ LF ++ "  indented")%string)
     = ["Summary"; ""; ""; "indented"]%string
  /\ (forall doc,
         (forall t, split_doc doc <> EmptyString :: t)
         /\ (forall t, split_doc doc <> t ++ [EmptyString])
         /\ Forall (fun line => PyStr.rstrip line = line) (split_doc doc))
  /\ (forall d, d <> EmptyString ->
         exists first rest a b,
           PyStr.splitlines d = first :: rest
           /\ normalized_lines first rest = blanks a ++ split_doc (Some d) ++ blanks b)
  /\ split_doc None = [] /\ split_doc (Some EmptyString) = [].
Proof.
  split; [reflexivity|]. split; [reflexivity|]. split; [|split; [|split; reflexivity]].
  - intros doc. destruct (split_doc_edges doc) as [H1 H2].
    split; [exact H1|]. split; [exact H2|]. apply split_doc_rstripped.
  - exact split_doc_decompose.
Qed.

(** ** The property pipeline *)

(** C9 (as stated, refuted): on the declared name [a__] the stored name is
    [a], which is not the declared name with its trailing underscore
    removed ([a_]). *)
Lemma namer_strips_more_than_one_underscore :
  let prop := SingleProperty (Some "int") in
  modify (_PropertyNamer (String.append "a_" "_")) prop
  = Ok (Property.set_name prop (Some "a"))
  /\ modify (_PropertyNamer (String.append "a_" "_")) prop
     <> Ok (Property.set_name prop (Some "a_")).
Proof.
  split; [reflexivity|]. vm_compute. intros H. discriminate H.
Qed.

(** C9 (amended): the naming modifier stores the declared name with all of
    its trailing underscores removed and leaves every other field alone.  A
    name without a trailing underscore is stored unchanged, a name with
    exactly one trailing underscore loses exactly that one, and [class_] is
    stored as [class]. *)
Theorem namer_strips_trailing_underscores :
  (forall name prop,
      exists stored k,
        modify (_PropertyNamer name) prop = Ok (Property.set_name prop (Some stored))
        /\ name = String.append stored (underscores k)
        /\ ends_with_underscore stored = false
        /\ (ends_with_underscore name = false -> stored = name)
        /\ (forall s, name = String.append s "_" -> ends_with_underscore s = false ->
                      stored = s))
  /\ (forall prop,
         modify (_PropertyNamer "class_") prop = Ok (Property.set_name prop (Some "class"))).
Proof.
  split; [|reflexivity].
  intros name prop.
  destruct (rstrip_by_decompose name) as [k Hk].
  pose proof (rstrip_by_no_underscore name) as Hno.
  exists (PyStr.rstrip_by is_underscore name), k.
  split; [reflexivity|]. split; [exact Hk|]. split; [exact Hno|]. split.
  - intros Hname. destruct k as [|k].
    + rewrite Hk at 2. simpl.
      clear. induction (PyStr.rstrip_by is_underscore name); simpl; congruence.
    + rewrite Hk in Hname. now rewrite ends_with_underscore_app in Hname.
  - intros s Hs Hends.
    apply (append_underscores_inj _ _ k 1); auto.
    rewrite <- Hk. exact Hs.
Qed.

Lemma make_property_invariant spec p :
  specifier_ok spec -> _make_property spec = Ok p -> type_invariant p.
Proof.
  destruct spec as [r| |q|repr]; simpl; intros Hok H; try discriminate.
  - injection H as <-. unfold type_invariant. simpl. split; discriminate.
  - injection H as <-. unfold type_invariant. simpl. split; reflexivity.
  - injection H as <-. exact Hok.
Qed.

Lemma ror_invariant m spec p :
  preserves_type_invariant m -> specifier_ok spec ->
  __ror__ m spec = Ok p -> type_invariant p.
Proof.
  unfold __ror__. intros Hm Hok H.
  bind_ok H as q eqn:E.
  eapply Hm; eauto using make_property_invariant.
Qed.

Lemma namer_preserves_type_invariant name : preserves_type_invariant (_PropertyNamer name).
Proof.
  intros p p' Hp H. simpl in H. injection H as <-. exact Hp.
Qed.

Lemma abstract_modifier_preserves_type_invariant : preserves_type_invariant abstract_modifier.
Proof.
  intros p p' _ H. discriminate H.
Qed.

(** C8 (as stated, refuted): the pipeline passes an existing property
    through as it is, so a [SINGLE] property built without a type comes out
    named, still [SINGLE] and still without a type. *)
Lemma pipeline_passes_untyped_single :
  exists p,
    pipeline (SpecProperty (Property.new Property.SINGLE None)) (_PropertyNamer "x") [] = Ok p
    /\ ~ type_invariant p.
Proof.
  eexists. split; [reflexivity|].
  unfold type_invariant. simpl. intros [H _]. specialize (H eq_refl). discriminate H.
Qed.

(** C8 (amended): a property produced by the pipeline has its [type] absent
    exactly when its [kind] is [PREDICATE], provided that the specifier is a
    type reference, the predicate marker, or an existing property for which
    this already holds, and that every modifier applied keeps it (as the
    naming modifier does, which only touches [name]). *)
Theorem pipeline_keeps_type_invariant
    (spec : Specifier) (m : PropertyModifier) (ms : list PropertyModifier) (p : Property.t) :
  specifier_ok spec ->
  Forall preserves_type_invariant (m :: ms) ->
  pipeline spec m ms = Ok p ->
  type_invariant p.
Proof.
  unfold pipeline. intros Hok Hms H.
  inversion Hms as [|? ? Hm Hrest]; subst.
  bind_ok H as q eqn:E.
  assert (Hq : type_invariant q) by (eapply ror_invariant; eauto).
  clear E Hok Hms Hm. revert q Hq H.
  induction Hrest as [|m' ms' Hm' _ IH]; intros q Hq H; simpl in H.
  - now injection H as <-.
  - bind_ok H as q' eqn:E'.
    apply (IH q'); auto.
    apply (ror_invariant m' (SpecProperty q)); auto.
Qed.

(** C8 at work on ["int" | namer | namer | namer]. *)
Lemma pipeline_keeps_type_invariant_witness :
  exists p,
    pipeline (SpecRef (RefStr "int")) (_PropertyNamer "x_") [_PropertyNamer "y"; _PropertyNamer "z"] = Ok p
    /\ type_invariant p.
Proof.
  eexists. split; [reflexivity|].
  apply (pipeline_keeps_type_invariant
           (SpecRef (RefStr "int")) (_PropertyNamer "x_") [_PropertyNamer "y"; _PropertyNamer "z"]).
  - exact I.
  - apply Forall_cons; [apply namer_preserves_type_invariant|].
    apply Forall_cons; [apply namer_preserves_type_invariant|].
    apply Forall_cons; [apply namer_preserves_type_invariant|apply Forall_nil].
  - reflexivity.
Defined.

(** ** Type validation *)

Lemma check_names_app known xs ys :
  check_names known (xs ++ ys) = (check_names known xs ;;; check_names known ys).
Proof.
  unfold check_names, first_unknown.
  induction xs as [|x xs IH]; simpl; auto.
  destruct (negb (PyStr.mem x known)); simpl; auto.
Qed.

Lemma check_type_names known t :
  _check_type t known = check_names known (option_to_list t).
Proof.
  destruct t as [t|]; simpl; auto.
  unfold check_names, first_unknown. simpl.
  destruct (negb (PyStr.mem t known)); auto.
Qed.

Lemma for_each_check_names {A} known (f : A -> option string) xs :
  for_each (fun x => _check_type (f x) known) xs
  = check_names known (flat_map (fun x => option_to_list (f x)) xs).
Proof.
  induction xs as [|x xs IH]; simpl; auto.
  rewrite check_names_app, <- IH, check_type_names. reflexivity.
Qed.

Lemma flat_map_singleton {A} (l : list A) : flat_map (fun x => option_to_list (Some x)) l = l.
Proof.
  induction l as [|x l IH]; simpl; auto. f_equal. exact IH.
Qed.

Lemma check_types_names self known :
  check_types self known = check_names known (referenced_types self).
Proof.
  unfold check_types, referenced_types.
  rewrite !check_names_app, !for_each_check_names, !flat_map_singleton.
  destruct (Class.ipa self) as [ipa|]; auto.
  rewrite check_names_app, check_type_names.
  destruct (IpaInfo.on_arguments ipa) as [args|]; auto.
  now rewrite for_each_check_names, flat_map_singleton.
Qed.

Lemma first_unknown_some known ts t :
  first_unknown known ts = Some t -> In t ts /\ ~ In t known.
Proof.
  unfold first_unknown. intros H. apply find_some in H. destruct H as [H1 H2].
  split; auto. apply mem_false. now destruct (PyStr.mem t known).
Qed.

Lemma first_unknown_none known ts :
  first_unknown known ts = None <-> (forall t, In t ts -> In t known).
Proof.
  unfold first_unknown. split.
  - intros H t Ht. pose proof (find_none _ _ H t Ht) as Hn. simpl in Hn.
    apply mem_In. now destruct (PyStr.mem t known).
  - intros H. destruct (find _ ts) as [t|] eqn:E; auto.
    apply first_unknown_some in E. destruct E as [E1 E2]. now apply H in E1.
Qed.

(** C5: [check_types] raises [Error] with the message ["Unknown type t"]
    exactly when one of the names the class refers to (a base, a derived
    class, the type of a property that has one, [from_class] or a value of
    [on_arguments] of its IPA record) is not in [known], and the [t] of the
    message is such a name; when all of them are known it returns normally.
    It computes nothing else, so the class is left as it was. *)
Theorem check_types_unknown_iff (self : Class.t) (known : list string) :
  ((exists t, In t (referenced_types self) /\ ~ In t known)
   <-> (exists t, check_types self known = Raise (Error (String.append "Unknown type " t))
                  /\ In t (referenced_types self) /\ ~ In t known))
  /\ ((forall t, In t (referenced_types self) -> In t known)
      <-> check_types self known = Ok tt)
  /\ (forall e, check_types self known = Raise e ->
                exists t, e = Error (String.append "Unknown type " t)).
Proof.
  rewrite check_types_names. unfold check_names.
  destruct (first_unknown known (referenced_types self)) as [t|] eqn:E.
  - destruct (first_unknown_some _ _ _ E) as [H1 H2].
    split; [|split].
    + split; intros _; exists t; auto.
    + split; [|discriminate]. intros H. now apply H in H1.
    + intros e He. injection He as <-. now exists t.
  - pose proof (proj1 (first_unknown_none _ _) E) as Hall.
    split; [|split].
    + split.
      * intros (t & Ht & Hn). now apply Hall in Ht.
      * intros (t & Ht & _). discriminate.
    + split; auto.
    + discriminate.
Qed.

(** ** The class builder *)

Lemma comprehension_raise {A B} (f : A -> result B) xs e :
  comprehension f xs = Raise e -> exists x, In x xs /\ f x = Raise e.
Proof.
  induction xs as [|x xs IH]; simpl; [discriminate|].
  destruct (f x) as [y|e1] eqn:E; simpl.
  - destruct (comprehension f xs) as [ys|e2]; simpl; [discriminate|].
    intros H. injection H as ->. destruct IH as (x' & Hx' & Hf); auto.
    exists x'. auto.
  - intros H. injection H as ->. exists x. auto.
Qed.

Lemma named_property_raise n a e :
  __ror__ (_PropertyNamer n) a = Raise e ->
  exists repr, e = Error (String.append "Illegal property specifier " repr).
Proof.
  unfold __ror__. destruct a as [r| |q|repr]; simpl; try discriminate.
  intros H. injection H as <-. now exists repr.
Qed.

Lemma properties_raise (d : dict Specifier) e :
  comprehension (fun '(n, a) => __ror__ (_PropertyNamer n) a) d = Raise e ->
  exists repr, e = Error (String.append "Illegal property specifier " repr).
Proof.
  intros H. apply comprehension_raise in H. destruct H as ([n a] & _ & H).
  now apply named_property_raise in H.
Qed.

Lemma nodup_two (l : list string) :
  1 < List.length (nodup string_dec l) <-> exists x y, In x l /\ In y l /\ x <> y.
Proof.
  split.
  - intros H. destruct (nodup string_dec l) as [|x [|y r]] eqn:E; simpl in H; try lia.
    pose proof (NoDup_nodup string_dec l) as Hnd. rewrite E in Hnd.
    exists x, y. repeat split.
    + apply (nodup_In string_dec). rewrite E. now left.
    + apply (nodup_In string_dec). rewrite E. right. now left.
    + inversion Hnd as [|? ? Hx _]. intros ->. apply Hx. now left.
  - intros (x & y & Hx & Hy & Hxy).
    apply (nodup_In string_dec) in Hx. apply (nodup_In string_dec) in Hy.
    destruct (nodup string_dec l) as [|a [|b r]]; simpl in *.
    + destruct Hx.
    + destruct Hx as [<-|[]]. destruct Hy as [<-|[]]. congruence.
    + lia.
Qed.

Lemma base_groups_In bs g :
  In g (flat_map (fun b => match PyBase._group b with Some g => [g] | None => [] end) bs)
  <-> exists b, In b bs /\ PyBase._group b = Some g.
Proof.
  rewrite in_flat_map. split; intros (b & Hb & H); exists b; split; auto.
  - destruct (PyBase._group b) as [g'|]; simpl in H; [|destruct H].
    destruct H as [<-|[]]. reflexivity.
  - rewrite H. now left.
Qed.

Lemma mixed_groups_iff bs :
  Nat.ltb 1 (List.length (base_groups bs)) = true
  <-> exists b1 b2 g1 g2,
        In b1 bs /\ In b2 bs
        /\ PyBase._group b1 = Some g1 /\ PyBase._group b2 = Some g2 /\ g1 <> g2.
Proof.
  unfold base_groups. rewrite Nat.ltb_lt, nodup_two. split.
  - intros (g1 & g2 & H1 & H2 & Hne).
    apply base_groups_In in H1, H2.
    destruct H1 as (b1 & Hb1 & E1). destruct H2 as (b2 & Hb2 & E2).
    exists b1, b2, g1, g2. auto.
  - intros (b1 & b2 & g1 & g2 & Hb1 & Hb2 & E1 & E2 & Hne).
    exists g1, g2. repeat split; auto; apply base_groups_In; eauto.
Qed.

(** C6 (as stated, refuted): a class named [_Foo] is built although its
    name does not start with an uppercase letter. *)
Lemma get_class_accepts_underscore_name :
  isupper "_" = false
  /\ _get_class (plain_class "_Foo" [base_class "Root" None] None)
     = Ok (Class.mk "_Foo" ["Root"] [] [] "" [] None [] None).
Proof. split; reflexivity. Qed.

(** C6 (amended): building a class fails with the error ["Class name must
    be capitalized, found <name>"] if and only if the first character of the
    name is a lowercase letter.  A name whose first character is neither an
    uppercase nor a lowercase letter, such as an underscore, passes this
    check. *)
Theorem get_class_capitalization_error_iff (c : PyClass.t) :
  _get_class (PyType c)
  = Raise (Error (String.append "Class name must be capitalized, found " (PyClass.__name__ c)))
  <-> exists ch rest, PyClass.__name__ c = String ch rest /\ PyStr.islower ch = true.
Proof.
  unfold _get_class. destruct (PyClass.__name__ c) as [|ch rest] eqn:En; simpl.
  - split; [discriminate|]. intros (? & ? & H & _). discriminate H.
  - destruct (PyStr.islower ch) eqn:Hl.
    + split; auto. intros _. exists ch, rest. auto.
    + split.
      * intros H. exfalso.
        destruct (Nat.ltb 1 (List.length (base_groups (PyClass.__bases__ c)))); [discriminate H|].
        destruct (comprehension _ _) as [props|e] eqn:Ec; simpl in H; [discriminate H|].
        apply properties_raise in Ec. destruct Ec as (repr & ->). discriminate H.
      * intros (ch' & rest' & H & Hl'). injection H as <- <-. congruence.
Qed.

(** C7 (as stated, refuted): a class whose two bases are filed under
    different groups, one under the default group because it has no
    [_group] and one under [g1], is built without error. *)
Lemma get_class_accepts_ungrouped_and_grouped_bases :
  effective_group (base_class "A" None) <> effective_group (base_class "B" (Some "g1"))
  /\ _get_class (plain_class "C" [base_class "A" None; base_class "B" (Some "g1")] (Some "g1"))
     = Ok (Class.mk "C" ["A"; "B"] [] [] "g1" [] None [] None).
Proof. split; [discriminate | reflexivity]. Qed.

(** C7 (amended): building a class fails with the error ["Bases with mixed
    groups for <name>"] if and only if its name does not start with a
    lowercase letter and two of its direct bases both carry a [_group] and
    these differ.  Bases that carry no [_group] take no part in the check. *)
Theorem get_class_mixed_groups_iff (c : PyClass.t) :
  _get_class (PyType c)
  = Raise (Error (String.append "Bases with mixed groups for " (PyClass.__name__ c)))
  <-> (exists ch rest, PyClass.__name__ c = String ch rest /\ PyStr.islower ch = false)
      /\ (exists b1 b2 g1 g2,
             In b1 (PyClass.__bases__ c) /\ In b2 (PyClass.__bases__ c)
             /\ PyBase._group b1 = Some g1 /\ PyBase._group b2 = Some g2 /\ g1 <> g2).
Proof.
  rewrite <- mixed_groups_iff.
  unfold _get_class. destruct (PyClass.__name__ c) as [|ch rest] eqn:En; simpl.
  - split; [discriminate|]. intros [(? & ? & H & _) _]. discriminate H.
  - destruct (PyStr.islower ch) eqn:Hl.
    + split; [discriminate|]. intros [(ch' & rest' & H & Hl') _].
      injection H as <- <-. congruence.
    + destruct (Nat.ltb 1 (List.length (base_groups (PyClass.__bases__ c)))) eqn:Hm.
      * split; auto. intros _. split; auto. exists ch, rest. auto.
      * split; [|intros [_ H]; discriminate H].
        intros H. exfalso.
        destruct (comprehension _ _) as [props|e] eqn:Ec; simpl in H; [discriminate H|].
        apply properties_raise in Ec. destruct Ec as (repr & ->). discriminate H.
Qed.

(** ** The toposort package *)

Lemma ready_In data x : In x (toposort.ready data) <-> In (x, []) data.
Proof.
  unfold toposort.ready, keys. rewrite in_map_iff. split.
  - intros ([k deps] & <- & H). apply filter_In in H. destruct H as [H1 H2].
    destruct deps; [exact H1|discriminate].
  - intros H. exists (x, []). split; auto. apply filter_In. auto.
Qed.

Lemma keys_remove_ordered ordered data :
  keys (toposort.remove_ordered ordered data)
  = filter (fun k => negb (PyStr.mem k ordered)) (keys data).
Proof.
  unfold toposort.remove_ordered, keys.
  induction data as [|[k deps] data IH]; simpl; auto.
  destruct (negb (PyStr.mem k ordered)); simpl; now rewrite IH.
Qed.

Lemma In_remove_ordered ordered data x deps1 :
  In (x, deps1) (toposort.remove_ordered ordered data)
  <-> exists deps,
        In (x, deps) data /\ PyStr.mem x ordered = false
        /\ deps1 = filter (fun e => negb (PyStr.mem e ordered)) deps.
Proof.
  unfold toposort.remove_ordered. rewrite in_map_iff. split.
  - intros ([k deps] & E & H). injection E as <- <-.
    apply filter_In in H. destruct H as [H1 H2]. exists deps.
    repeat split; auto. now destruct (PyStr.mem k ordered).
  - intros (deps & H1 & H2 & ->). exists (x, deps). split; auto.
    apply filter_In. split; auto. now rewrite H2.
Qed.

Lemma NoDup_filter {A} (p : A -> bool) l : NoDup l -> NoDup (filter p l).
Proof.
  induction 1 as [|x l Hx Hnd IH]; simpl; [constructor|].
  destruct (p x); auto. constructor; auto. rewrite filter_In. tauto.
Qed.

Lemma remove_ordered_NoDup ordered data :
  NoDup (keys data) -> NoDup (keys (toposort.remove_ordered ordered data)).
Proof.
  rewrite keys_remove_ordered. apply NoDup_filter.
Qed.

Lemma remove_ordered_closed ordered data :
  closed data -> closed (toposort.remove_ordered ordered data).
Proof.
  intros Hc x deps1 d Hx Hd. apply In_remove_ordered in Hx.
  destruct Hx as (deps & Hin & Hx & ->). apply filter_In in Hd. destruct Hd as [Hd Hm].
  rewrite keys_remove_ordered. apply filter_In. split; auto. eapply Hc; eauto.
Qed.

Lemma length_remove_ordered ordered data x :
  In x ordered -> In x (keys data) ->
  List.length (toposort.remove_ordered ordered data) < List.length data.
Proof.
  intros Ho Hk. unfold toposort.remove_ordered. rewrite length_map.
  induction data as [|[k deps] data IH]; simpl in *; [tauto|].
  destruct (PyStr.mem k ordered) eqn:E; simpl.
  - pose proof (filter_length_le (fun '(item, _) => negb (PyStr.mem item ordered)) data). lia.
  - destruct Hk as [->|Hk].
    + apply mem_In in Ho. congruence.
    + specialize (IH Hk). lia.
Qed.

Lemma rounds_unfold fuel data :
  toposort.rounds (S fuel) data
  = match toposort.ready data with
    | [] => match data with [] => Ok [] | _ => Raise CircularDependencyError end
    | ordered =>
        rest <- toposort.rounds fuel (toposort.remove_ordered ordered data) ;;
        Ok (ordered :: rest)
    end.
Proof. reflexivity. Qed.

Lemma ready_keys data x : In x (toposort.ready data) -> In x (keys data).
Proof.
  intros H. apply ready_In in H. eapply In_keys; eauto.
Qed.

(** The result of the loop does not depend on the fuel once there is more
    of it than entries in the table. *)
Lemma rounds_fuel fuel1 fuel2 data :
  List.length data < fuel1 -> List.length data < fuel2 ->
  toposort.rounds fuel1 data = toposort.rounds fuel2 data.
Proof.
  revert fuel2 data. induction fuel1 as [|fuel1 IH]; intros fuel2 data H1 H2; [lia|].
  destruct fuel2 as [|fuel2]; [lia|].
  rewrite !rounds_unfold.
  destruct (toposort.ready data) as [|x ordered] eqn:E; auto.
  assert (Hlt : List.length (toposort.remove_ordered (x :: ordered) data) < List.length data).
  { apply (length_remove_ordered _ _ x); [now left|]. apply ready_keys. rewrite E. now left. }
  cbv zeta. rewrite (IH fuel2); auto; lia.
Qed.

Lemma rounds_spec fuel data batches :
  NoDup (keys data) -> closed data ->
  toposort.rounds fuel data = Ok batches ->
  (forall x, In x (concat batches) <-> In x (keys data))
  /\ NoDup (concat batches)
  /\ (forall x deps d, In (x, deps) data -> In d deps -> earlier_batch d x batches).
Proof.
  revert data batches. induction fuel as [|fuel IH]; intros data batches Hnd Hc H;
    [discriminate|].
  rewrite rounds_unfold in H.
  destruct (toposort.ready data) as [|o ordered'] eqn:Er.
  - destruct data as [|kv data]; [|discriminate]. injection H as <-.
    simpl. repeat split; auto; try tauto; try constructor.
  - cbv zeta in H. set (ordered := o :: ordered') in *.
    destruct (toposort.rounds fuel (toposort.remove_ordered ordered data)) as [rest|e] eqn:E;
      simpl in H; [|discriminate].
    injection H as <-.
    destruct (IH _ _ (remove_ordered_NoDup ordered data Hnd)
                 (remove_ordered_closed ordered data Hc) E) as (Hin & Hnd' & Hprec).
    assert (Hrest : forall x, In x (concat rest) <-> In x (keys data) /\ ~ In x ordered).
    { intros x. rewrite Hin, keys_remove_ordered, filter_In.
      rewrite negb_true_iff, mem_false. tauto. }
    assert (Hord : forall x, In x ordered -> In x (keys data)).
    { intros x Hx. apply ready_keys. now rewrite Er. }
    split; [|split].
    + intros x. change (concat (ordered :: rest)) with (ordered ++ concat rest).
      rewrite in_app_iff, Hrest.
      split; [intros [H|[H _]]; auto|].
      intros H. destruct (in_dec string_dec x ordered); auto.
    + change (concat (ordered :: rest)) with (ordered ++ concat rest).
      apply NoDup_app; auto.
      * rewrite <- Er. unfold toposort.ready, keys.
        clear - Hnd. induction data as [|[k deps] data IH]; simpl; [constructor|].
        inversion Hnd as [|? ? Hk Hnd']; subst.
        destruct deps; simpl; auto. constructor; auto.
        intros Hin. apply Hk.
        apply in_map_iff in Hin. destruct Hin as ([k' d'] & <- & Hin).
        apply filter_In in Hin. destruct Hin as [Hin _]. eapply In_keys; eauto.
      * intros x Hx Hx'. apply Hrest in Hx'. tauto.
    + intros x deps d Hx Hd.
      assert (Hxo : ~ In x ordered).
      { rewrite <- Er. intros Hr. apply ready_In in Hr.
        apply (In_get _ _ _ Hnd) in Hr, Hx. rewrite Hr in Hx. injection Hx as <-.
        destruct Hd. }
      destruct (in_dec string_dec d ordered) as [Hdo|Hdo].
      * exists [ordered], rest.
        change (concat [ordered]) with (ordered ++ []). rewrite app_nil_r.
        repeat split; auto.
        apply Hrest. split; auto. eapply In_keys; eauto.
      * assert (Hx1 : In (x, filter (fun e => negb (PyStr.mem e ordered)) deps)
                         (toposort.remove_ordered ordered data)).
        { apply In_remove_ordered. exists deps. repeat split; auto. now apply mem_false. }
        assert (Hd1 : In d (filter (fun e => negb (PyStr.mem e ordered)) deps)).
        { apply filter_In. split; auto. rewrite negb_true_iff. now apply mem_false. }
        destruct (Hprec _ _ _ Hx1 Hd1) as (b1 & b2 & -> & H1 & H2).
        exists (ordered :: b1), b2.
        change (concat (ordered :: b1)) with (ordered ++ concat b1).
        repeat split; auto. apply in_or_app. now right.
Qed.

Lemma keys_discard_self data : keys (toposort.discard_self data) = keys data.
Proof.
  unfold toposort.discard_self, keys. rewrite map_map.
  apply map_ext. now intros [k deps].
Qed.

Lemma In_discard_self data x deps' :
  In (x, deps') (toposort.discard_self data)
  <-> exists deps, In (x, deps) data /\ deps' = filter (fun e => negb (String.eqb e x)) deps.
Proof.
  unfold toposort.discard_self. rewrite in_map_iff. split.
  - intros ([k deps] & E & H). injection E as <- <-. eauto.
  - intros (deps & H & ->). exists (x, deps). auto.
Qed.

Lemma extra_items_In data x :
  In x (toposort.extra_items_in_deps data)
  <-> (exists deps, In deps (values data) /\ In x deps) /\ ~ In x (keys data).
Proof.
  unfold toposort.extra_items_in_deps.
  rewrite (nodup_In string_dec), filter_In, in_concat, negb_true_iff, mem_false.
  tauto.
Qed.

Lemma keys_extra_entries (items : list string) :
  keys (map (fun item => (item, @nil string)) items) = items.
Proof.
  unfold keys. rewrite map_map. simpl. apply map_id.
Qed.

Lemma keys_prepared data :
  keys (prepared data)
  = keys data ++ toposort.extra_items_in_deps (toposort.discard_self data).
Proof.
  unfold prepared, keys. rewrite map_app. fold (keys (toposort.discard_self data)).
  rewrite keys_discard_self. f_equal. apply keys_extra_entries.
Qed.

Lemma prepared_NoDup data : NoDup (keys data) -> NoDup (keys (prepared data)).
Proof.
  intros H. rewrite keys_prepared. apply NoDup_app; auto.
  - apply NoDup_nodup.
  - intros x Hx Hx'. apply extra_items_In in Hx'. rewrite keys_discard_self in Hx'. tauto.
Qed.

Lemma In_prepared data x deps :
  In (x, deps) (prepared data)
  <-> In (x, deps) (toposort.discard_self data)
      \/ (deps = [] /\ In x (toposort.extra_items_in_deps (toposort.discard_self data))).
Proof.
  unfold prepared. rewrite in_app_iff, in_map_iff. split.
  - intros [H|(i & E & H)]; auto. injection E as <- <-. auto.
  - intros [H|[-> H]]; auto. right. eauto.
Qed.

Lemma prepared_closed data : closed (prepared data).
Proof.
  intros x deps d Hx Hd. rewrite keys_prepared, in_app_iff.
  apply In_prepared in Hx. destruct Hx as [Hx|[-> _]]; [|destruct Hd].
  destruct (in_dec string_dec d (keys data)) as [Hk|Hk]; auto.
  right. apply extra_items_In. rewrite keys_discard_self. split; auto.
  exists deps. split; auto. unfold values. apply in_map_iff. exists (x, deps). auto.
Qed.

Lemma prepared_dependency data x deps d :
  In (x, deps) data -> In d deps -> d <> x ->
  exists deps', In (x, deps') (prepared data) /\ In d deps'.
Proof.
  intros Hx Hd Hne. exists (filter (fun e => negb (String.eqb e x)) deps). split.
  - apply In_prepared. left. apply In_discard_self. eauto.
  - apply filter_In. split; auto. rewrite negb_true_iff. now apply String.eqb_neq.
Qed.

Lemma In_keys_prepared data x :
  In x (keys (prepared data))
  <-> In x (keys data) \/ exists deps, In deps (values data) /\ In x deps.
Proof.
  rewrite keys_prepared, in_app_iff, extra_items_In, keys_discard_self. split.
  - intros [H|[(deps' & H1 & H2) _]]; auto. right.
    unfold values in H1. apply in_map_iff in H1. destruct H1 as ([k deps0] & <- & H1).
    apply In_discard_self in H1. destruct H1 as (deps & H1 & E). simpl in *. subst.
    apply filter_In in H2. exists deps. split; [|tauto].
    unfold values. apply in_map_iff. exists (k, deps). auto.
  - intros [H|(deps & H1 & H2)]; auto.
    destruct (in_dec string_dec x (keys data)) as [Hk|Hk]; auto. right. split; auto.
    unfold values in H1. apply in_map_iff in H1. destruct H1 as ([k deps0] & <- & H1).
    simpl in H2. exists (filter (fun e => negb (String.eqb e k)) deps0). split.
    + unfold values. apply in_map_iff.
      exists (k, filter (fun e => negb (String.eqb e k)) deps0). split; auto.
      apply In_discard_self. eauto.
    + apply filter_In. split; auto. rewrite negb_true_iff. apply String.eqb_neq.
      intros ->. apply Hk. eapply In_keys; eauto.
Qed.

Lemma toposort_unfold kv data :
  toposort.toposort (kv :: data)
  = toposort.rounds (S (List.length (prepared (kv :: data)))) (prepared (kv :: data)).
Proof. reflexivity. Qed.

Lemma toposort_spec data batches :
  NoDup (keys data) ->
  toposort.toposort data = Ok batches ->
  (forall x, In x (concat batches)
             <-> In x (keys data) \/ exists deps, In deps (values data) /\ In x deps)
  /\ NoDup (concat batches)
  /\ (forall x deps d, In (x, deps) data -> In d deps -> d <> x -> earlier_batch d x batches).
Proof.
  intros Hnd H. destruct data as [|kv data].
  - injection H as <-. simpl. repeat split; try tauto; try constructor.
    intros [[]|(deps & [] & _)].
  - rewrite toposort_unfold in H.
    apply rounds_spec in H; auto using prepared_NoDup, prepared_closed.
    destruct H as (Hin & Hnd' & Hprec). split; [|split]; auto.
    + intros x. rewrite Hin. apply In_keys_prepared.
    + intros x deps d Hx Hd Hne.
      destruct (prepared_dependency _ _ _ _ Hx Hd Hne) as (deps' & Hx' & Hd'). eauto.
Qed.

Lemma concat_sorted_In batches x :
  In x (concat (map PyStr.sorted_set batches)) <-> In x (concat batches).
Proof.
  rewrite !in_concat. split.
  - intros (l & Hl & Hx). apply in_map_iff in Hl. destruct Hl as (b & <- & Hb).
    rewrite sorted_set_In in Hx. exists b. auto.
  - intros (b & Hb & Hx). exists (PyStr.sorted_set b). split.
    + apply in_map_iff. exists b. auto.
    + now apply sorted_set_In.
Qed.

Lemma concat_sorted_NoDup batches :
  NoDup (concat batches) -> NoDup (concat (map PyStr.sorted_set batches)).
Proof.
  induction batches as [|b batches IH]; simpl; auto.
  intros H. apply NoDup_app.
  - apply sorted_set_NoDup.
  - apply IH. eapply NoDup_app_remove_l; eauto.
  - intros x Hx Hx'. rewrite sorted_set_In in Hx. rewrite concat_sorted_In in Hx'.
    eapply NoDup_app_disjoint; eauto.
Qed.

Lemma earlier_batch_precedes d x batches :
  earlier_batch d x batches -> precedes d x (concat (map PyStr.sorted_set batches)).
Proof.
  intros (b1 & b2 & -> & H1 & H2). rewrite map_app, concat_app.
  apply precedes_app_cross; now apply concat_sorted_In.
Qed.

Lemma toposort_flatten_spec data out :
  NoDup (keys data) ->
  toposort.toposort_flatten data = Ok out ->
  (forall x, In x out <-> In x (keys data) \/ exists deps, In deps (values data) /\ In x deps)
  /\ NoDup out
  /\ (forall x deps d, In (x, deps) data -> In d deps -> d <> x -> precedes d x out).
Proof.
  unfold toposort.toposort_flatten. intros Hnd H.
  bind_ok H as batches eqn:E.
  injection H as <-. apply toposort_spec in E; auto.
  destruct E as (Hin & Hnd' & Hprec). split; [|split].
  - intros x. now rewrite concat_sorted_In.
  - now apply concat_sorted_NoDup.
  - intros x deps d Hx Hd Hne. apply earlier_batch_precedes. eauto.
Qed.

(** ** The sorter: grouping the class names *)

Lemma get_setdefault_append {A} (d : dict (list A)) k x g :
  get (setdefault_append d k x) g
  = if String.eqb k g
    then Some (match get d k with Some l => l ++ [x] | None => [x] end)
    else get d g.
Proof.
  induction d as [|[k' l] d IH]; simpl.
  - reflexivity.
  - destruct (String.eqb_spec k' k) as [->|Hne]; simpl.
    + destruct (String.eqb_spec k g); auto.
    + rewrite IH. destruct (String.eqb_spec k' g) as [->|Hne'].
      * destruct (String.eqb_spec k g); congruence.
      * reflexivity.
Qed.

Lemma keys_setdefault_append {A} (d : dict (list A)) k x :
  keys (setdefault_append d k x) = if PyStr.mem k (keys d) then keys d else keys d ++ [k].
Proof.
  induction d as [|[k' l] d IH]; simpl; auto.
  destruct (String.eqb_spec k' k) as [->|Hne]; simpl.
  - now rewrite String.eqb_refl.
  - rewrite IH. destruct (String.eqb_spec k k'); [congruence|]. simpl.
    now destruct (PyStr.mem k (keys d)).
Qed.

Lemma setdefault_append_NoDup {A} (d : dict (list A)) k x :
  NoDup (keys d) -> NoDup (keys (setdefault_append d k x)).
Proof.
  intros H. rewrite keys_setdefault_append.
  destruct (PyStr.mem k (keys d)) eqn:E; auto.
  apply mem_false in E. apply NoDup_app; auto.
  - repeat constructor. intros [].
  - intros y Hy [<-|[]]. contradiction.
Qed.

Lemma group_names_fold classes :
  group_names classes = fold_left group_step classes [].
Proof. reflexivity. Qed.

Lemma fold_group_step_NoDup classes acc :
  NoDup (keys acc) -> NoDup (keys (fold_left group_step classes acc)).
Proof.
  revert acc. induction classes as [|[k c] classes IH]; intros acc H; simpl; auto.
  apply IH. now apply setdefault_append_NoDup.
Qed.

Lemma group_names_NoDup classes : NoDup (keys (group_names classes)).
Proof.
  rewrite group_names_fold. apply fold_group_step_NoDup. constructor.
Qed.

Lemma fold_group_step_get classes acc g :
  get (fold_left group_step classes acc) g
  = match names_of_group g classes with
    | [] => get acc g
    | l => Some (match get acc g with Some l0 => l0 ++ l | None => l end)
    end.
Proof.
  revert acc. induction classes as [|[k c] classes IH]; intros acc; simpl; auto.
  rewrite IH, get_setdefault_append. unfold names_of_group. simpl.
  destruct (String.eqb_spec (Class.group c) g) as [->|Hne]; simpl.
  - destruct (keys (filter _ classes)) as [|n l] eqn:E.
    + destruct (get acc g); reflexivity.
    + destruct (get acc g); simpl; auto. now rewrite <- app_assoc.
  - reflexivity.
Qed.

Lemma group_names_get classes g :
  get (group_names classes) g
  = match names_of_group g classes with
    | [] => None
    | l => Some l
    end.
Proof.
  rewrite group_names_fold, fold_group_step_get. simpl.
  now destruct (names_of_group g classes).
Qed.

Lemma names_of_group_In g classes n :
  In n (names_of_group g classes) <-> exists c, In (n, c) classes /\ Class.group c = g.
Proof.
  unfold names_of_group, keys. rewrite in_map_iff. split.
  - intros ([k c] & <- & H). apply filter_In in H. destruct H as [H1 H2].
    apply String.eqb_eq in H2. eauto.
  - intros (c & H1 & H2). exists (n, c). split; auto. apply filter_In. split; auto.
    now apply String.eqb_eq.
Qed.

Lemma NoDup_keys_filter {V} (p : string * V -> bool) (d : dict V) :
  NoDup (keys d) -> NoDup (keys (filter p d)).
Proof.
  induction d as [|[k v] d IH]; simpl; auto.
  intros H. inversion H as [|? ? Hk Hnd]; subst.
  destruct (p (k, v)); simpl; auto. constructor; auto.
  intros Hin. apply Hk. apply keys_In in Hin. destruct Hin as (v' & Hin).
  apply filter_In in Hin. eapply In_keys. apply Hin.
Qed.

Lemma names_of_group_NoDup g classes :
  NoDup (keys classes) -> NoDup (names_of_group g classes).
Proof.
  apply NoDup_keys_filter.
Qed.

(** ** The sorter: sorting the groups *)

Lemma insert_item_perm {V} (kv : string * V) l : Permutation (kv :: l) (insert_item kv l).
Proof.
  induction l as [|y l IH]; simpl; auto.
  destruct (String.leb (fst kv) (fst y)); auto.
  rewrite perm_swap. now constructor.
Qed.

Lemma sorted_items_perm {V} (d : dict V) : Permutation d (sorted_items d).
Proof.
  induction d as [|kv d IH]; simpl; auto.
  rewrite <- insert_item_perm. now constructor.
Qed.

Lemma insert_item_ascending {V} (kv : string * V) l :
  ascending (keys l) -> ascending (keys (insert_item kv l)).
Proof.
  unfold ascending. induction l as [|y l IH]; intros Hs; simpl.
  - repeat constructor.
  - simpl in Hs. inversion Hs as [|? ? Hl Hy]; subst.
    destruct (String.leb (fst kv) (fst y)) eqn:E; simpl.
    + constructor; auto. constructor; auto.
      eapply Forall_impl; [|exact Hy]. intros z Hz. eauto with order.
    + constructor; auto.
      apply leb_false_ltb, ltb_leb in E.
      assert (Hp : Permutation (fst kv :: keys l) (keys (insert_item kv l))).
      { unfold keys. change (fst kv :: map fst l) with (map fst (kv :: l)).
        apply Permutation_map. apply insert_item_perm. }
      rewrite <- Hp. constructor; auto.
Qed.

Lemma sorted_items_ascending {V} (d : dict V) : ascending (keys (sorted_items d)).
Proof.
  induction d as [|kv d IH]; simpl.
  - constructor.
  - now apply insert_item_ascending.
Qed.

Lemma sorted_items_NoDup {V} (d : dict V) : NoDup (keys d) -> NoDup (keys (sorted_items d)).
Proof.
  intros H. eapply Permutation_NoDup; [|exact H].
  unfold keys. apply Permutation_map. apply sorted_items_perm.
Qed.

Lemma sorted_groups_In classes g names :
  In (g, names) (sorted_items (group_names classes))
  <-> names = names_of_group g classes /\ names <> [].
Proof.
  assert (Hnd := group_names_NoDup classes).
  split.
  - intros H. eapply Permutation_in in H; [|symmetry; apply sorted_items_perm].
    apply In_get in H; auto. rewrite group_names_get in H.
    destruct (names_of_group g classes); [discriminate|]. injection H as <-.
    split; auto. discriminate.
  - intros [-> Hne]. eapply Permutation_in; [apply sorted_items_perm|].
    apply get_Some_In. rewrite group_names_get.
    destruct (names_of_group g classes); congruence.
Qed.

(** ** The sorter: the inheritance table of a group *)

Lemma getitem_Ok {V} (d : dict V) k v : getitem d k = Ok v <-> get d k = Some v.
Proof.
  unfold getitem. destruct (get d k); split; congruence.
Qed.

Lemma inheritance_fold_spec classes names acc inh :
  NoDup (keys acc ++ names) ->
  for_fold (fun inh name =>
              cls <- getitem classes name ;; Ok (setitem inh name (Class.bases cls)))
    names acc = Ok inh ->
  keys inh = keys acc ++ names
  /\ (forall n deps,
         In (n, deps) inh
         <-> In (n, deps) acc
             \/ (In n names /\ exists c, get classes n = Some c /\ deps = Class.bases c)).
Proof.
  revert acc. induction names as [|name names IH]; intros acc Hnd H.
  - simpl in H. injection H as <-. rewrite app_nil_r. split; auto.
    intros n deps. simpl. tauto.
  - rewrite for_fold_cons in H.
    bind_ok H as c eqn:Eg.
    apply getitem_Ok in Eg.
    assert (Hnew : ~ In name (keys acc)).
    { intros Hin. eapply NoDup_app_disjoint; eauto. now left. }
    rewrite setitem_new in H; auto.
    apply IH in H.
    + destruct H as [Hk Hin]. split.
      * rewrite Hk. unfold keys. rewrite map_app, <- app_assoc. reflexivity.
      * intros n deps. rewrite Hin, in_app_iff. simpl. split.
        -- intros [[H|[H|[]]]|[H1 H2]]; auto.
           injection H as <- <-. right. split; auto. exists c. auto.
        -- intros [H|[[<-|H1] H2]]; auto.
           destruct H2 as (c' & Hc' & ->). rewrite Eg in Hc'. injection Hc' as <-.
           left. right. now left.
    + unfold keys. rewrite map_app, <- app_assoc. exact Hnd.
Qed.

Lemma inheritance_of_spec classes names inh :
  NoDup names ->
  inheritance_of classes names = Ok inh ->
  keys inh = names
  /\ (forall n deps,
         In (n, deps) inh
         <-> In n names /\ exists c, get classes n = Some c /\ deps = Class.bases c).
Proof.
  intros Hnd H. apply inheritance_fold_spec in H; auto.
  destruct H as [Hk Hin]. split; auto. intros n deps. rewrite Hin. simpl. tauto.
Qed.

Lemma inheritance_fold_total classes names acc :
  (forall n, In n names -> In n (keys classes)) ->
  exists inh,
    for_fold (fun inh name =>
                cls <- getitem classes name ;; Ok (setitem inh name (Class.bases cls)))
      names acc = Ok inh.
Proof.
  revert acc. induction names as [|name names IH]; intros acc H.
  - simpl. eauto.
  - rewrite for_fold_cons.
    destruct (get_In_keys classes name) as (c & Hc); [apply H; now left|].
    apply getitem_Ok in Hc. rewrite Hc. simpl. apply IH. intros n Hn. apply H. now right.
Qed.

(** ** The sorter: storing the sorted names *)

Lemma agrees_app classes r1 r2 : agrees classes r1 -> agrees classes r2 -> agrees classes (r1 ++ r2).
Proof.
  intros H1 H2 k v Hin. apply in_app_or in Hin. destruct Hin; auto.
Qed.

Lemma filter_ext_on {A} (p q : A -> bool) l :
  (forall x, In x l -> p x = q x) -> filter p l = filter q l.
Proof.
  induction l as [|x l IH]; simpl; auto. intros H.
  rewrite (H x), IH; auto.
Qed.

Lemma store_all_spec classes names ret ret' :
  agrees classes ret -> NoDup (keys ret) -> NoDup names ->
  store_all classes names ret = Ok ret' ->
  exists added,
    ret' = ret ++ added
    /\ keys added = filter (fun n => negb (PyStr.mem n (keys ret))) names
    /\ agrees classes added.
Proof.
  unfold store_all. revert ret. induction names as [|name names IH]; intros ret Ha Hr Hnd H.
  - simpl in H. injection H as <-. exists []. rewrite app_nil_r. repeat split; auto.
    intros k v [].
  - rewrite for_fold_cons in H.
    bind_ok H as c eqn:Eg.
    apply getitem_Ok in Eg. inversion Hnd as [|? ? Hname Hnd']; subst.
    destruct (in_dec string_dec name (keys ret)) as [Hin|Hin].
    + assert (Hsame : get ret name = Some c).
      { destruct (get_In_keys _ _ Hin) as (v & Hv). rewrite Hv.
        apply get_Some_In, Ha in Hv. congruence. }
      rewrite setitem_same in H; auto.
      destruct (IH _ Ha Hr Hnd' H) as (added & -> & Hk & Hag).
      exists added. repeat split; auto. simpl.
      apply mem_In in Hin. now rewrite Hin.
    + rewrite setitem_new in H; auto.
      assert (Ha1 : agrees classes (ret ++ [(name, c)])).
      { apply agrees_app; auto. intros k v [E|[]]. now injection E as <- <-. }
      assert (Hr1 : NoDup (keys (ret ++ [(name, c)]))).
      { rewrite <- setitem_new; auto. now apply setitem_NoDup. }
      destruct (IH _ Ha1 Hr1 Hnd' H) as (added & -> & Hk & Hag).
      exists ((name, c) :: added). rewrite <- app_assoc. repeat split; auto.
      * simpl. apply mem_false in Hin. rewrite Hin. simpl. f_equal. rewrite Hk.
        apply filter_ext_on. intros x Hx. f_equal.
        unfold keys. rewrite map_app. simpl.
        unfold PyStr.mem. rewrite existsb_app. simpl.
        destruct (String.eqb_spec x name) as [->|Hne]; [contradiction|].
        now rewrite !orb_false_r.
      * intros k v [E|Hkv]; auto. now injection E as <- <-.
Qed.


Lemma store_all_keys classes names ret ret' :
  store_all classes names ret = Ok ret' -> forall n, In n names -> In n (keys classes).
Proof.
  unfold store_all. revert ret. induction names as [|name names IH]; intros ret H n Hn.
  - destruct Hn.
  - rewrite for_fold_cons in H.
    bind_ok H as c eqn:Eg.
    destruct Hn as [<-|Hn]; eauto.
    apply getitem_Ok in Eg. eapply In_keys, get_Some_In; eauto.
Qed.

(** ** The sorter: one group *)

Lemma sorter_unfold classes :
  _toposort_classes_by_group classes
  = for_fold (sorter_step classes) (sorted_items (group_names classes)) [].
Proof. reflexivity. Qed.

Lemma keys_app {V} (d1 d2 : dict V) : keys (d1 ++ d2) = keys d1 ++ keys d2.
Proof.
  unfold keys. apply map_app.
Qed.

Lemma sorter_step_spec classes ret g names ret' :
  agrees classes ret -> NoDup (keys ret) -> NoDup names ->
  sorter_step classes ret (g, names) = Ok ret' ->
  exists inh flat added,
    inheritance_of classes names = Ok inh
    /\ toposort.toposort_flatten inh = Ok flat
    /\ ret' = ret ++ added
    /\ keys added = filter (fun n => negb (PyStr.mem n (keys ret))) flat
    /\ agrees classes added
    /\ NoDup flat
    /\ (forall n, In n names -> In n flat)
    /\ (forall n, In n flat -> In n (keys classes)).
Proof.
  intros Ha Hr Hn H. unfold sorter_step in H.
  bind_ok H as inh eqn:Ei.
  bind_ok H as flat eqn:Ef.
  destruct (inheritance_of_spec _ _ _ Hn Ei) as [Hk Hin].
  assert (Hnd : NoDup (keys inh)) by now rewrite Hk.
  destruct (toposort_flatten_spec _ _ Hnd Ef) as (Hfin & Hfnd & Hprec).
  destruct (store_all_spec _ _ _ _ Ha Hr Hfnd H) as (added & -> & Hadd & Hag).
  exists inh, flat, added. repeat split; auto.
  - intros n Hin'. apply Hfin. left. now rewrite Hk.
  - eapply store_all_keys; eauto.
Qed.

Lemma sorter_step_NoDup (ret added : dict Class.t) :
  NoDup (keys ret) -> forall flat, NoDup flat ->
  keys added = filter (fun n => negb (PyStr.mem n (keys ret))) flat ->
  NoDup (keys (ret ++ added)).
Proof.
  intros Hr flat Hf Hk. rewrite keys_app. apply NoDup_app; auto.
  - rewrite Hk. now apply NoDup_filter.
  - intros x Hx Hx'. rewrite Hk in Hx'. apply filter_In in Hx'.
    destruct Hx' as [_ Hx']. rewrite negb_true_iff in Hx'. apply mem_false in Hx'. auto.
Qed.

(** ** The sorter only reorders *)

Lemma sorter_loop_reorders classes G ret0 ret :
  (forall g names, In (g, names) G -> NoDup names) ->
  agrees classes ret0 -> NoDup (keys ret0) ->
  for_fold (sorter_step classes) G ret0 = Ok ret ->
  agrees classes ret /\ NoDup (keys ret)
  /\ (forall k, In k (keys ret0) -> In k (keys ret))
  /\ (forall g names n, In (g, names) G -> In n names -> In n (keys ret)).
Proof.
  revert ret0. induction G as [|[g names] G IH]; intros ret0 HG Ha Hr H.
  - simpl in H. injection H as <-. repeat split; auto. intros g names n [].
  - rewrite for_fold_cons in H.
    destruct (sorter_step classes ret0 (g, names)) as [ret1|e] eqn:Es; simpl in H;
      [|discriminate].
    assert (Hn : NoDup names) by (apply (HG g); now left).
    destruct (sorter_step_spec _ _ _ _ _ Ha Hr Hn Es)
      as (inh & flat & added & _ & _ & -> & Hk & Hag & Hfnd & Hnames & _).
    assert (Hr1 : NoDup (keys (ret0 ++ added))) by (eapply sorter_step_NoDup; eauto).
    assert (Ha1 : agrees classes (ret0 ++ added)) by now apply agrees_app.
    destruct (IH _ (fun g' n' Hin => HG g' n' (or_intror Hin)) Ha1 Hr1 H)
      as (Hag' & Hnd' & Hold & Hnew).
    repeat split; auto.
    + intros k Hk0. apply Hold. rewrite keys_app. apply in_or_app. now left.
    + intros g' names' n [E|Hin] Hn'; [|eauto].
      injection E as <- <-. apply Hold. rewrite keys_app, in_app_iff.
      destruct (in_dec string_dec n (keys ret0)) as [H0|H0]; auto. right.
      rewrite Hk. apply filter_In. split; auto.
      rewrite negb_true_iff. now apply mem_false.
Qed.

Lemma NoDup_keys_NoDup {V} (d : dict V) : NoDup (keys d) -> NoDup d.
Proof.
  apply NoDup_map_inv.
Qed.

Lemma sorter_reorders_when_ok classes ret :
  NoDup (keys classes) ->
  _toposort_classes_by_group classes = Ok ret ->
  Permutation ret classes /\ NoDup (keys ret) /\ (forall k, get ret k = get classes k).
Proof.
  intros Hnd H. rewrite sorter_unfold in H.
  apply sorter_loop_reorders in H.
  - destruct H as (Hag & Hr & _ & Hcov).
    assert (Hsub : forall k v, In (k, v) ret <-> In (k, v) classes).
    { intros k v. split.
      - intros Hin. apply get_Some_In. now apply Hag.
      - intros Hin.
        assert (Hk : In k (keys ret)).
        { apply (Hcov (Class.group v) (names_of_group (Class.group v) classes)).
          - apply sorted_groups_In. split; auto.
            assert (In k (names_of_group (Class.group v) classes))
              by (apply names_of_group_In; eauto).
            intros E. rewrite E in H. destruct H.
          - apply names_of_group_In. eauto. }
        apply keys_In in Hk. destruct Hk as (v' & Hv').
        apply Hag in Hv' as Hg. apply (In_get _ _ _ Hnd) in Hin. congruence. }
    split; [|split]; auto.
    + apply NoDup_Permutation; auto using NoDup_keys_NoDup.
      intros [k v]. apply Hsub.
    + intros k. destruct (get ret k) as [v|] eqn:E.
      * symmetry. apply Hag. now apply get_Some_In.
      * destruct (get classes k) as [v|] eqn:E'; auto.
        apply get_Some_In, Hsub, In_get in E'; auto. congruence.
  - intros g names Hin. apply sorted_groups_In in Hin. destruct Hin as [-> _].
    now apply names_of_group_NoDup.
  - intros k v [].
  - constructor.
Qed.

(** Tables along whose dependencies a rank decreases never block. *)
Section ranked_tables.

Variable rank : string -> nat.

Lemma min_rank_entry (data : toposort.table) :
  data <> [] ->
  exists x deps,
    In (x, deps) data /\ forall y deps', In (y, deps') data -> rank x <= rank y.
Proof.
  induction data as [|[k dk] data IH]; [congruence|]. intros _.
  destruct data as [|kv data'].
  - exists k, dk. split; [now left|]. intros y deps' [E|[]]. injection E as <- <-. lia.
  - destruct IH as (x & deps & Hin & Hmin); [discriminate|].
    destruct (le_lt_dec (rank k) (rank x)) as [Hle|Hlt].
    + exists k, dk. split; [now left|]. intros y deps' [E|Hy].
      * injection E as <- <-. lia.
      * specialize (Hmin _ _ Hy). lia.
    + exists x, deps. split; [now right|]. intros y deps' [E|Hy].
      * injection E as <- <-. lia.
      * eauto.
Qed.

Lemma ready_nonempty data :
  data <> [] -> closed data -> table_ranked rank data -> toposort.ready data <> [].
Proof.
  intros Hne Hc Hr. destruct (min_rank_entry data Hne) as (x & deps & Hin & Hmin).
  destruct deps as [|d deps].
  - apply ready_In in Hin. intros E. rewrite E in Hin. destruct Hin.
  - exfalso. assert (Hd : In d (d :: deps)) by now left.
    pose proof (Hr _ _ _ Hin Hd) as Hlt.
    apply (Hc _ _ _ Hin), keys_In in Hd. destruct Hd as (deps' & Hd).
    specialize (Hmin _ _ Hd). lia.
Qed.

Lemma remove_ordered_ranked ordered data :
  table_ranked rank data -> table_ranked rank (toposort.remove_ordered ordered data).
Proof.
  intros Hr x deps1 d Hx Hd. apply In_remove_ordered in Hx.
  destruct Hx as (deps & Hin & _ & ->). apply filter_In in Hd. destruct Hd as [Hd _].
  eapply Hr; eauto.
Qed.

Lemma rounds_total fuel data :
  closed data -> table_ranked rank data -> List.length data < fuel ->
  exists batches, toposort.rounds fuel data = Ok batches.
Proof.
  revert data. induction fuel as [|fuel IH]; intros data Hc Hr Hlen; [lia|].
  rewrite rounds_unfold.
  destruct (toposort.ready data) as [|o ordered] eqn:E.
  - destruct data as [|kv data]; [eauto|].
    exfalso. eapply ready_nonempty; eauto. discriminate.
  - cbv zeta.
    assert (Hlt : List.length (toposort.remove_ordered (o :: ordered) data) < List.length data).
    { apply (length_remove_ordered _ _ o); [now left|]. apply ready_keys. rewrite E. now left. }
    destruct (IH (toposort.remove_ordered (o :: ordered) data)) as (rest & Hrest).
    + now apply remove_ordered_closed.
    + now apply remove_ordered_ranked.
    + lia.
    + rewrite Hrest. simpl. eauto.
Qed.

End ranked_tables.

Lemma prepared_ranked rank data :
  (forall x deps d, In (x, deps) data -> In d deps -> d <> x -> In d (keys data) ->
                    rank d < rank x) ->
  table_ranked (fun x => if PyStr.mem x (keys data) then S (rank x) else 0) (prepared data).
Proof.
  intros H x deps' d Hx Hd. apply In_prepared in Hx.
  destruct Hx as [Hx|[-> _]]; [|destruct Hd].
  apply In_discard_self in Hx. destruct Hx as (deps & Hx & ->).
  apply filter_In in Hd. destruct Hd as [Hd Hne].
  rewrite negb_true_iff in Hne. apply String.eqb_neq in Hne.
  assert (Hxk : PyStr.mem x (keys data) = true) by (apply mem_In; eapply In_keys; eauto).
  rewrite Hxk. destruct (PyStr.mem d (keys data)) eqn:Hdk; [|lia].
  apply mem_In in Hdk. specialize (H _ _ _ Hx Hd Hne Hdk). lia.
Qed.

Lemma toposort_flatten_total rank data :
  (forall x deps d, In (x, deps) data -> In d deps -> d <> x -> In d (keys data) ->
                    rank d < rank x) ->
  exists out, toposort.toposort_flatten data = Ok out.
Proof.
  intros H. unfold toposort.toposort_flatten.
  destruct data as [|kv data].
  - simpl. eauto.
  - rewrite toposort_unfold.
    destruct (rounds_total _ (S (List.length (prepared (kv :: data)))) (prepared (kv :: data))
                (prepared_closed _) (prepared_ranked rank _ H)) as (batches & Hb); [lia|].
    rewrite Hb. simpl. eauto.
Qed.

Lemma bases_are_keys_spec classes k c b :
  bases_are_keys classes = true -> In (k, c) classes -> In b (Class.bases c) ->
  In b (keys classes).
Proof.
  unfold bases_are_keys. rewrite forallb_forall. intros H Hin Hb.
  specialize (H _ Hin). simpl in H. rewrite forallb_forall in H.
  apply mem_In. auto.
Qed.

Lemma ranked_spec rank classes k c b cb :
  ranked rank classes = true ->
  In (k, c) classes -> In b (Class.bases c) -> b <> k ->
  get classes b = Some cb -> Class.group cb = Class.group c ->
  rank b < rank k.
Proof.
  unfold ranked. rewrite forallb_forall. intros H Hin Hb Hne Hg Hgrp.
  specialize (H _ Hin). simpl in H. rewrite forallb_forall in H.
  specialize (H _ Hb). rewrite Hg, Hgrp, String.eqb_refl in H. simpl in H.
  apply String.eqb_neq in Hne. rewrite Hne in H. simpl in H. now apply Nat.ltb_lt.
Qed.




(** ** The order of the result *)

Lemma base_groups_not_later_spec classes k c b cb :
  base_groups_not_later classes = true ->
  In (k, c) classes -> In b (Class.bases c) -> get classes b = Some cb ->
  String.leb (Class.group cb) (Class.group c) = true.
Proof.
  unfold base_groups_not_later. rewrite forallb_forall. intros H Hin Hb Hg.
  specialize (H _ Hin). simpl in H. rewrite forallb_forall in H.
  specialize (H _ Hb). now rewrite Hg in H.
Qed.

Lemma names_of_group_group classes g k c :
  NoDup (keys classes) -> In k (names_of_group g classes) -> get classes k = Some c ->
  Class.group c = g.
Proof.
  intros Hnd Hk Hc. apply names_of_group_In in Hk. destruct Hk as (c' & Hc' & Hg).
  apply (In_get _ _ _ Hnd) in Hc'. congruence.
Qed.

Lemma ascending_app l1 l2 :
  ascending l1 -> ascending l2 ->
  (forall a b, In a l1 -> In b l2 -> String.leb a b = true) ->
  ascending (l1 ++ l2).
Proof.
  unfold ascending. induction l1 as [|x l1 IH]; simpl; auto.
  intros H1 H2 H. inversion H1 as [|? ? Hs Hx]; subst.
  constructor.
  - apply IH; auto.
  - apply Forall_app. split; auto. apply Forall_forall. intros b Hb. apply H; auto.
Qed.

Lemma ascending_constant g l : (forall x, In x l -> x = g) -> ascending l.
Proof.
  unfold ascending. induction l as [|x l IH]; intros H; constructor.
  - apply IH. intros y Hy. apply H. now right.
  - apply Forall_forall. intros y Hy.
    rewrite (H x), (H y); simpl; auto. apply leb_refl.
Qed.

Lemma group_tags_app r1 r2 : group_tags (r1 ++ r2) = group_tags r1 ++ group_tags r2.
Proof.
  unfold group_tags, values. now rewrite !map_app.
Qed.

Lemma group_tags_In g ret : In g (group_tags ret) <-> exists k c, In (k, c) ret /\ Class.group c = g.
Proof.
  unfold group_tags, values. rewrite map_map, in_map_iff. split.
  - intros ([k c] & <- & H). eauto.
  - intros (k & c & H & <-). exists (k, c). auto.
Qed.

Lemma strictly_sorted_head (l : list string) g g' :
  StronglySorted (fun a b => String.ltb a b = true) (g :: l) -> In g' l ->
  String.ltb g g' = true.
Proof.
  intros H Hin. inversion H as [|? ? _ Hall]; subst.
  rewrite Forall_forall in Hall. auto.
Qed.

Lemma group_order_unfold classes names inh flat :
  inheritance_of classes names = Ok inh ->
  toposort.toposort_flatten inh = Ok flat ->
  group_order classes names = filter (fun n => PyStr.mem n names) flat.
Proof.
  intros H1 H2. unfold group_order. now rewrite H1, H2.
Qed.

Lemma sorter_loop_order classes G ret0 ret :
  NoDup (keys classes) ->
  base_groups_not_later classes = true ->
  StronglySorted (fun a b => String.ltb a b = true) (keys G) ->
  (forall g names, In (g, names) G -> names = names_of_group g classes) ->
  agrees classes ret0 -> NoDup (keys ret0) ->
  (forall k c g, In (k, c) ret0 -> In g (keys G) -> String.ltb (Class.group c) g = true) ->
  (forall k c, In (k, c) classes -> In k (keys ret0) \/ In (Class.group c) (keys G)) ->
  ascending (group_tags ret0) -> bases_precede ret0 ->
  for_fold (sorter_step classes) G ret0 = Ok ret ->
  keys ret = keys ret0 ++ concat (map (fun item => group_order classes (snd item)) G)
  /\ ascending (group_tags ret) /\ bases_precede ret
  /\ NoDup (keys ret) /\ agrees classes ret.
Proof.
  intros Hnd Hle. revert ret0.
  induction G as [|[g names] G IH];
    intros ret0 Hsorted HG Ha Hr Hlow Hcov Hasc Hbp H.
  - simpl in H. injection H as <-. simpl. rewrite app_nil_r. auto.
  - rewrite for_fold_cons in H.
    destruct (sorter_step classes ret0 (g, names)) as [ret1|e] eqn:Es; simpl in H;
      [|discriminate].
    assert (Hnames : names = names_of_group g classes) by (apply HG; now left).
    assert (Hn : NoDup names) by (rewrite Hnames; now apply names_of_group_NoDup).
    destruct (sorter_step_spec _ _ _ _ _ Ha Hr Hn Es)
      as (inh & flat & added & Hinh & Hflat & -> & Hk & Hag & Hfnd & Hnf & Hfk).
    destruct (inheritance_of_spec _ _ _ Hn Hinh) as [Hik Hiin].
    assert (Hind : NoDup (keys inh)) by now rewrite Hik.
    destruct (toposort_flatten_spec _ _ Hind Hflat) as (Hfin & _ & Hprec).
    simpl in Hsorted.
    (* members of the group are new, everything else is already stored *)
    assert (Hmember : forall x, In x names -> ~ In x (keys ret0)).
    { intros x Hx Hx0. apply keys_In in Hx0. destruct Hx0 as (v & Hv).
      assert (Hg : Class.group v = g).
      { apply (names_of_group_group classes g x); auto. now rewrite <- Hnames. }
      assert (Hlt := Hlow x v g Hv (or_introl eq_refl)).
      rewrite Hg, ltb_irrefl in Hlt. discriminate. }
    assert (Hother : forall x, In x flat -> ~ In x names -> In x (keys ret0)).
    { intros x Hx Hxn. apply Hfin in Hx. rewrite Hik in Hx.
      destruct Hx as [Hx|(deps & Hdeps & Hx)]; [contradiction|].
      unfold values in Hdeps. apply in_map_iff in Hdeps.
      destruct Hdeps as ([n deps'] & <- & Hn'). simpl in Hx.
      apply Hiin in Hn'. destruct Hn' as (Hnn & c & Hc & ->).
      assert (Hgc : Class.group c = g).
      { apply (names_of_group_group classes g n); auto. now rewrite <- Hnames. }
      assert (Hxk : In x (keys classes)).
      { apply Hfk. apply Hfin. right. exists (Class.bases c). split; auto.
        unfold values. apply in_map_iff. exists (n, Class.bases c). split; auto.
        apply Hiin. eauto. }
      apply get_In_keys in Hxk. destruct Hxk as (cx & Hcx).
      assert (Hleb := base_groups_not_later_spec classes n c x cx Hle
                        (get_Some_In _ _ _ Hc) Hx Hcx).
      rewrite Hgc in Hleb.
      destruct (Hcov x cx (get_Some_In _ _ _ Hcx)) as [H0|[Hg|Hg]]; auto.
      - exfalso. apply Hxn. rewrite Hnames. apply names_of_group_In.
        exists cx. split; auto. now apply get_Some_In.
      - exfalso. pose proof (strictly_sorted_head _ _ _ Hsorted Hg) as Hlt.
        pose proof (ltb_leb_trans _ _ _ Hlt Hleb) as Hc'.
        rewrite ltb_irrefl in Hc'. discriminate. }
    assert (Hk' : keys added = group_order classes names).
    { rewrite (group_order_unfold _ _ _ _ Hinh Hflat), Hk.
      apply filter_ext_on. intros x Hx.
      destruct (PyStr.mem x names) eqn:Em.
      - apply mem_In, Hmember in Em. apply mem_false in Em. now rewrite Em.
      - apply mem_false in Em. apply (Hother x Hx), mem_In in Em. now rewrite Em. }
    assert (Hadded : forall k c, In (k, c) added -> In k names /\ Class.group c = g).
    { intros k c Hkc.
      assert (Hkn : In k names).
      { apply In_keys in Hkc as Hkk. rewrite Hk', (group_order_unfold _ _ _ _ Hinh Hflat) in Hkk.
        apply filter_In in Hkk. now apply mem_In. }
      split; auto. apply (names_of_group_group classes g k); auto. now rewrite <- Hnames. }
    assert (Hr1 : NoDup (keys (ret0 ++ added))).
    { apply (sorter_step_NoDup ret0 added Hr flat Hfnd Hk). }
    inversion Hsorted as [|? ? Hsorted' Hhead]; subst.
    destruct (IH (ret0 ++ added)) as (Hkeys & Hasc' & Hbp' & Hnd' & Hag'); auto.
    + intros g' names' Hin. apply HG. now right.
    + now apply agrees_app.
    + intros k c g' Hkc Hg'. apply in_app_or in Hkc. destruct Hkc as [Hkc|Hkc].
      * apply (Hlow k); auto. now right.
      * destruct (Hadded _ _ Hkc) as [_ ->]. rewrite Forall_forall in Hhead. auto.
    + intros k c Hkc. rewrite keys_app, in_app_iff.
      destruct (Hcov k c Hkc) as [H0|[Hg|Hg]]; auto.
      left. right. rewrite Hk', (group_order_unfold _ _ _ _ Hinh Hflat).
      simpl in Hg.
      assert (Hkn : In k (names_of_group g classes))
        by (apply names_of_group_In; eauto).
      apply filter_In. split.
      * now apply Hnf.
      * now apply mem_In.
    + rewrite group_tags_app. apply ascending_app; auto.
      * apply (ascending_constant g). intros x Hx. apply group_tags_In in Hx.
        destruct Hx as (k & c & Hkc & <-). now destruct (Hadded _ _ Hkc).
      * intros a b Ha' Hb'. apply group_tags_In in Ha', Hb'.
        destruct Ha' as (ka & ca & Hka & <-). destruct Hb' as (kb & cb & Hkb & <-).
        destruct (Hadded _ _ Hkb) as [_ ->]. apply ltb_leb.
        apply (Hlow ka); auto. now left.
    + intros k c b Hkc Hb Hne. rewrite keys_app.
      apply in_app_or in Hkc. destruct Hkc as [Hkc|Hkc].
      * apply precedes_app_l. eapply Hbp; eauto.
      * destruct (Hadded _ _ Hkc) as [Hkn _].
        assert (Hc : get classes k = Some c) by now apply Hag.
        assert (Hdep : In (k, Class.bases c) inh) by (apply Hiin; eauto).
        pose proof (Hprec _ _ _ Hdep Hb Hne) as Hp.
        destruct (in_dec string_dec b (keys ret0)) as [Hb0|Hb0].
        -- apply precedes_app_cross; auto. eapply In_keys; eauto.
        -- apply precedes_app_r. rewrite Hk. apply precedes_filter; auto.
           ++ rewrite negb_true_iff. now apply mem_false.
           ++ rewrite negb_true_iff. apply mem_false. now apply Hmember.
    + repeat split; auto.
      rewrite Hkeys, keys_app, Hk', <- app_assoc. reflexivity.
Qed.

Lemma ascending_NoDup_strict l :
  ascending l -> NoDup l -> StronglySorted (fun a b => String.ltb a b = true) l.
Proof.
  unfold ascending. induction 1 as [|x l Hs IH Hx]; intros Hnd; constructor.
  - apply IH. now inversion Hnd.
  - inversion Hnd as [|? ? Hnx _]; subst.
    rewrite Forall_forall in *. intros y Hy. apply leb_ltb; auto.
    intros ->. contradiction.
Qed.

Lemma runs_head x l : exists r, runs (x :: l) = x :: r.
Proof.
  revert x. induction l as [|y l IH]; intros x.
  - exists []. reflexivity.
  - simpl. destruct (String.eqb_spec x y) as [->|Hne].
    + apply IH.
    + eexists. reflexivity.
Qed.

Lemma runs_cons x y l :
  runs (x :: y :: l) = if String.eqb x y then runs (y :: l) else x :: runs (y :: l).
Proof. reflexivity. Qed.

Lemma ascending_runs l : ascending l -> strictly_ascending (runs l) = true.
Proof.
  unfold ascending. induction 1 as [|x l Hs IH Hx]; auto.
  destruct l as [|y l]; auto.
  rewrite runs_cons. destruct (String.eqb_spec x y) as [->|Hne]; auto.
  destruct (runs_head y l) as (r & Hr). rewrite Hr in *.
  change (strictly_ascending (x :: y :: r))
    with (String.ltb x y && strictly_ascending (y :: r)).
  rewrite IH. inversion Hx as [|? ? Hxy _]; subst.
  rewrite (leb_ltb _ _ Hxy Hne). reflexivity.
Qed.

Lemma runs_ascending l : strictly_ascending (runs l) = true -> ascending l.
Proof.
  unfold ascending. induction l as [|x l IH]; intros H; [constructor|].
  destruct l as [|y l]; [repeat constructor|].
  rewrite runs_cons in H. destruct (String.eqb_spec x y) as [->|Hne].
  - specialize (IH H). constructor; auto.
    inversion IH as [|? ? _ Hy]; subst. constructor; auto. apply leb_refl.
  - destruct (runs_head y l) as (r & Hr). rewrite Hr in *.
    change (strictly_ascending (x :: y :: r))
      with (String.ltb x y && strictly_ascending (y :: r)) in H.
    apply andb_true_iff in H. destruct H as [Hxy H]. specialize (IH H).
    constructor; auto. inversion IH as [|? ? _ Hy]; subst.
    constructor; [now apply ltb_leb|].
    eapply Forall_impl; [|exact Hy]. intros z Hz. eauto with order.
Qed.

(** The executable test says that the tags never decrease; equal tags are
    then adjacent and distinct tags strictly ascending. *)
Lemma groups_ascending_iff classes :
  groups_ascending classes = true <-> ascending (group_tags classes).
Proof.
  split; [apply runs_ascending | apply ascending_runs].
Qed.

Lemma bases_precede_first classes :
  NoDup (keys classes) -> bases_precede classes -> bases_first classes.
Proof.
  intros Hnd H k c b Hkc Hb Hne. apply precedes_occurs_before; auto. eapply H; eauto.
Qed.

Lemma sorter_order classes ret :
  NoDup (keys classes) ->
  base_groups_not_later classes = true ->
  _toposort_classes_by_group classes = Ok ret ->
  keys ret
  = concat (map (fun item => group_order classes (snd item))
              (sorted_items (group_names classes)))
  /\ ascending (group_tags ret) /\ bases_precede ret /\ NoDup (keys ret).
Proof.
  intros Hnd Hle H. rewrite sorter_unfold in H.
  set (G := sorted_items (group_names classes)) in *.
  assert (HS : StronglySorted (fun a b => String.ltb a b = true) (keys G)).
  { apply ascending_NoDup_strict.
    - apply sorted_items_ascending.
    - apply sorted_items_NoDup, group_names_NoDup. }
  assert (HG : forall g names, In (g, names) G -> names = names_of_group g classes).
  { intros g names Hin. now apply sorted_groups_In in Hin. }
  assert (Ha : agrees classes []) by (intros k v []).
  assert (Hr : NoDup (keys (@nil (string * Class.t)))) by constructor.
  assert (Hlow : forall k c g, In (k, c) (@nil (string * Class.t)) -> In g (keys G) ->
                               String.ltb (Class.group c) g = true) by (intros k c g []).
  assert (Hcov : forall k c, In (k, c) classes ->
                             In k (keys (@nil (string * Class.t))) \/ In (Class.group c) (keys G)).
  { intros k c Hkc. right.
    apply (in_map fst G (Class.group c, names_of_group (Class.group c) classes)).
    apply sorted_groups_In. split; auto.
    assert (Hin : In k (names_of_group (Class.group c) classes))
      by (apply names_of_group_In; eauto).
    intros E. rewrite E in Hin. destruct Hin. }
  assert (Hasc : ascending (group_tags [])) by constructor.
  assert (Hbp : bases_precede []) by (intros k c b []).
  destruct (sorter_loop_order classes G [] ret Hnd Hle HS HG Ha Hr Hlow Hcov Hasc Hbp H)
    as (H1 & H2 & H3 & H4 & _).
  auto.
Qed.

(** ** Ties inside a group *)

Lemma ascending_precedes l x y :
  ascending l -> In x l -> In y l -> String.ltb x y = true -> precedes x y l.
Proof.
  unfold ascending. induction 1 as [|a l Hs IH Ha]; intros Hx Hy Hlt; [destruct Hx|].
  rewrite Forall_forall in Ha.
  destruct Hx as [->|Hx], Hy as [->|Hy].
  - rewrite ltb_irrefl in Hlt. discriminate.
  - exists [x], l. simpl. auto.
  - exfalso. pose proof (ltb_leb_trans _ _ _ Hlt (Ha _ Hx)) as Hc.
    rewrite ltb_irrefl in Hc. discriminate.
  - apply (precedes_app_r x y [a] l). auto.
Qed.

Lemma precedes_concat a b l ls : In l ls -> precedes a b l -> precedes a b (concat ls).
Proof.
  intros Hin Hp. apply in_split in Hin. destruct Hin as (l1 & l2 & ->).
  rewrite concat_app. simpl. apply precedes_app_r, precedes_app_l. exact Hp.
Qed.

Lemma same_batch_precedes batches batch x y :
  In batch batches -> In x batch -> In y batch -> String.ltb x y = true ->
  precedes x y (concat (map PyStr.sorted_set batches)).
Proof.
  intros Hb Hx Hy Hlt. apply (precedes_concat x y (PyStr.sorted_set batch)).
  - apply in_map_iff. eauto.
  - apply ascending_precedes; auto.
    + apply sorted_set_ascending.
    + now apply sorted_set_In.
    + now apply sorted_set_In.
Qed.

Lemma group_batches_flatten classes g batches :
  group_batches classes g = Ok batches ->
  group_order classes (names_of_group g classes)
  = filter (fun n => PyStr.mem n (names_of_group g classes))
      (concat (map PyStr.sorted_set batches)).
Proof.
  unfold group_batches, group_order. intros H.
  destruct (inheritance_of classes (names_of_group g classes)) as [inh|e];
    simpl in H; [|discriminate].
  unfold toposort.toposort_flatten. rewrite H. reflexivity.
Qed.

Lemma group_precedes classes ret g x y :
  NoDup (keys classes) ->
  base_groups_not_later classes = true ->
  _toposort_classes_by_group classes = Ok ret ->
  In x (names_of_group g classes) -> In y (names_of_group g classes) ->
  precedes x y (group_order classes (names_of_group g classes)) ->
  occurs_before x y (keys ret) = true.
Proof.
  intros Hnd Hle Hs Hx Hy Hp.
  destruct (sorter_order _ _ Hnd Hle Hs) as (Hkeys & _ & _ & Hr).
  apply precedes_occurs_before; auto. rewrite Hkeys.
  apply (precedes_concat x y (group_order classes (names_of_group g classes))); auto.
  apply in_map_iff. exists (g, names_of_group g classes). split; auto.
  apply sorted_groups_In. split; auto. intros E. rewrite E in Hx. destruct Hx.
Qed.

(** C4 (as stated, refuted): [B] is declared before [A], neither is a base
    of the other, and the sorter puts [A] before [B]. *)
Lemma sorter_breaks_ties_by_name_not_declaration :
  let classes := [("Root", simple_class "Root" [] "");
                  ("B", simple_class "B" ["Root"] "");
                  ("A", simple_class "A" ["Root"] "")] in
  exists ret,
    _toposort_classes_by_group classes = Ok ret
    /\ keys ret = ["Root"; "A"; "B"]
    /\ occurs_before "B" "A" (keys classes) = true
    /\ occurs_before "B" "A" (keys ret) = false.
Proof.
  eexists. split; [reflexivity|]. repeat split.
Qed.

(** ** The loader *)

Lemma get_class_raise data e :
  _get_class data = Raise e ->
  e = IndexError
  \/ (exists s, e = Error (String.append "Only class definitions allowed in schema, found " s))
  \/ (exists s, e = Error (String.append "Class name must be capitalized, found " s))
  \/ (exists s, e = Error (String.append "Bases with mixed groups for " s))
  \/ (exists s, e = Error (String.append "Illegal property specifier " s)).
Proof.
  destruct data as [c|s items]; unfold _get_class.
  - destruct (PyClass.__name__ c) as [|ch rest]; simpl.
    + intros H. injection H as <-. auto.
    + destruct (PyStr.islower ch).
      * intros H. injection H as <-. right. right. left. eexists; reflexivity.
      * destruct (Nat.ltb 1 (List.length (base_groups (PyClass.__bases__ c)))).
        -- intros H. injection H as <-. right. right. right. left. eexists; reflexivity.
        -- destruct (comprehension _ _) as [props|e'] eqn:Ec; simpl; [discriminate|].
           intros H. injection H as <-. apply properties_raise in Ec.
           right. right. right. right. exact Ec.
  - intros H. injection H as <-. right. left. eexists; reflexivity.
Qed.

Lemma rounds_raise fuel data e :
  toposort.rounds fuel data = Raise e -> e = CircularDependencyError.
Proof.
  revert data. induction fuel as [|fuel IH]; intros data; simpl.
  - intros H. now injection H.
  - destruct (toposort.ready data) as [|x ordered].
    + destruct data; [discriminate|]. intros H. now injection H.
    + destruct (toposort.rounds fuel _) as [rest|e'] eqn:E; simpl; [discriminate|].
      intros H. injection H as <-. eauto.
Qed.

Lemma toposort_flatten_raise data e :
  toposort.toposort_flatten data = Raise e -> e = CircularDependencyError.
Proof.
  unfold toposort.toposort_flatten.
  destruct (toposort.toposort data) as [b|e'] eqn:E; simpl; [discriminate|].
  intros H. injection H as <-. unfold toposort.toposort in E.
  destruct data as [|kv data]; [discriminate|].
  eapply rounds_raise; exact E.
Qed.

Lemma getitem_raise {V} (d : dict V) k e : getitem d k = Raise e -> e = KeyError k.
Proof.
  unfold getitem. destruct (get d k); [discriminate|]. intros H. now injection H.
Qed.

Lemma sorter_raise classes e :
  _toposort_classes_by_group classes = Raise e ->
  e = CircularDependencyError \/ exists k, e = KeyError k.
Proof.
  unfold _toposort_classes_by_group. intros H.
  apply for_fold_raise in H. destruct H as (pre & [g grouped] & post & ret & _ & _ & H).
  unfold sorter_step in H.
  destruct (inheritance_of classes grouped) as [inh|e1] eqn:E1; simpl in H.
  - destruct (toposort.toposort_flatten inh) as [names|e2] eqn:E2; simpl in H.
    + unfold store_all in H. apply for_fold_raise in H.
      destruct H as (? & name & ? & ? & _ & _ & H).
      destruct (getitem classes name) eqn:E3; simpl in H; [discriminate|].
      injection H as <-. apply getitem_raise in E3. eauto.
    + injection H as <-. apply toposort_flatten_raise in E2. auto.
  - injection H as <-. unfold inheritance_of in E1. apply for_fold_raise in E1.
    destruct E1 as (? & name & ? & ? & _ & _ & H).
    destruct (getitem classes name) eqn:E3; simpl in H; [discriminate|].
    injection H as <-. apply getitem_raise in E3. eauto.
Qed.

Lemma check_types_raise cls known e :
  check_types cls known = Raise e -> exists t, e = Error (String.append "Unknown type " t).
Proof.
  rewrite check_types_names. unfold check_names.
  destruct (first_unknown known (referenced_types cls)) as [t|]; [|discriminate].
  intros H. injection H as <-. now exists t.
Qed.

(** One round of the loop and the loop itself, for a fixed [defs] module
    and a fixed set of known names. *)
Section loader_loop.

Variable defs_has : string -> bool.
Variable known : list string.

Lemma load_step_keys inc cl item inc' cl' :
  load_step defs_has known (inc, cl) item = Ok (inc', cl') ->
  forall k, In k (keys cl') <->
            In k (keys cl) \/ (k = fst item /\ is_class_entry defs_has k = true).
Proof.
  destruct item as [name data]. unfold load_step, is_class_entry. simpl fst.
  destruct (defs_has name) eqn:Hd; simpl.
  { intros H k. injection H as <- <-. split; auto. intros [H|[-> H]]; auto.
    rewrite Hd in H. discriminate. }
  destruct (String.eqb name "__includes") eqn:Hi; simpl.
  { destruct data as [|s [items|]]; try discriminate.
    intros H k. injection H as <- <-. split; auto. intros [H|[-> H]]; auto.
    rewrite Hd, Hi in H. discriminate. }
  destruct (PyStr.startswith name "__") eqn:Hs; simpl.
  { intros H k. injection H as <- <-. split; auto. intros [H|[-> H]]; auto.
    rewrite Hd, Hi, Hs in H. discriminate. }
  destruct (_get_class data) as [cls|e]; simpl; [|discriminate].
  destruct (negb (is_nil cl) && is_nil (Class.bases cls)); [discriminate|].
  destruct (check_types cls known); simpl; [|discriminate].
  intros H k. injection H as <- <-. rewrite keys_setitem.
  split.
  - intros [->|H]; auto. right. now rewrite Hd, Hi, Hs.
  - intros [H|[-> _]]; auto.
Qed.

Lemma load_loop_keys items inc cl inc' cl' :
  for_fold (load_step defs_has known) items (inc, cl) = Ok (inc', cl') ->
  forall k, In k (keys cl') <->
            In k (keys cl) \/ (In k (keys items) /\ is_class_entry defs_has k = true).
Proof.
  revert inc cl. induction items as [|item items IH]; intros inc cl H k.
  - simpl in H. injection H as <- <-. simpl. tauto.
  - rewrite for_fold_cons in H.
    destruct (load_step defs_has known (inc, cl) item) as [[inc1 cl1]|e] eqn:E;
      simpl in H; [|discriminate].
    rewrite (IH _ _ H k), (load_step_keys _ _ _ _ _ E k). simpl.
    intuition (subst; auto).
Qed.

Lemma load_loop_nonempty pre st :
  for_fold (load_step defs_has known) pre ([], []) = Ok st ->
  is_nil (snd st) = false <->
  exists n0, In n0 (keys pre) /\ is_class_entry defs_has n0 = true.
Proof.
  destruct st as [inc cl]. intros H. pose proof (load_loop_keys _ _ _ _ _ H) as Hk.
  simpl. split.
  - destruct cl as [|[k v] cl]; [discriminate|]. intros _.
    destruct (proj1 (Hk k)) as [[]|Hin]; [now left|]. eauto.
  - intros (n0 & Hin & Hc).
    assert (In n0 (keys cl)) by (apply Hk; auto).
    destruct cl; [destruct H0 | reflexivity].
Qed.

Lemma load_step_second_root inc cl name data n :
  load_step defs_has known (inc, cl) (name, data) = Raise (Error (second_root_message n)) <->
  name = n /\ is_class_entry defs_has n = true /\ is_nil cl = false
  /\ exists cls, _get_class data = Ok cls /\ Class.bases cls = [].
Proof.
  unfold load_step, is_class_entry, second_root_message.
  destruct (defs_has name) eqn:Hd; simpl.
  { split; [discriminate|]. intros (-> & H & _). rewrite Hd in H. discriminate. }
  destruct (String.eqb name "__includes") eqn:Hi; simpl.
  { split.
    - destruct data as [|s [items|]]; discriminate.
    - intros (-> & H & _). rewrite Hd, Hi in H. discriminate. }
  destruct (PyStr.startswith name "__") eqn:Hs; simpl.
  { split; [discriminate|]. intros (-> & H & _). rewrite Hd, Hi, Hs in H. discriminate. }
  destruct (_get_class data) as [cls|e] eqn:Eg; simpl.
  - destruct (is_nil cl) eqn:Hcl; simpl.
    + split.
      * destruct (check_types cls known) as [u|e] eqn:Ec; simpl; [discriminate|].
        intros H. apply check_types_raise in Ec. destruct Ec as (t & ->). discriminate H.
      * intros (_ & _ & H & _). discriminate H.
    + destruct (is_nil (Class.bases cls)) eqn:Hb.
      * split.
        -- intros H. injection H as H. subst n.
           rewrite Hd, Hi, Hs. repeat split; auto. exists cls. split; auto.
           destruct (Class.bases cls); [reflexivity|discriminate].
        -- intros (-> & _). reflexivity.
      * split.
        -- destruct (check_types cls known) as [u|e] eqn:Ec; simpl; [discriminate|].
           intros H. apply check_types_raise in Ec. destruct Ec as (t & ->). discriminate H.
        -- intros (_ & _ & _ & cls' & H1 & H2). injection H1 as <-.
           rewrite H2 in Hb. discriminate.
  - split.
    + intros H. injection H as ->. apply get_class_raise in Eg.
      destruct Eg as [E|[(s & E)|[(s & E)|[(s & E)|(s & E)]]]]; discriminate E.
    + intros (_ & _ & _ & cls & H & _). discriminate H.
Qed.

Lemma load_step_NoDup inc cl item inc' cl' :
  load_step defs_has known (inc, cl) item = Ok (inc', cl') ->
  NoDup (keys cl) -> NoDup (keys cl').
Proof.
  destruct item as [name data]. unfold load_step.
  destruct (defs_has name).
  { intros H. now injection H as <- <-. }
  destruct (String.eqb name "__includes").
  { destruct data as [|s [items|]]; try discriminate. intros H. now injection H as <- <-. }
  destruct (PyStr.startswith name "__").
  { intros H. now injection H as <- <-. }
  destruct (_get_class data) as [cls|e]; simpl; [|discriminate].
  destruct (negb (is_nil cl) && is_nil (Class.bases cls)); [discriminate|].
  destruct (check_types cls known); simpl; [|discriminate].
  intros H. injection H as <- <-. apply setitem_NoDup.
Qed.

Lemma load_loop_NoDup items inc cl inc' cl' :
  for_fold (load_step defs_has known) items (inc, cl) = Ok (inc', cl') ->
  NoDup (keys cl) -> NoDup (keys cl').
Proof.
  revert inc cl. induction items as [|item items IH]; intros inc cl H Hnd.
  - simpl in H. now injection H as <- <-.
  - rewrite for_fold_cons in H.
    destruct (load_step defs_has known (inc, cl) item) as [[inc1 cl1]|e] eqn:E;
      simpl in H; [|discriminate].
    eapply IH; eauto. eapply load_step_NoDup; eauto.
Qed.

End loader_loop.

(** C1: the loader at a module whose entries are [class A(Root)] and then
    [class Root] (the module [A = None; class Root: ...; class A(Root): ...]
    has them in this order).  [Root] is the first and only class without
    bases, and the loader rejects it as a second root because a class was
    stored before it; with the entries in the order [Root], [A] the same
    classes load. *)
Theorem load_rejects_first_root_after_other_class :
  let m := [("A", plain_class "A" [base_class "Root" None] None);
            ("Root", plain_class "Root" [base_object] None)] in
  load (fun _ => false) m = Raise (Error (second_root_message "Root"))
  /\ keys (baseless_entries m) = ["Root"]
  /\ exists s,
       load (fun _ => false)
         [("Root", plain_class "Root" [base_object] None);
          ("A", plain_class "A" [base_class "Root" None] None)] = Ok s
       /\ keys (Schema.classes s) = ["Root"; "A"].
Proof.
  split; [reflexivity|]. split; [reflexivity|]. eexists. split; reflexivity.
Qed.

(** The extent of the guard at line 245: the loader raises
    ["Only one root class allowed, found second root n"] if and only if the
    entry [n] is built into a class without bases after at least one class
    entry has been processed before it, all earlier entries having been
    processed without error.  The guard tests that a class was stored, not
    that a class without bases was. *)
Theorem load_second_root_iff (defs_has : string -> bool) (m : dict PyObject) (n : string) :
  load defs_has m = Raise (Error (second_root_message n))
  <-> exists pre data post cls,
        m = pre ++ (n, data) :: post
        /\ (exists st, for_fold (load_step defs_has (initial_known m)) pre ([], []) = Ok st)
        /\ (exists n0, In n0 (keys pre) /\ is_class_entry defs_has n0 = true)
        /\ is_class_entry defs_has n = true
        /\ _get_class data = Ok cls
        /\ Class.bases cls = [].
Proof.
  unfold load. split.
  - destruct (for_fold (load_step defs_has (initial_known m)) m ([], [])) as [st|e] eqn:E; simpl.
    + destruct (_toposort_classes_by_group (snd st)) as [ret|e] eqn:Es; simpl; [discriminate|].
      intros H. injection H as ->. apply sorter_raise in Es.
      destruct Es as [Es|(k & Es)]; discriminate Es.
    + intros H. injection H as ->. apply for_fold_raise in E.
      destruct E as (pre & [name data] & post & [inc cl] & Hm & Hpre & Hstep).
      apply load_step_second_root in Hstep.
      destruct Hstep as (-> & Hc & Hcl & cls & Hg & Hb).
      exists pre, data, post, cls. repeat split; auto.
      * eauto.
      * apply (load_loop_nonempty _ _ _ _ Hpre). exact Hcl.
  - intros (pre & data & post & cls & Hm & (st & Hpre) & Hn0 & Hc & Hg & Hb).
    rewrite Hm at 2. rewrite for_fold_app, Hpre. cbn [bind].
    rewrite for_fold_cons. destruct st as [inc cl].
    assert (Hstep : load_step defs_has (initial_known m) (inc, cl) (n, data)
                    = Raise (Error (second_root_message n))).
    { apply load_step_second_root. repeat split; auto.
      - apply (load_loop_nonempty _ _ _ _ Hpre) in Hn0. exact Hn0.
      - eauto. }
    rewrite Hstep. reflexivity.
Qed.

Lemma load_sorted defs_has m s :
  load defs_has m = Ok s ->
  exists classes,
    NoDup (keys classes)
    /\ _toposort_classes_by_group classes = Ok (Schema.classes s).
Proof.
  unfold load. intros H.
  destruct (for_fold (load_step defs_has (initial_known m)) m ([], [])) as [[inc cl]|e] eqn:E;
    simpl in H; [|discriminate].
  bind_ok H as ret eqn:Es.
  injection H as <-. exists cl. split; auto.
  eapply load_loop_NoDup; eauto. constructor.
Qed.

Lemma base_groups_not_later_transfer classes ret :
  (forall k v, In (k, v) ret <-> In (k, v) classes) ->
  (forall k, get ret k = get classes k) ->
  base_groups_not_later ret = true -> base_groups_not_later classes = true.
Proof.
  unfold base_groups_not_later. rewrite !forallb_forall. intros Hin Hget H [k c] Hkc.
  apply Hin in Hkc. specialize (H _ Hkc). simpl in H.
  rewrite forallb_forall in *. intros b Hb. specialize (H b Hb). now rewrite <- Hget.
Qed.

(** C2 (as stated, refuted): a root filed under group [z] with a derived
    class filed under group [a] loads successfully, and the derived class
    drags its base in front of it, so that group [z] comes before group
    [a]. *)
Lemma load_groups_not_ascending :
  exists s,
    load (fun _ => false)
      [("Root", plain_class "Root" [base_object] (Some "z"));
       ("A", plain_class "A" [base_class "Root" (Some "z")] (Some "a"))] = Ok s
    /\ group_tags (Schema.classes s) = ["z"; "a"]
    /\ groups_ascending (Schema.classes s) = false.
Proof.
  eexists. split; [reflexivity|]. split; reflexivity.
Qed.

(** C2 (amended): for every schema returned by [load] in which no class has
    a base filed under a later group than its own, the classes of one group
    are consecutive in [Schema.classes], the groups appear in strictly
    ascending order of their tags, and every class comes after each of the
    classes it lists as bases. *)
Theorem load_groups_ascending_bases_first
    (defs_has : string -> bool) (m : dict PyObject) (s : Schema.t) :
  load defs_has m = Ok s ->
  base_groups_not_later (Schema.classes s) = true ->
  groups_ascending (Schema.classes s) = true /\ bases_first (Schema.classes s).
Proof.
  intros H Hle. destruct (load_sorted _ _ _ H) as (classes & Hnd & Hs).
  destruct (sorter_reorders_when_ok _ _ Hnd Hs) as (Hp & Hr & Hget).
  assert (Hle' : base_groups_not_later classes = true).
  { apply (base_groups_not_later_transfer classes (Schema.classes s)); auto.
    intros k v. split; apply Permutation_in; auto. now symmetry. }
  destruct (sorter_order _ _ Hnd Hle' Hs) as (_ & Hasc & Hbp & _).
  split.
  - now apply ascending_runs.
  - now apply bases_precede_first.
Qed.

(** C2 at work on a module with an ungrouped root and two groups. *)
Lemma load_groups_ascending_bases_first_witness :
  let m := [("Root", plain_class "Root" [base_object] None);
            ("Stmt", plain_class "Stmt" [base_class "Root" None] (Some "stmt"));
            ("Expr", plain_class "Expr" [base_class "Root" None] (Some "expr"));
            ("Call", plain_class "Call" [base_class "Expr" (Some "expr")] (Some "expr"))] in
  exists s,
    load (fun _ => false) m = Ok s
    /\ keys (Schema.classes s) = ["Root"; "Expr"; "Call"; "Stmt"]
    /\ groups_ascending (Schema.classes s) = true /\ bases_first (Schema.classes s).
Proof.
  intros m.
  let v := eval vm_compute in (load (fun _ => false) m) in
  match v with
  | Ok ?s =>
      exists s; split; [vm_compute; reflexivity|]; split; [vm_compute; reflexivity|];
      apply (load_groups_ascending_bases_first (fun _ => false) m s);
      vm_compute; reflexivity
  end.
Defined.

(** ** The kinds of a property *)

(** X1: the four kind tests cover every property; a single property and a
    predicate are nothing else; a property is both optional and repeated
    exactly when its kind is [REPEATED_OPTIONAL]. *)
Theorem kind_tests_classify (p : Property.t) :
  Property.is_single p || Property.is_optional p || Property.is_repeated p
  || Property.is_predicate p = true
  /\ (Property.is_single p = true ->
      Property.is_optional p = false /\ Property.is_repeated p = false
      /\ Property.is_predicate p = false)
  /\ (Property.is_predicate p = true ->
      Property.is_single p = false /\ Property.is_optional p = false
      /\ Property.is_repeated p = false)
  /\ (Property.is_optional p && Property.is_repeated p = true
      <-> Property.kind p = Property.REPEATED_OPTIONAL).
Proof.
  unfold Property.is_single, Property.is_optional, Property.is_repeated, Property.is_predicate.
  destruct (Property.kind p); simpl; repeat split; intros; try discriminate; auto.
Qed.

(** ** The doc normaliser on small inputs *)

Lemma is_blank_app s t : is_blank (String.append s t) = is_blank s && is_blank t.
Proof.
  induction s as [|c s IH]; simpl; auto. rewrite IH. apply andb_assoc.
Qed.

Lemma linebreak_isspace c : PyStr.is_linebreak c = true -> PyStr.isspace c = true.
Proof.
  unfold PyStr.is_linebreak, PyStr.isspace, PyStr.between.
  rewrite !orb_true_iff, !andb_true_iff, !Nat.leb_le, !Nat.eqb_eq. lia.
Qed.

(** [splitlines_from] recurses on the tail or, after a CR LF pair, on the
    tail of the tail: facts about it go by induction on a length bound. *)
Lemma splitlines_from_ind (P : string -> string -> list string -> Prop) :
  (forall cur, P cur EmptyString (match cur with EmptyString => [] | _ => [cur] end)) ->
  (forall cur c s,
      PyStr.is_linebreak c = true ->
      P EmptyString s (PyStr.splitlines_from EmptyString s) ->
      (forall c' s', s = String c' s' ->
                     Nat.eqb (PyStr.code c) 13 && Nat.eqb (PyStr.code c') 10 = false) ->
      P cur (String c s) (cur :: PyStr.splitlines_from EmptyString s)) ->
  (forall cur c c' s',
      PyStr.is_linebreak c = true ->
      Nat.eqb (PyStr.code c) 13 && Nat.eqb (PyStr.code c') 10 = true ->
      P EmptyString s' (PyStr.splitlines_from EmptyString s') ->
      P cur (String c (String c' s')) (cur :: PyStr.splitlines_from EmptyString s')) ->
  (forall cur c s,
      PyStr.is_linebreak c = false ->
      P (String.append cur (String c EmptyString)) s
        (PyStr.splitlines_from (String.append cur (String c EmptyString)) s) ->
      P cur (String c s) (PyStr.splitlines_from (String.append cur (String c EmptyString)) s)) ->
  forall cur s, P cur s (PyStr.splitlines_from cur s).
Proof.
  intros Hnil Hbreak Hcrlf Hchar.
  assert (H : forall n cur s, String.length s <= n -> P cur s (PyStr.splitlines_from cur s)).
  { induction n as [|n IH]; intros cur s Hlen.
    - destruct s; [apply Hnil|simpl in Hlen; lia].
    - destruct s as [|c s]; [apply Hnil|]. simpl in Hlen.
      simpl. destruct (PyStr.is_linebreak c) eqn:Hb.
      + destruct s as [|c' s'].
        * apply (Hbreak cur c EmptyString Hb); [apply Hnil|]. intros ? ? E. discriminate E.
        * destruct (Nat.eqb (PyStr.code c) 13 && Nat.eqb (PyStr.code c') 10) eqn:Ecr.
          -- apply Hcrlf; auto. apply IH. simpl in Hlen. lia.
          -- apply (Hbreak cur c (String c' s') Hb); [apply IH; lia|].
             intros ? ? E. injection E as <- <-. exact Ecr.
      + apply Hchar; auto. apply IH. lia. }
  intros cur s. apply (H (String.length s)). lia.
Qed.

Lemma splitlines_from_blank cur s :
  is_blank cur = true -> is_blank s = true ->
  Forall (fun line => is_blank line = true) (PyStr.splitlines_from cur s).
Proof.
  revert cur s.
  apply (splitlines_from_ind
           (fun cur s lines => is_blank cur = true -> is_blank s = true ->
                               Forall (fun line => is_blank line = true) lines)).
  - intros cur Hc _. destruct cur; repeat constructor. exact Hc.
  - intros cur c s Hb IH _ Hc Hs. simpl in Hs. apply andb_true_iff in Hs.
    constructor; auto. apply IH; tauto.
  - intros cur c c' s' Hb _ IH Hc Hs. simpl in Hs.
    rewrite !andb_true_iff in Hs. constructor; auto. apply IH; tauto.
  - intros cur c s Hb IH Hc Hs. simpl in Hs. apply andb_true_iff in Hs.
    apply IH; [|tauto]. rewrite is_blank_app. simpl. rewrite Hc. simpl.
    now rewrite (proj1 Hs).
Qed.

Lemma strip_blank s : is_blank s = true -> PyStr.strip s = EmptyString.
Proof.
  intros H. unfold PyStr.strip. now rewrite (rstrip_blank s H).
Qed.

Lemma indents_blank rest :
  Forall (fun line => is_blank line = true) rest -> flat_map indent_of rest = [].
Proof.
  induction 1 as [|l rest Hl _ IH]; simpl; auto.
  rewrite indent_of_spec, Hl. exact IH.
Qed.

(** X2: a doc made of whitespace only (line boundaries included) has no
    lines left. *)
Theorem split_doc_blank (d : string) : is_blank d = true -> split_doc (Some d) = [].
Proof.
  intros Hd. destruct d as [|c d]; [reflexivity|].
  pose proof (splitlines_from_blank EmptyString (String c d) eq_refl Hd) as Hall.
  fold (PyStr.splitlines (String c d)) in Hall.
  destruct (PyStr.splitlines (String c d)) as [|first rest] eqn:El.
  - unfold split_doc. now rewrite El.
  - rewrite (split_doc_unfold _ _ _ _ El).
    inversion Hall as [|? ? Hf Hr]; subst.
    rewrite (strip_blank _ Hf), (indents_blank _ Hr). reflexivity.
Qed.

Lemma split_doc_blank_witness :
  split_doc (Some (String.append "  " (String.append LF "   "))) = [].
Proof.
  apply (split_doc_blank (String.append "  " (String.append LF "   "))). reflexivity.
Defined.

Lemma splitlines_from_single_line cur s :
  single_line s = true ->
  PyStr.splitlines_from cur s
  = match String.append cur s with
    | EmptyString => []
    | line => [line]
    end.
Proof.
  revert cur. induction s as [|c s IH]; intros cur H; simpl.
  - assert (E : String.append cur EmptyString = cur).
    { clear. induction cur; simpl; congruence. }
    rewrite E. now destruct cur.
  - simpl in H. apply andb_true_iff in H. destruct H as [Hc Hs].
    rewrite negb_true_iff in Hc. rewrite Hc, (IH _ Hs).
    assert (E : String.append (String.append cur (String c EmptyString)) s
                = String.append cur (String c s)).
    { clear. induction cur; simpl; congruence. }
    now rewrite E.
Qed.

(** X3: a doc without line boundaries yields its text stripped of
    surrounding whitespace as the only line, or nothing when that is
    empty. *)
Theorem split_doc_single_line (d : string) :
  single_line d = true ->
  split_doc (Some d)
  = match PyStr.strip d with
    | EmptyString => []
    | line => [line]
    end.
Proof.
  intros H. destruct d as [|c d]; [reflexivity|].
  assert (El : PyStr.splitlines (String c d) = [String c d]).
  { unfold PyStr.splitlines. now rewrite (splitlines_from_single_line _ _ H). }
  rewrite (split_doc_unfold _ _ _ _ El). simpl.
  now destruct (PyStr.strip (String c d)).
Qed.

Lemma split_doc_single_line_witness :
  split_doc (Some "  Very important class.  ") = ["Very important class."].
Proof.
  apply (split_doc_single_line "  Very important class.  "). reflexivity.
Defined.

(** ** The naming modifier, composed *)

(** X4: naming a property twice keeps the second name only, and naming a
    property again with the name it has stored changes nothing. *)
Theorem naming_twice (spec : Specifier) (a b : string) :
  pipeline spec (_PropertyNamer a) [_PropertyNamer b] = pipeline spec (_PropertyNamer b) []
  /\ (forall p stored,
         __ror__ (_PropertyNamer a) spec = Ok p -> Property.name p = Some stored ->
         __ror__ (_PropertyNamer stored) (SpecProperty p) = Ok p).
Proof.
  split.
  - unfold pipeline, __ror__. destruct (_make_property spec) as [q|e]; reflexivity.
  - unfold __ror__. intros p stored H Hn.
    destruct (_make_property spec) as [q|e]; simpl in *; [|discriminate].
    injection H as <-. simpl in Hn. injection Hn as <-.
    unfold Property.set_name. simpl. now rewrite rstrip_by_fixed.
Qed.

(** ** Type validation, continued *)

Lemma first_unknown_split known ts t :
  first_unknown known ts = Some t
  <-> exists pre post,
        ts = pre ++ t :: post /\ (forall x, In x pre -> In x known) /\ ~ In t known.
Proof.
  unfold first_unknown. split.
  - induction ts as [|x ts IH]; simpl; [discriminate|].
    destruct (PyStr.mem x known) eqn:E; simpl.
    + intros H. destruct (IH H) as (pre & post & -> & Hpre & Ht).
      exists (x :: pre), post. repeat split; auto.
      intros y [<-|Hy]; auto. now apply mem_In.
    + intros H. injection H as <-. exists [], ts. repeat split; auto.
      * intros y [].
      * now apply mem_false.
  - intros (pre & post & -> & Hpre & Ht).
    induction pre as [|x pre IH]; simpl.
    + apply mem_false in Ht. now rewrite Ht.
    + assert (Hx : PyStr.mem x known = true) by (apply mem_In, Hpre; now left).
      rewrite Hx. simpl. apply IH. intros y Hy. apply Hpre. now right.
Qed.

(** X5: the name in the error of [check_types] is the first unknown name
    in the order bases, derived classes, property types, [from_class],
    values of [on_arguments]. *)
Theorem check_types_first_unknown (self : Class.t) (known : list string) (t : string) :
  check_types self known = Raise (Error (String.append "Unknown type " t))
  <-> exists pre post,
        referenced_types self = pre ++ t :: post
        /\ (forall x, In x pre -> In x known) /\ ~ In t known.
Proof.
  rewrite check_types_names, <- first_unknown_split. unfold check_names.
  destruct (first_unknown known (referenced_types self)) as [t'|].
  - split.
    + intros H. injection H as H. now subst.
    + intros H. now injection H as ->.
  - split; discriminate.
Qed.

(** X6: validation only depends on which names are known, and knowing more
    names never makes it fail. *)
Theorem check_types_monotone (self : Class.t) (known known' : list string) :
  (forall t, In t known -> In t known') ->
  check_types self known = Ok tt ->
  check_types self known' = Ok tt.
Proof.
  intros Hsub H.
  rewrite check_types_names in *. unfold check_names in *.
  destruct (first_unknown known (referenced_types self)) eqn:E; [discriminate|].
  rewrite (proj2 (first_unknown_none known' (referenced_types self))); auto.
  intros t Ht. apply Hsub. now apply (first_unknown_none known (referenced_types self)).
Qed.

Lemma check_types_monotone_witness :
  let c := Class.mk "Child" ["Root"] [] [SingleProperty (Some "int")] "" [] None [] None in
  check_types c ["int"; "Root"; "Other"] = Ok tt.
Proof.
  intros c. apply (check_types_monotone c ["Root"; "int"] ["int"; "Root"; "Other"]).
  - simpl. intuition.
  - reflexivity.
Defined.

(** ** The class builder, continued *)

Lemma comprehension_Ok {A B} (f : A -> result B) xs ys :
  comprehension f xs = Ok ys <-> Forall2 (fun x y => f x = Ok y) xs ys.
Proof.
  revert ys. induction xs as [|x xs IH]; intros ys; simpl.
  - split.
    + intros H. injection H as <-. constructor.
    + intros H. inversion H. reflexivity.
  - destruct (f x) as [y|e] eqn:E; simpl.
    + destruct (comprehension f xs) as [ys'|e] eqn:Ec; simpl.
      * split.
        -- intros H. injection H as <-. constructor; auto. now apply IH.
        -- intros H. inversion H as [|? y0 ? ys0 Hy Hr]; subst.
           rewrite E in Hy. injection Hy as <-. apply IH in Hr. now injection Hr as <-.
      * split; [discriminate|]. intros H. inversion H as [|? y0 ? ys0 Hy Hr]; subst.
        apply IH in Hr. discriminate.
    + split; [discriminate|]. intros H. inversion H as [|? y0 ? ys0 Hy Hr]; subst.
      rewrite E in Hy. discriminate.
Qed.

Lemma named_property_Ok n a p :
  __ror__ (_PropertyNamer n) a = Ok p -> built_from (n, a) p.
Proof.
  unfold __ror__, built_from. destruct a as [r| |q|repr]; simpl; try discriminate;
    intros H; injection H as <-; simpl; auto.
Qed.

Lemma named_property_total n a :
  legal_specifier a = true -> exists p, __ror__ (_PropertyNamer n) a = Ok p.
Proof.
  unfold __ror__. destruct a as [r| |q|repr]; simpl; try discriminate; eauto.
Qed.

Lemma comprehension_total {A B} (f : A -> result B) xs :
  (forall x, In x xs -> exists y, f x = Ok y) -> exists ys, comprehension f xs = Ok ys.
Proof.
  induction xs as [|x xs IH]; intros H; simpl.
  - eauto.
  - destruct (H x) as (y & Hy); [now left|]. rewrite Hy. simpl.
    destruct IH as (ys & Hys); [intros x' Hx'; apply H; now right|].
    rewrite Hys. simpl. eauto.
Qed.

Lemma get_class_unfold c :
  _get_class (PyType c)
  = match PyClass.__name__ c with
    | EmptyString => Raise IndexError
    | String ch _ =>
        if PyStr.islower ch then
          Raise (Error (String.append "Class name must be capitalized, found "
                          (PyClass.__name__ c)))
        else if Nat.ltb 1 (List.length (base_groups (PyClass.__bases__ c))) then
          Raise (Error (String.append "Bases with mixed groups for " (PyClass.__name__ c)))
        else
          properties <-
            comprehension (fun '(n, a) => __ror__ (_PropertyNamer n) a) (annotations_of c) ;;
          Ok (Class.mk
                (PyClass.__name__ c)
                (map PyBase.__name__
                   (filter (fun b => negb (PyBase.is_object b)) (PyClass.__bases__ c)))
                (nodup string_dec (PyClass.__subclasses__ c))
                properties
                (match PyClass._group c with Some g => g | None => EmptyString end)
                (match PyClass._pragmas c with Some l => l | None => [] end)
                (PyClass._ipa c)
                (split_doc (PyClass.__doc__ c))
                (PyClass._doc_name c))
    end.
Proof.
  unfold _get_class, annotations_of. now destruct (PyClass.__name__ c).
Qed.

(** X7: a class object whose annotations leave [|] to the naming modifier
    is built into a [Class] exactly when its name is not empty and does not
    start with a lowercase letter, its bases carry at most one [_group]
    value, and every annotation is a type reference, the predicate marker
    or a property.  (An annotation that handles [|] itself is outside the
    embedding, see the conventions.) *)
Theorem get_class_succeeds_iff (c : PyClass.t) :
  (exists cls, _get_class (PyType c) = Ok cls)
  <-> (exists ch rest, PyClass.__name__ c = String ch rest /\ PyStr.islower ch = false)
      /\ List.length (base_groups (PyClass.__bases__ c)) <= 1
      /\ (forall n a, In (n, a) (annotations_of c) -> legal_specifier a = true).
Proof.
  rewrite get_class_unfold.
  destruct (PyClass.__name__ c) as [|ch rest].
  { split; [intros (cls & H); discriminate H|].
    intros ((ch & rest & H & _) & _). discriminate H. }
  destruct (PyStr.islower ch) eqn:Hl.
  { split; [intros (cls & H); discriminate H|].
    intros ((ch' & rest' & H & Hl') & _). injection H as <- <-. congruence. }
  destruct (Nat.ltb 1 (List.length (base_groups (PyClass.__bases__ c)))) eqn:Hm.
  { split; [intros (cls & H); discriminate H|].
    intros (_ & Hle & _). apply Nat.ltb_lt in Hm. lia. }
  apply Nat.ltb_ge in Hm.
  set (anns := annotations_of c).
  destruct (comprehension (fun '(n, a) => __ror__ (_PropertyNamer n) a) anns)
    as [props|e] eqn:Ec; cbn [bind].
  - split; [|intros _; eexists; reflexivity]. intros _.
    split; [exists ch, rest; auto|]. split; auto.
    intros n a Hin. apply comprehension_Ok in Ec.
    clear - Ec Hin. induction Ec as [|[n' a'] p l l' Hp _ IH]; [destruct Hin|].
    destruct Hin as [E|Hin]; auto. injection E as -> ->.
    apply named_property_Ok in Hp. unfold built_from in Hp. simpl in Hp.
    destruct a; auto.
  - split; [intros (cls & H); discriminate H|].
    intros (_ & _ & Hall). exfalso.
    destruct (comprehension_total (fun '(n, a) => __ror__ (_PropertyNamer n) a) anns)
      as (ys & Hys).
    + intros [n a] Hin. apply named_property_total. eapply Hall; eauto.
    + rewrite Hys in Ec. discriminate.
Qed.

(** X8: what a built class holds.  Its name is the name of the class
    object; its bases are the names of the bases other than [object], in
    order; its derived set has exactly the names of the subclasses, each
    once, so the class is final exactly when there is no subclass; its
    group is the [_group] found or the empty string; and it has one
    property per annotation, in order, with the kind and type the specifier
    gives.  The property made for a type reference or the predicate marker
    is named after its annotation with trailing underscores removed; the
    name of a property given as a [Property] object is not stated. *)
Theorem get_class_fields (c : PyClass.t) (cls : Class.t) :
  _get_class (PyType c) = Ok cls ->
  Class.name cls = PyClass.__name__ c
  /\ Class.bases cls
     = map PyBase.__name__ (filter (fun b => negb (PyBase.is_object b)) (PyClass.__bases__ c))
  /\ NoDup (Class.derived cls)
  /\ (forall d, In d (Class.derived cls) <-> In d (PyClass.__subclasses__ c))
  /\ (Class.final cls = true <-> PyClass.__subclasses__ c = [])
  /\ (Class.group cls = match PyClass._group c with Some g => g | None => EmptyString end)
  /\ Class.doc cls = split_doc (PyClass.__doc__ c)
  /\ Forall2 built_from (annotations_of c) (Class.properties cls).
Proof.
  rewrite get_class_unfold.
  destruct (PyClass.__name__ c) as [|ch rest] eqn:En; [discriminate|].
  destruct (PyStr.islower ch); [discriminate|].
  destruct (Nat.ltb 1 (List.length (base_groups (PyClass.__bases__ c)))); [discriminate|].
  set (anns := annotations_of c).
  destruct (comprehension (fun '(n, a) => __ror__ (_PropertyNamer n) a) anns)
    as [props|e] eqn:Ec; cbn [bind]; [|discriminate].
  intros H. injection H as <-. simpl.
  split; auto. split; auto. split; [apply NoDup_nodup|].
  split; [intros d; apply nodup_In|]. split.
  - unfold Class.final. simpl.
    destruct (PyClass.__subclasses__ c) as [|d l] eqn:Es; [tauto|].
    assert (Hin : In d (nodup string_dec (d :: l))) by (apply nodup_In; now left).
    destruct (nodup string_dec (d :: l)); [destruct Hin|]. split; discriminate.
  - split; auto. split; auto.
    apply comprehension_Ok in Ec.
    eapply Forall2_impl; [|exact Ec]. intros [n a] p Hp. now apply named_property_Ok.
Qed.

Lemma get_class_fields_witness :
  let c := PyClass.mk "Expr" [PyBase.mk "Node" false None]
             ["Call"; "Index"] (Some "expr") None None
             (Some [("type_", SpecRef (RefStr "string")); ("is_pure", SpecPredicateMarker)])
             None None in
  let cls := Class.mk "Expr" ["Node"] ["Call"; "Index"]
               [Property.mk Property.SINGLE (Some "type") (Some "string") false [] None [];
                Property.mk Property.PREDICATE (Some "is_pure") None false [] None []]
               "expr" [] None [] None in
  _get_class (PyType c) = Ok cls
  /\ (Class.final cls = true <-> PyClass.__subclasses__ c = [])
  /\ Forall2 built_from (annotations_of c) (Class.properties cls).
Proof.
  intros c cls.
  assert (E : _get_class (PyType c) = Ok cls) by reflexivity.
  split; [exact E|].
  destruct (get_class_fields c cls E) as (_ & _ & _ & _ & Hfinal & _ & _ & Hprops).
  split; assumption.
Defined.

(** ** When the sorter returns *)

Lemma sorter_loop_steps classes G ret0 ret :
  (forall g names, In (g, names) G -> NoDup names) ->
  agrees classes ret0 -> NoDup (keys ret0) ->
  for_fold (sorter_step classes) G ret0 = Ok ret ->
  forall g names, In (g, names) G ->
    exists inh flat,
      inheritance_of classes names = Ok inh
      /\ toposort.toposort_flatten inh = Ok flat
      /\ (forall n, In n flat -> In n (keys classes)).
Proof.
  revert ret0. induction G as [|[g names] G IH]; intros ret0 HG Ha Hr H g' names' Hin.
  - destruct Hin.
  - rewrite for_fold_cons in H.
    destruct (sorter_step classes ret0 (g, names)) as [ret1|e] eqn:Es; simpl in H;
      [|discriminate].
    assert (Hn : NoDup names) by (apply (HG g); now left).
    destruct (sorter_step_spec _ _ _ _ _ Ha Hr Hn Es)
      as (inh & flat & added & Hi & Hf & -> & Hk & Hag & Hfnd & Hnames & Hkeys).
    destruct Hin as [E|Hin].
    + injection E as <- <-. exists inh, flat. auto.
    + assert (Hr1 : NoDup (keys (ret0 ++ added))) by (eapply sorter_step_NoDup; eauto).
      assert (Ha1 : agrees classes (ret0 ++ added)) by now apply agrees_app.
      eapply (IH _ (fun g' n' Hin => HG g' n' (or_intror Hin)) Ha1 Hr1 H); eauto.
Qed.

Lemma sorter_group_sorted classes ret k c :
  NoDup (keys classes) ->
  _toposort_classes_by_group classes = Ok ret ->
  In (k, c) classes ->
  exists inh flat,
    inheritance_of classes (names_of_group (Class.group c) classes) = Ok inh
    /\ toposort.toposort_flatten inh = Ok flat
    /\ NoDup (keys inh)
    /\ In (k, Class.bases c) inh
    /\ (forall n, In n flat -> In n (keys classes)).
Proof.
  intros Hnd H Hin. rewrite sorter_unfold in H.
  assert (Hk : In k (names_of_group (Class.group c) classes)).
  { apply names_of_group_In. eauto. }
  assert (HG : In (Class.group c, names_of_group (Class.group c) classes)
                 (sorted_items (group_names classes))).
  { apply sorted_groups_In. split; auto. intros E. rewrite E in Hk. destruct Hk. }
  destruct (sorter_loop_steps classes (sorted_items (group_names classes)) [] ret)
    with (g := Class.group c) (names := names_of_group (Class.group c) classes)
    as (inh & flat & Hi & Hf & Hkeys); auto.
  - intros g names Hg. apply sorted_groups_In in Hg. destruct Hg as [-> _].
    now apply names_of_group_NoDup.
  - intros ? ? [].
  - constructor.
  - exists inh, flat.
    destruct (inheritance_of_spec _ _ _ (names_of_group_NoDup _ _ Hnd) Hi) as [Hki Hini].
    repeat split; auto.
    + rewrite Hki. now apply names_of_group_NoDup.
    + apply Hini. split; auto. exists c. split; auto. now apply In_get.
Qed.

Lemma In_values {V} (d : dict V) k v : In (k, v) d -> In v (values d).
Proof.
  intros H. unfold values. apply in_map_iff. exists (k, v). auto.
Qed.


Lemma sorter_ok_bases_are_keys classes ret :
  NoDup (keys classes) ->
  _toposort_classes_by_group classes = Ok ret ->
  bases_are_keys classes = true.
Proof.
  intros Hnd H. unfold bases_are_keys. apply forallb_forall. intros [k c] Hin.
  apply forallb_forall. intros b Hb. apply mem_In.
  destruct (sorter_group_sorted _ _ _ _ Hnd H Hin) as (inh & flat & Hi & Hf & Hndi & Hkc & Hkeys).
  apply Hkeys. destruct (toposort_flatten_spec _ _ Hndi Hf) as (Hfin & _ & _).
  apply Hfin. right. exists (Class.bases c). split; auto. eapply In_values; eauto.
Qed.




(** ** When the sorter raises *)

Lemma getitem_loop_raise {S} classes (f : S -> string -> Class.t -> S) names st e :
  for_fold (fun st name => cls <- getitem classes name ;; Ok (f st name cls)) names st
  = Raise e ->
  exists n, In n names /\ ~ In n (keys classes) /\ e = KeyError n.
Proof.
  intros H. apply for_fold_raise in H.
  destruct H as (pre & name & post & st' & -> & _ & H).
  destruct (getitem classes name) as [c|e'] eqn:E; simpl in H; [discriminate|].
  injection H as <-. exists name. split; [|split].
  - apply in_or_app. right. now left.
  - apply get_None. unfold getitem in E. now destruct (get classes name).
  - eapply getitem_raise; eauto.
Qed.

Lemma sorter_step_raise classes ret g e :
  NoDup (keys classes) ->
  sorter_step classes ret (g, names_of_group g classes) = Raise e ->
  (e = CircularDependencyError
   /\ exists inh, inheritance_of classes (names_of_group g classes) = Ok inh
                  /\ toposort.toposort_flatten inh = Raise CircularDependencyError)
  \/ (exists k n c, e = KeyError k /\ ~ In k (keys classes)
                    /\ In (n, c) classes /\ In k (Class.bases c)).
Proof.
  intros Hnd H. unfold sorter_step in H.
  set (names := names_of_group g classes) in *.
  assert (Hnames : forall n, In n names -> In n (keys classes)).
  { intros n Hn. apply names_of_group_In in Hn. destruct Hn as (c & Hc & _).
    eapply In_keys; eauto. }
  destruct (inheritance_fold_total classes names [] Hnames) as (inh & Hinh).
  fold (inheritance_of classes names) in Hinh. rewrite Hinh in H. simpl in H.
  destruct (inheritance_of_spec _ _ _ (names_of_group_NoDup g classes Hnd) Hinh) as [Hk Hin].
  destruct (toposort.toposort_flatten inh) as [flat|e2] eqn:Ef; simpl in H.
  - right. unfold store_all in H.
    apply (getitem_loop_raise classes (fun ret name cls => setitem ret name cls)) in H.
    destruct H as (k & Hkf & Hkn & ->).
    assert (Hnd' : NoDup (keys inh)) by (rewrite Hk; now apply names_of_group_NoDup).
    destruct (toposort_flatten_spec _ _ Hnd' Ef) as (Hfin & _ & _).
    apply Hfin in Hkf. destruct Hkf as [Hkf|(deps & Hdeps & Hkd)].
    + exfalso. apply Hkn, Hnames. unfold names. now rewrite <- Hk.
    + unfold values in Hdeps. apply in_map_iff in Hdeps.
      destruct Hdeps as ([x deps'] & <- & Hx). apply Hin in Hx.
      destruct Hx as (_ & c & Hc & ->). simpl in Hkd.
      exists k, x, c. repeat split; auto. now apply get_Some_In.
  - left. injection H as <-. apply toposort_flatten_raise in Ef as He. subst e2.
    split; auto. exists inh. auto.
Qed.

Lemma sorter_raise_step classes e :
  _toposort_classes_by_group classes = Raise e ->
  exists g ret, sorter_step classes ret (g, names_of_group g classes) = Raise e.
Proof.
  rewrite sorter_unfold. intros H. apply for_fold_raise in H.
  destruct H as (pre & [g names] & post & ret & HG & _ & H).
  assert (Hin : In (g, names) (sorted_items (group_names classes))).
  { rewrite HG. apply in_or_app. right. now left. }
  apply sorted_groups_In in Hin. destruct Hin as [-> _]. eauto.
Qed.

Lemma sorter_raise_key classes k :
  NoDup (keys classes) ->
  _toposort_classes_by_group classes = Raise (KeyError k) ->
  ~ In k (keys classes)
  /\ exists n c, In (n, c) classes /\ In k (Class.bases c).
Proof.
  intros Hnd H. apply sorter_raise_step in H. destruct H as (g & ret & H).
  apply sorter_step_raise in H; auto.
  destruct H as [[H _]|(k' & n & c & E & Hk & Hin & Hb)]; [discriminate|].
  injection E as ->. eauto.
Qed.

(** X10: a [KeyError] of the sorter names a base of some class that is not
    a key of the mapping. *)
Theorem sorter_key_error classes k :
  NoDup (keys classes) ->
  _toposort_classes_by_group classes = Raise (KeyError k) ->
  ~ In k (keys classes)
  /\ exists n c, In (n, c) classes /\ In k (Class.bases c).
Proof.
  intros Hnd H. now apply sorter_raise_key.
Qed.

Lemma sorter_key_error_witness :
  let classes := [("A", simple_class "A" ["int"] "")] in
  ~ In "int" (keys classes)
  /\ exists n c, In (n, c) classes /\ In "int" (Class.bases c).
Proof.
  intros classes. apply (sorter_key_error classes "int").
  - unfold classes. simpl. repeat constructor; simpl; intuition discriminate.
  - reflexivity.
Defined.

(** X11: the sorter raises [CircularDependencyError] only when the base
    relation inside some group has a cycle. *)
Theorem sorter_circular_error classes :
  NoDup (keys classes) ->
  _toposort_classes_by_group classes = Raise CircularDependencyError ->
  ~ groups_acyclic classes.
Proof.
  intros Hnd H (rank & Hrk). apply sorter_raise_step in H. destruct H as (g & ret & H).
  apply sorter_step_raise in H; auto.
  destruct H as [(_ & inh & Hinh & Hf)|(k' & n & c & E & _)]; [|discriminate].
  destruct (inheritance_of_spec _ _ _ (names_of_group_NoDup g classes Hnd) Hinh) as [Hk Hin].
  destruct (toposort_flatten_total rank inh) as (flat & Hflat); [|congruence].
  intros x deps d Hx Hd Hne Hdk. apply Hin in Hx.
  destruct Hx as (Hxn & c & Hc & ->).
  rewrite Hk in Hdk. apply names_of_group_In in Hdk, Hxn.
  destruct Hdk as (cd & Hcd & Hgd). destruct Hxn as (cx & Hcx & Hgx).
  apply (In_get _ _ _ Hnd) in Hcx. rewrite Hc in Hcx. injection Hcx as <-.
  apply (ranked_spec rank classes x c d cd Hrk); auto.
  - now apply get_Some_In.
  - now apply In_get.
  - congruence.
Qed.

Lemma sorter_circular_error_witness :
  let classes := [("A", simple_class "A" ["B"] ""); ("B", simple_class "B" ["A"] "")] in
  _toposort_classes_by_group classes = Raise CircularDependencyError
  /\ ~ groups_acyclic classes.
Proof.
  intros classes. split; [reflexivity|]. apply (sorter_circular_error classes).
  - unfold classes. simpl. repeat constructor; simpl; intuition discriminate.
  - reflexivity.
Defined.

(** ** The sorter does not depend on the declaration order *)

Lemma leb_antisym s t : String.leb s t = true -> String.leb t s = true -> s = t.
Proof.
  intros H1 H2. destruct (string_dec s t) as [|Hne]; auto.
  apply leb_ltb in H1; auto. apply ltb_asym in H1.
  apply leb_ltb in H2; auto. congruence.
Qed.

Lemma ascending_unique l l' :
  ascending l -> ascending l' -> NoDup l -> NoDup l' -> same_elements l l' -> l = l'.
Proof.
  revert l'. induction l as [|x l IH]; intros [|y l'] Ha Ha' Hn Hn' Hs; auto.
  - destruct (proj2 (Hs y)). now left.
  - destruct (proj1 (Hs x)). now left.
  - apply StronglySorted_inv in Ha, Ha'. destruct Ha as [Ha Hx], Ha' as [Ha' Hy].
    rewrite Forall_forall in Hx, Hy.
    inversion Hn as [|? ? Hxl Hn1]; inversion Hn' as [|? ? Hyl Hn1']; subst.
    assert (E : x = y).
    { destruct (proj1 (Hs x)) as [E|Hin]; [now left|auto|].
      destruct (proj2 (Hs y)) as [E|Hin']; [now left|auto|].
      apply leb_antisym; auto. }
    subst y. f_equal. apply IH; auto.
    intros z. split; intros Hz.
    + destruct (proj1 (Hs z)) as [E|Hin]; [now right| |auto]. congruence.
    + destruct (proj2 (Hs z)) as [E|Hin]; [now right| |auto]. congruence.
Qed.

Lemma sorted_set_ext xs xs' :
  same_elements xs xs' -> PyStr.sorted_set xs = PyStr.sorted_set xs'.
Proof.
  intros H. apply ascending_unique; auto using sorted_set_ascending, sorted_set_NoDup.
  intros x. rewrite !sorted_set_In. apply H.
Qed.

Lemma mem_ext xs xs' x : same_elements xs xs' -> PyStr.mem x xs = PyStr.mem x xs'.
Proof.
  intros H. destruct (PyStr.mem x xs') eqn:E.
  - apply mem_In. apply H. now apply mem_In.
  - apply mem_false. intros Hin. apply H in Hin. apply mem_In in Hin. congruence.
Qed.

Lemma same_elements_nil {A} (l : list A) : same_elements [] l -> l = [].
Proof.
  intros H. destruct l as [|x l]; auto. destruct (proj2 (H x)). now left.
Qed.

Lemma same_elements_sym {A} (l l' : list A) : same_elements l l' -> same_elements l' l.
Proof. intros H x. symmetry. apply H. Qed.

Lemma same_elements_keys {V} (d d' : dict V) :
  same_elements d d' -> same_elements (keys d) (keys d').
Proof.
  intros H k. split; intros Hk; apply keys_In in Hk; destruct Hk as (v & Hv);
    apply H in Hv; eapply In_keys; eauto.
Qed.

Lemma ready_ext d d' :
  same_elements d d' -> same_elements (toposort.ready d) (toposort.ready d').
Proof.
  intros H x. rewrite !ready_In. apply H.
Qed.

Lemma remove_ordered_ext o o' d d' :
  same_elements o o' -> same_elements d d' ->
  same_elements (toposort.remove_ordered o d) (toposort.remove_ordered o' d').
Proof.
  intros Ho Hd [k deps]. unfold toposort.remove_ordered. rewrite !in_map_iff.
  split; intros ([k' deps'] & E & Hin); apply filter_In in Hin; destruct Hin as [Hin Hk];
    injection E as <- <-; exists (k', deps'); (split; [|apply filter_In; split]).
  - f_equal. apply filter_ext. intros e. f_equal. symmetry. now apply mem_ext.
  - now apply Hd.
  - now rewrite <- (mem_ext o o').
  - f_equal. apply filter_ext. intros e. f_equal. now apply mem_ext.
  - now apply Hd.
  - now rewrite (mem_ext o o').
Qed.

Lemma rounds_ext fuel d d' :
  same_elements d d' -> same_batches (toposort.rounds fuel d) (toposort.rounds fuel d').
Proof.
  revert d d'. induction fuel as [|fuel IH]; intros d d' H; [reflexivity|].
  rewrite !rounds_unfold. pose proof (ready_ext _ _ H) as Hr.
  destruct (toposort.ready d) as [|x o] eqn:E; destruct (toposort.ready d') as [|x' o'] eqn:E'.
  - destruct d as [|kv d].
    + apply same_elements_nil in H. subst d'. constructor.
    + destruct d' as [|kv' d']; [|reflexivity].
      apply same_elements_sym, same_elements_nil in H. discriminate.
  - apply same_elements_nil in Hr. discriminate.
  - apply same_elements_sym, same_elements_nil in Hr. discriminate.
  - cbv zeta.
    specialize (IH _ _ (remove_ordered_ext _ _ _ _ Hr H)).
    unfold same_batches in IH.
    destruct (toposort.rounds fuel (toposort.remove_ordered (x :: o) d)) as [b|e];
      destruct (toposort.rounds fuel (toposort.remove_ordered (x' :: o') d')) as [b'|e'];
      simpl; auto.
Qed.

Lemma discard_self_ext d d' :
  same_elements d d' -> same_elements (toposort.discard_self d) (toposort.discard_self d').
Proof.
  intros H [k deps]. rewrite !In_discard_self.
  split; intros (deps0 & Hin & E); exists deps0; split; auto; now apply H.
Qed.

Lemma same_elements_values {V} (d d' : dict V) :
  same_elements d d' -> same_elements (values d) (values d').
Proof.
  intros H v. unfold values. rewrite !in_map_iff.
  split; intros (kv & E & Hin); exists kv; split; auto; now apply H.
Qed.

Lemma prepared_ext d d' :
  same_elements d d' -> same_elements (prepared d) (prepared d').
Proof.
  intros H. unfold prepared. pose proof (discard_self_ext _ _ H) as Hd.
  intros kv. rewrite !in_app_iff, !in_map_iff.
  assert (He : forall x, In x (toposort.extra_items_in_deps (toposort.discard_self d))
                         <-> In x (toposort.extra_items_in_deps (toposort.discard_self d'))).
  { intros x. rewrite !extra_items_In.
    pose proof (same_elements_keys _ _ Hd x) as Hk.
    assert (Hv : (exists deps, In deps (values (toposort.discard_self d)) /\ In x deps)
                 <-> (exists deps, In deps (values (toposort.discard_self d')) /\ In x deps)).
    { split; intros (deps & Hin & Hx); exists deps; split; auto;
        now apply (same_elements_values _ _ Hd). }
    tauto. }
  split; (intros [Hin|(x & E & Hx)]; [left; now apply Hd|right; exists x; split; auto; now apply He]).
Qed.

Lemma concat_sorted_ext b b' :
  Forall2 same_elements b b' ->
  concat (map PyStr.sorted_set b) = concat (map PyStr.sorted_set b').
Proof.
  induction 1 as [|x y b b' Hxy _ IH]; simpl; auto.
  now rewrite IH, (sorted_set_ext _ _ Hxy).
Qed.

Lemma toposort_flatten_ext d d' :
  same_elements d d' -> toposort.toposort_flatten d = toposort.toposort_flatten d'.
Proof.
  intros H. unfold toposort.toposort_flatten.
  destruct d as [|kv d]; destruct d' as [|kv' d'].
  - reflexivity.
  - apply same_elements_nil in H. discriminate.
  - apply same_elements_sym, same_elements_nil in H. discriminate.
  - rewrite !toposort_unfold.
    set (p := prepared (kv :: d)). set (p' := prepared (kv' :: d')).
    set (fuel := S (Nat.max (List.length p) (List.length p'))).
    rewrite (rounds_fuel _ fuel p), (rounds_fuel _ fuel p'); unfold fuel; try lia.
    pose proof (rounds_ext (S (Nat.max (List.length p) (List.length p'))) p p'
                  (prepared_ext _ _ H)) as Hb.
    unfold same_batches in Hb.
    destruct (toposort.rounds _ p) as [b|e]; destruct (toposort.rounds _ p') as [b'|e'];
      simpl; try contradiction.
    + f_equal. now apply concat_sorted_ext.
    + now subst.
Qed.

Lemma for_fold_ext {A S} (f g : S -> A -> result S) xs st :
  (forall s x, f s x = g s x) -> for_fold f xs st = for_fold g xs st.
Proof.
  intros H. revert st. induction xs as [|x xs IH]; intros st; auto.
  rewrite !for_fold_cons, H. destruct (g st x); simpl; auto.
Qed.

Lemma get_perm (classes classes' : dict Class.t) k :
  NoDup (keys classes) -> Permutation classes classes' ->
  get classes' k = get classes k.
Proof.
  intros Hnd Hp.
  assert (Hnd' : NoDup (keys classes')).
  { eapply Permutation_NoDup; [|exact Hnd]. unfold keys. now apply Permutation_map. }
  destruct (get classes k) as [c|] eqn:E.
  - apply In_get; auto. eapply Permutation_in; eauto. now apply get_Some_In.
  - apply get_None. apply get_None in E. intros Hin. apply E.
    apply keys_In in Hin. destruct Hin as (v & Hv).
    eapply In_keys, Permutation_in; [symmetry|]; eauto.
Qed.

Lemma names_of_group_perm classes classes' g :
  Permutation classes classes' ->
  same_elements (names_of_group g classes) (names_of_group g classes').
Proof.
  intros Hp n. rewrite !names_of_group_In.
  split; intros (c & Hin & Hg); exists c; split; auto.
  - eapply Permutation_in; eauto.
  - eapply Permutation_in; [symmetry|]; eauto.
Qed.

Lemma sorted_groups_keys classes g :
  In g (keys (sorted_items (group_names classes))) <-> names_of_group g classes <> [].
Proof.
  split.
  - intros H. apply keys_In in H. destruct H as (names & H).
    apply sorted_groups_In in H. destruct H as [-> H]. exact H.
  - intros H. apply (In_keys _ _ (names_of_group g classes)).
    apply sorted_groups_In. auto.
Qed.

Lemma sorted_groups_perm classes classes' :
  Permutation classes classes' ->
  keys (sorted_items (group_names classes')) = keys (sorted_items (group_names classes)).
Proof.
  intros Hp. apply ascending_unique.
  - apply sorted_items_ascending.
  - apply sorted_items_ascending.
  - apply sorted_items_NoDup, group_names_NoDup.
  - apply sorted_items_NoDup, group_names_NoDup.
  - intros g. rewrite !sorted_groups_keys.
    pose proof (names_of_group_perm _ _ g Hp) as Hs.
    split; intros Hne E; apply Hne; rewrite E in Hs.
    + now apply same_elements_nil in Hs.
    + now apply same_elements_sym, same_elements_nil in Hs.
Qed.

Lemma sorted_groups_map classes :
  sorted_items (group_names classes)
  = map (fun g => (g, names_of_group g classes)) (keys (sorted_items (group_names classes))).
Proof.
  assert (H : forall g names, In (g, names) (sorted_items (group_names classes)) ->
                              names = names_of_group g classes).
  { intros g names Hin. now apply sorted_groups_In in Hin. }
  induction (sorted_items (group_names classes)) as [|[g names] G IH]; simpl; auto.
  rewrite <- IH.
  - f_equal. f_equal. apply H. now left.
  - intros g' names' Hin. apply H. now right.
Qed.

Lemma sorter_step_perm classes classes' ret g :
  NoDup (keys classes) -> Permutation classes classes' ->
  sorter_step classes' ret (g, names_of_group g classes')
  = sorter_step classes ret (g, names_of_group g classes).
Proof.
  intros Hnd Hp.
  assert (Hnd' : NoDup (keys classes')).
  { eapply Permutation_NoDup; [|exact Hnd]. unfold keys. now apply Permutation_map. }
  unfold sorter_step.
  set (names := names_of_group g classes). set (names' := names_of_group g classes').
  assert (Hnames : forall n, In n names -> In n (keys classes)).
  { intros n Hn. apply names_of_group_In in Hn. destruct Hn as (c & Hc & _).
    eapply In_keys; eauto. }
  assert (Hnames' : forall n, In n names' -> In n (keys classes')).
  { intros n Hn. apply names_of_group_In in Hn. destruct Hn as (c & Hc & _).
    eapply In_keys; eauto. }
  destruct (inheritance_fold_total classes names [] Hnames) as (inh & Hinh).
  destruct (inheritance_fold_total classes' names' [] Hnames') as (inh' & Hinh').
  fold (inheritance_of classes names) in Hinh.
  fold (inheritance_of classes' names') in Hinh'.
  rewrite Hinh, Hinh'. simpl.
  destruct (inheritance_of_spec _ _ _ (names_of_group_NoDup g classes Hnd) Hinh) as [_ Hin].
  destruct (inheritance_of_spec _ _ _ (names_of_group_NoDup g classes' Hnd') Hinh') as [_ Hin'].
  assert (Hs : same_elements inh' inh).
  { intros [n deps]. rewrite Hin, Hin'.
    pose proof (names_of_group_perm _ _ g Hp n) as Hn. fold names names' in Hn.
    rewrite (get_perm _ _ n Hnd Hp). tauto. }
  rewrite (toposort_flatten_ext _ _ Hs).
  destruct (toposort.toposort_flatten inh) as [flat|e]; simpl; auto.
  unfold store_all. apply for_fold_ext. intros s x.
  unfold getitem. now rewrite (get_perm _ _ x Hnd Hp).
Qed.

Lemma sorter_perm classes classes' :
  NoDup (keys classes) -> Permutation classes classes' ->
  _toposort_classes_by_group classes' = _toposort_classes_by_group classes.
Proof.
  intros Hnd Hp. rewrite !sorter_unfold.
  rewrite (sorted_groups_map classes), (sorted_groups_map classes').
  rewrite (sorted_groups_perm _ _ Hp).
  generalize (@nil (string * Class.t)).
  induction (keys (sorted_items (group_names classes))) as [|g K IH]; intros ret; auto.
  simpl map. rewrite !for_fold_cons, (sorter_step_perm _ _ ret g Hnd Hp).
  destruct (sorter_step classes ret (g, names_of_group g classes)); simpl; auto.
Qed.

(** X12: the result of the sorter, a mapping or an error, does not depend on
    the order in which the classes are declared. *)
Theorem sorter_ignores_declaration_order classes classes' :
  NoDup (keys classes) -> Permutation classes classes' ->
  _toposort_classes_by_group classes' = _toposort_classes_by_group classes.
Proof.
  intros Hnd Hp. now apply sorter_perm.
Qed.

Lemma sorter_ignores_declaration_order_witness :
  _toposort_classes_by_group [("B", simple_class "B" ["Root"] "g");
                              ("A", simple_class "A" ["Root"; "B"] "g");
                              ("Root", simple_class "Root" [] "")]
  = _toposort_classes_by_group [("Root", simple_class "Root" [] "");
                                ("B", simple_class "B" ["Root"] "g");
                                ("A", simple_class "A" ["Root"; "B"] "g")].
Proof.
  apply sorter_ignores_declaration_order.
  - simpl. repeat constructor; simpl; intuition discriminate.
  - apply (Permutation_cons_append [_; _]).
Defined.

(** X13: sorting a sorted mapping again changes nothing. *)
Theorem sorter_idempotent classes ret :
  NoDup (keys classes) ->
  _toposort_classes_by_group classes = Ok ret ->
  _toposort_classes_by_group ret = Ok ret.
Proof.
  intros Hnd H. destruct (sorter_reorders_when_ok _ _ Hnd H) as (Hp & _ & _).
  rewrite <- H. apply sorter_perm; auto. now apply Permutation_sym.
Qed.

Lemma sorter_idempotent_witness :
  let ret := [("Root", simple_class "Root" [] "");
              ("A", simple_class "A" ["Root"] "g");
              ("B", simple_class "B" ["Root"] "g")] in
  _toposort_classes_by_group ret = Ok ret.
Proof.
  intros ret.
  apply (sorter_idempotent [("Root", simple_class "Root" [] "");
                            ("B", simple_class "B" ["Root"] "g");
                            ("A", simple_class "A" ["Root"] "g")]).
  - simpl. repeat constructor; simpl; intuition discriminate.
  - reflexivity.
Defined.

(** ** The rounds of the sort *)

Lemma list_max_removed (f g : string -> nat) (ordered deps : list string) :
  (forall d, In d deps -> f d = if PyStr.mem d ordered then 0 else S (g d)) ->
  list_max (map f deps)
  = level_above g (filter (fun e => negb (PyStr.mem e ordered)) deps).
Proof.
  induction deps as [|d deps IH]; intros H; [reflexivity|].
  assert (IH' := IH (fun d' Hd' => H d' (or_intror Hd'))). clear IH.
  simpl map. simpl list_max. simpl filter. rewrite IH', (H d (or_introl eq_refl)).
  destruct (PyStr.mem d ordered); simpl.
  - reflexivity.
  - unfold level_above.
    destruct (filter (fun e => negb (PyStr.mem e ordered)) deps); simpl; lia.
Qed.

Lemma batch_of_cons x batch rest :
  batch_of x (batch :: rest)
  = if PyStr.mem x batch then Some 0
    else match batch_of x rest with
         | Some i => Some (S i)
         | None => None
         end.
Proof. reflexivity. Qed.

Lemma batch_of_In x batches : In x (concat batches) -> exists i, batch_of x batches = Some i.
Proof.
  induction batches as [|b batches IH]; simpl; [intros []|].
  intros H. destruct (PyStr.mem x b) eqn:E; [eauto|].
  apply in_app_or in H. destruct H as [H|H].
  - apply mem_In in H. congruence.
  - destruct (IH H) as (i & ->). eauto.
Qed.

Lemma batch_of_Some x batches i :
  batch_of x batches = Some i -> In x (concat batches) /\ i < List.length batches.
Proof.
  revert i. induction batches as [|b batches IH]; simpl; intros i H; [discriminate|].
  destruct (PyStr.mem x b) eqn:E.
  - injection H as <-. split; [|lia]. apply in_or_app. left. now apply mem_In.
  - destruct (batch_of x batches) as [j|]; [|discriminate]. injection H as <-.
    destruct (IH j eq_refl). split; [|lia]. apply in_or_app. now right.
Qed.

Lemma round_of_cons batches ordered x :
  In x (concat batches) ->
  round_of (ordered :: batches) x = if PyStr.mem x ordered then 0 else S (round_of batches x).
Proof.
  intros H. unfold round_of. simpl. destruct (PyStr.mem x ordered); auto.
  destruct (batch_of_In _ _ H) as (i & ->). reflexivity.
Qed.

(** A name is yielded in the round after the last of its dependencies, and
    in the first round when it has none. *)
Lemma rounds_levels fuel data batches :
  NoDup (keys data) -> closed data ->
  toposort.rounds fuel data = Ok batches ->
  forall x deps, In (x, deps) data ->
    batch_of x batches = Some (level_above (round_of batches) deps).
Proof.
  revert data batches. induction fuel as [|fuel IH]; intros data batches Hnd Hcl H x deps Hin;
    [discriminate|].
  rewrite rounds_unfold in H.
  destruct (toposort.ready data) as [|r ordered] eqn:Er.
  { destruct data; [destruct Hin|discriminate]. }
  cbv zeta in H. bind_ok H as rest eqn:Erest. injection H as <-.
  set (o := r :: ordered) in *.
  assert (Hnd' := remove_ordered_NoDup o data Hnd).
  assert (Hcl' := remove_ordered_closed o data Hcl).
  specialize (IH _ _ Hnd' Hcl' Erest).
  destruct (rounds_spec _ _ _ Hnd' Hcl' Erest) as (Hrest & _ & _).
  assert (Hready : forall y, PyStr.mem y o = true <-> In (y, []) data).
  { intros y. rewrite mem_In, <- Er. apply ready_In. }
  rewrite batch_of_cons.
  destruct deps as [|d deps].
  - apply Hready in Hin. now rewrite Hin.
  - destruct (PyStr.mem x o) eqn:Ex.
    + apply Hready in Ex. apply (In_get _ _ _ Hnd) in Ex, Hin. congruence.
    + assert (Hin' : In (x, filter (fun e => negb (PyStr.mem e o)) (d :: deps))
                        (toposort.remove_ordered o data)).
      { apply In_remove_ordered. eauto. }
      rewrite (IH _ _ Hin'). f_equal. unfold level_above at 2. f_equal.
      symmetry. apply list_max_removed. intros e He.
      destruct (PyStr.mem e o) eqn:Ee.
      * unfold round_of. now rewrite batch_of_cons, Ee.
      * rewrite round_of_cons, Ee; auto.
        apply Hrest. rewrite keys_remove_ordered. apply filter_In. split.
        -- eapply Hcl; eauto.
        -- now rewrite Ee.
Qed.

Lemma rounds_length fuel data batches :
  toposort.rounds fuel data = Ok batches -> List.length batches <= List.length data.
Proof.
  revert data batches. induction fuel as [|fuel IH]; intros data batches H; [discriminate|].
  rewrite rounds_unfold in H.
  destruct (toposort.ready data) as [|r ordered] eqn:Er.
  { destruct data; [|discriminate]. injection H as <-. auto. }
  cbv zeta in H. bind_ok H as rest eqn:Erest. injection H as <-.
  apply IH in Erest. simpl.
  assert (Hlt : List.length (toposort.remove_ordered (r :: ordered) data) < List.length data).
  { apply (length_remove_ordered _ _ r); [now left|]. apply ready_keys. rewrite Er. now left. }
  lia.
Qed.

Lemma batch_of_earlier x y batches i j :
  batch_of x batches = Some i -> batch_of y batches = Some j -> i < j ->
  earlier_batch x y batches.
Proof.
  revert i j. induction batches as [|b batches IH]; simpl; intros i j Hx Hy Hlt; [discriminate|].
  destruct (PyStr.mem x b) eqn:Ex.
  - injection Hx as <-. destruct (PyStr.mem y b) eqn:Ey.
    + injection Hy as <-. lia.
    + destruct (batch_of y batches) as [j'|] eqn:Ej; [|discriminate].
      exists [b], batches. simpl. rewrite app_nil_r. repeat split.
      * now apply mem_In.
      * now apply batch_of_Some in Ej.
  - destruct (batch_of x batches) as [i'|] eqn:Ei; [|discriminate]. injection Hx as <-.
    destruct (PyStr.mem y b); [injection Hy as <-; lia|].
    destruct (batch_of y batches) as [j'|] eqn:Ej; [|discriminate]. injection Hy as <-.
    destruct (IH i' j' eq_refl eq_refl) as (b1 & b2 & -> & H1 & H2); [lia|].
    exists (b :: b1), b2. simpl. repeat split; auto. apply in_or_app. now right.
Qed.

Lemma batch_of_same x y batches i :
  batch_of x batches = Some i -> batch_of y batches = Some i ->
  exists batch, In batch batches /\ In x batch /\ In y batch.
Proof.
  revert i. induction batches as [|b batches IH]; simpl; intros i Hx Hy; [discriminate|].
  destruct (PyStr.mem x b) eqn:Ex.
  - injection Hx as <-. destruct (PyStr.mem y b) eqn:Ey.
    + exists b. repeat split; auto; now apply mem_In.
    + destruct (batch_of y batches); discriminate.
  - destruct (batch_of x batches) as [i'|] eqn:Ei; [|discriminate]. injection Hx as <-.
    destruct (PyStr.mem y b); [discriminate|].
    destruct (batch_of y batches) as [j'|] eqn:Ej; [|discriminate]. injection Hy as ->.
    destruct (IH i' eq_refl eq_refl) as (batch & Hb & H1 & H2). exists batch. auto.
Qed.

(** ** Depth in a group *)

Section group_levels.

Variable classes : dict Class.t.
Variable g : string.
Variable inh : toposort.table.
Variable batches : list (list string).
Hypothesis Hnd : NoDup (keys classes).
Hypothesis Hinh : inheritance_of classes (names_of_group g classes) = Ok inh.
Hypothesis Hbatches : toposort.toposort inh = Ok batches.

Lemma group_table_rounds :
  NoDup (keys (prepared inh))
  /\ (inh <> [] ->
      toposort.rounds (S (List.length (prepared inh))) (prepared inh) = Ok batches).
Proof.
  destruct (inheritance_of_spec _ _ _ (names_of_group_NoDup g classes Hnd) Hinh) as [Hk _].
  split.
  - apply prepared_NoDup. rewrite Hk. now apply names_of_group_NoDup.
  - intros Hne. destruct inh as [|kv data]; [congruence|].
    now rewrite <- toposort_unfold.
Qed.

Lemma group_round_class k c :
  In (k, c) classes -> Class.group c = g ->
  batch_of k batches = Some (level_above (round_of batches) (proper_bases k c)).
Proof.
  intros Hin Hg.
  destruct (inheritance_of_spec _ _ _ (names_of_group_NoDup g classes Hnd) Hinh) as [Hk Hi].
  assert (Hkc : In (k, Class.bases c) inh).
  { apply Hi. split.
    - apply names_of_group_In. eauto.
    - exists c. split; auto. now apply In_get. }
  destruct group_table_rounds as [Hp Hr].
  assert (Hne : inh <> []) by (intros E; rewrite E in Hkc; destruct Hkc).
  apply (rounds_levels _ _ _ Hp (prepared_closed inh) (Hr Hne)).
  apply In_prepared. left. apply In_discard_self. exists (Class.bases c). auto.
Qed.

Lemma group_round_other k :
  (forall c, get classes k = Some c -> Class.group c <> g) ->
  round_of batches k = 0.
Proof.
  intros Hk. unfold round_of. destruct (batch_of k batches) as [i|] eqn:E; auto.
  destruct (inheritance_of_spec _ _ _ (names_of_group_NoDup g classes Hnd) Hinh) as [Hki Hi].
  destruct group_table_rounds as [Hp Hr].
  destruct inh as [|kv data] eqn:Einh.
  { simpl in Hbatches. injection Hbatches as <-. discriminate E. }
  rewrite <- Einh in *.
  assert (Hne : inh <> []) by (rewrite Einh; discriminate).
  specialize (Hr Hne).
  destruct (rounds_spec _ _ _ Hp (prepared_closed inh) Hr) as (Hin & _ & _).
  apply batch_of_Some in E as E'. destruct E' as [Hc _].
  apply Hin in Hc. rewrite keys_prepared in Hc. apply in_app_or in Hc.
  destruct Hc as [Hc|Hc].
  - exfalso. rewrite Hki in Hc. apply names_of_group_In in Hc.
    destruct Hc as (c & Hc & Hg). apply (Hk c); auto. now apply In_get.
  - assert (He : In (k, []) (prepared inh)) by (apply In_prepared; auto).
    rewrite (rounds_levels _ _ _ Hp (prepared_closed inh) Hr _ _ He) in E.
    simpl in E. congruence.
Qed.

Lemma level_above_ext (f h : string -> nat) deps :
  (forall d, In d deps -> f d = h d) -> level_above f deps = level_above h deps.
Proof.
  intros H. unfold level_above. destruct deps as [|d deps]; auto.
  f_equal. f_equal. now apply map_ext_in.
Qed.

Lemma level_above_lt (f : string -> nat) deps d :
  In d deps -> f d < level_above f deps.
Proof.
  intros H. unfold level_above. destruct deps as [|d' deps]; [destruct H|].
  assert (Hle : list_max (map f (d' :: deps)) <= list_max (map f (d' :: deps))) by lia.
  apply list_max_le in Hle. rewrite Forall_forall in Hle.
  specialize (Hle (f d) (in_map f _ _ H)). lia.
Qed.

Lemma depth_in_round fuel k :
  round_of batches k < fuel -> depth_in fuel classes g k = round_of batches k.
Proof.
  revert k. induction fuel as [|fuel IH]; intros k Hlt; [lia|].
  simpl. destruct (get classes k) as [c|] eqn:Ec.
  - destruct (String.eqb_spec (Class.group c) g) as [Hg|Hg].
    + pose proof (group_round_class k c (get_Some_In _ _ _ Ec) Hg) as Hk.
      assert (Hr : round_of batches k = level_above (round_of batches) (proper_bases k c)).
      { unfold round_of at 1. now rewrite Hk. }
      rewrite Hr. apply level_above_ext. intros d Hd. apply IH.
      pose proof (level_above_lt (round_of batches) _ _ Hd). lia.
    + symmetry. apply group_round_other. intros c' Hc'. congruence.
  - symmetry. apply group_round_other. intros c' Hc'. congruence.
Qed.

Lemma round_of_bound k :
  (forall n, In n (concat batches) -> In n (keys classes)) ->
  round_of batches k <= List.length classes.
Proof.
  intros Hsub. unfold round_of. destruct (batch_of k batches) as [i|] eqn:E; [|lia].
  apply batch_of_Some in E. destruct E as [_ Hi].
  destruct group_table_rounds as [Hp Hr].
  destruct inh as [|kv data] eqn:Einh.
  { simpl in Hbatches. injection Hbatches as <-. simpl in Hi. lia. }
  rewrite <- Einh in *.
  assert (Hne : inh <> []) by (rewrite Einh; discriminate).
  specialize (Hr Hne).
  destruct (rounds_spec _ _ _ Hp (prepared_closed inh) Hr) as (Hin & _ & _).
  apply rounds_length in Hr as Hl.
  assert (Hincl : incl (keys (prepared inh)) (keys classes)).
  { intros n Hn. apply Hsub, Hin, Hn. }
  apply (NoDup_incl_length Hp) in Hincl.
  unfold keys in Hincl. rewrite !length_map in Hincl. lia.
Qed.

End group_levels.

Lemma sorter_group_batches classes ret k c :
  NoDup (keys classes) ->
  _toposort_classes_by_group classes = Ok ret ->
  In (k, c) classes ->
  exists inh batches,
    inheritance_of classes (names_of_group (Class.group c) classes) = Ok inh
    /\ toposort.toposort inh = Ok batches
    /\ NoDup (concat batches)
    /\ (forall n, In n (concat batches) -> In n (keys classes)).
Proof.
  intros Hnd Hs Hin.
  destruct (sorter_group_sorted _ _ _ _ Hnd Hs Hin) as (inh & flat & Hi & Hf & Hndi & _ & Hsub).
  unfold toposort.toposort_flatten in Hf.
  destruct (toposort.toposort inh) as [batches|e] eqn:Eb; simpl in Hf; [|discriminate].
  injection Hf as <-. exists inh, batches. repeat split; auto.
  - now destruct (toposort_spec _ _ Hndi Eb) as (_ & H & _).
  - intros n Hn. apply Hsub. now apply concat_sorted_In.
Qed.

Lemma group_depth_round classes inh batches k c :
  NoDup (keys classes) ->
  inheritance_of classes (names_of_group (Class.group c) classes) = Ok inh ->
  toposort.toposort inh = Ok batches ->
  (forall n, In n (concat batches) -> In n (keys classes)) ->
  In (k, c) classes ->
  group_depth classes k = round_of batches k
  /\ batch_of k batches = Some (round_of batches k).
Proof.
  intros Hnd Hi Hb Hsub Hin. split.
  - unfold group_depth. rewrite (In_get _ _ _ Hnd Hin).
    apply (depth_in_round classes (Class.group c) inh batches Hnd Hi Hb).
    pose proof (round_of_bound classes (Class.group c) inh batches Hnd Hi Hb k Hsub). lia.
  - pose proof (group_round_class classes (Class.group c) inh batches Hnd Hi Hb k c Hin eq_refl)
      as H.
    unfold round_of. now rewrite H.
Qed.

Lemma ltb_total x y : x <> y -> String.ltb x y = false -> String.ltb y x = true.
Proof.
  intros Hne H. destruct (String.leb_total x y) as [Hl|Hl].
  - rewrite (leb_ltb _ _ Hl Hne) in H. discriminate.
  - apply leb_ltb; auto.
Qed.

Lemma depth_then_name_total classes x y :
  x <> y -> depth_then_name classes x y = false -> depth_then_name classes y x = true.
Proof.
  unfold depth_then_name. intros Hne H.
  apply orb_false_iff in H. destruct H as [H1 H2]. apply Nat.ltb_ge in H1.
  destruct (Nat.eqb_spec (group_depth classes x) (group_depth classes y)) as [E|E].
  - simpl in H2. rewrite E, Nat.eqb_refl, (ltb_total _ _ Hne H2). apply orb_true_r.
  - assert (Hlt : group_depth classes y < group_depth classes x) by lia.
    apply Nat.ltb_lt in Hlt. now rewrite Hlt.
Qed.

Lemma sorter_depth_order classes ret x y cx cy :
  NoDup (keys classes) ->
  base_groups_not_later classes = true ->
  _toposort_classes_by_group classes = Ok ret ->
  In (x, cx) classes -> In (y, cy) classes -> Class.group cx = Class.group cy ->
  depth_then_name classes x y = true ->
  occurs_before x y (keys ret) = true.
Proof.
  intros Hnd Hle Hs Hx Hy Hg Hd.
  destruct (sorter_group_batches _ _ _ _ Hnd Hs Hx) as (inh & batches & Hi & Hb & Hndb & Hsub).
  destruct (group_depth_round _ _ _ _ _ Hnd Hi Hb Hsub Hx) as [Dx Bx].
  rewrite Hg in Hi.
  destruct (group_depth_round _ _ _ _ _ Hnd Hi Hb Hsub Hy) as [Dy By].
  rewrite <- Hg in Hi.
  set (g := Class.group cx) in *.
  assert (Hxn : In x (names_of_group g classes)) by (apply names_of_group_In; eauto).
  assert (Hyn : In y (names_of_group g classes)) by (apply names_of_group_In; eauto).
  assert (Hgb : group_batches classes g = Ok batches).
  { unfold group_batches. now rewrite Hi. }
  apply (group_precedes classes ret g); auto.
  rewrite (group_batches_flatten _ _ _ Hgb).
  apply precedes_filter; try now apply mem_In.
  unfold depth_then_name in Hd. rewrite Dx, Dy in Hd.
  apply orb_true_iff in Hd. destruct Hd as [Hd|Hd].
  - apply Nat.ltb_lt in Hd. apply earlier_batch_precedes.
    eapply batch_of_earlier; eauto.
  - apply andb_true_iff in Hd. destruct Hd as [He Hlt]. apply Nat.eqb_eq in He.
    rewrite He in Bx.
    destruct (batch_of_same _ _ _ _ Bx By) as (batch & Hin & H1 & H2).
    eapply same_batch_precedes; eauto.
Qed.

(** C4 (amended): when no class has a base filed under a later group than
    its own, two classes of one group appear in the output in the order of
    their depth in the group, and classes of the same depth, which have no
    ordering constraint between them, in ascending lexicographic order of
    their names.  The depth of a class without bases is 0, the depth of any
    other class is one more than the greatest depth of its bases, a base of
    another group counting 0.  The output is the same for every declaration
    order of the classes. *)
Theorem sorter_ties_by_name (classes ret : dict Class.t) (x y : string) (cx cy : Class.t) :
  NoDup (keys classes) ->
  base_groups_not_later classes = true ->
  _toposort_classes_by_group classes = Ok ret ->
  In (x, cx) classes -> In (y, cy) classes -> Class.group cx = Class.group cy ->
  occurs_before x y (keys ret) = depth_then_name classes x y
  /\ (forall classes', Permutation classes classes' ->
                       _toposort_classes_by_group classes' = Ok ret).
Proof.
  intros Hnd Hle Hs Hx Hy Hg. split.
  - destruct (string_dec x y) as [->|Hne].
    + unfold depth_then_name, occurs_before.
      rewrite Nat.ltb_irrefl, ltb_irrefl, andb_false_r.
      destruct (index_of y (keys ret)); auto. apply Nat.ltb_irrefl.
    + destruct (depth_then_name classes x y) eqn:Hd.
      * eapply sorter_depth_order; eauto.
      * apply occurs_before_asym.
        apply (sorter_depth_order classes ret y x cy cx); auto.
        now apply depth_then_name_total.
  - intros classes' Hp. rewrite <- Hs. now apply sorter_perm.
Qed.

(** C4 at work on the mapping of the counterexample: [B] and [A] have the
    same depth and come out by name, [Root] is less deep than [B]. *)
Lemma sorter_ties_by_name_witness :
  let classes := [("Root", simple_class "Root" [] "");
                  ("B", simple_class "B" ["Root"] "");
                  ("A", simple_class "A" ["Root"] "")] in
  let ret := [("Root", simple_class "Root" [] "");
              ("A", simple_class "A" ["Root"] "");
              ("B", simple_class "B" ["Root"] "")] in
  _toposort_classes_by_group classes = Ok ret
  /\ map (group_depth classes) ["Root"; "A"; "B"] = [0; 1; 1]
  /\ occurs_before "B" "A" (keys ret) = false
  /\ occurs_before "Root" "B" (keys ret) = true.
Proof.
  intros classes ret.
  assert (Hnd : NoDup (keys classes)).
  { unfold classes. simpl. repeat constructor; simpl; intuition discriminate. }
  assert (Hle : base_groups_not_later classes = true) by reflexivity.
  assert (Hs : _toposort_classes_by_group classes = Ok ret) by reflexivity.
  split; [exact Hs|]. split; [reflexivity|]. split.
  - destruct (sorter_ties_by_name classes ret "B" "A" (simple_class "B" ["Root"] "")
                (simple_class "A" ["Root"] "") Hnd Hle Hs) as [H _];
      [simpl; auto|simpl; auto|reflexivity|].
    rewrite H. reflexivity.
  - destruct (sorter_ties_by_name classes ret "Root" "B" (simple_class "Root" [] "")
                (simple_class "B" ["Root"] "") Hnd Hle Hs) as [H _];
      [simpl; auto|simpl; auto|reflexivity|].
    rewrite H. reflexivity.
Defined.

(** ** The sorter on acyclic and on cyclic input *)






(** ** The loader: what a schema holds *)

Section loader_entries.

Variable defs_has : string -> bool.
Variable known : list string.

Lemma load_step_Ok inc cl name data inc' cl' :
  load_step defs_has known (inc, cl) (name, data) = Ok (inc', cl') ->
  (is_class_entry defs_has name = false /\ cl' = cl
   /\ inc' = includes_after defs_has inc (name, data))
  \/ (is_class_entry defs_has name = true /\ inc' = inc
      /\ exists cls,
           _get_class data = Ok cls /\ check_types cls known = Ok tt
           /\ (is_nil cl = true \/ Class.bases cls <> [])
           /\ cl' = setitem cl name cls).
Proof.
  unfold load_step, is_class_entry, includes_after. simpl fst. simpl snd.
  destruct (defs_has name) eqn:Hd; simpl.
  { intros H. injection H as <- <-. auto. }
  destruct (String.eqb name "__includes") eqn:Hi; simpl.
  { destruct data as [|s [items|]]; try discriminate.
    intros H. injection H as <- <-. auto. }
  destruct (PyStr.startswith name "__") eqn:Hs; simpl.
  { intros H. injection H as <- <-. auto. }
  destruct (_get_class data) as [cls|e]; simpl; [|discriminate].
  destruct (is_nil cl) eqn:Hcl; simpl.
  - destruct (check_types cls known) as [[]|e] eqn:Ec; simpl; [|discriminate].
    intros H. injection H as <- <-. right. repeat split; auto. exists cls. auto.
  - destruct (is_nil (Class.bases cls)) eqn:Hb; [discriminate|].
    destruct (check_types cls known) as [[]|e] eqn:Ec; simpl; [|discriminate].
    intros H. injection H as <- <-. right. repeat split; auto. exists cls.
    repeat split; auto. right. intros E. rewrite E in Hb. discriminate.
Qed.

Lemma In_setitem {V} (d : dict V) k v kv :
  In kv (setitem d k v) -> kv = (k, v) \/ In kv d.
Proof.
  induction d as [|[k' v'] d IH]; simpl.
  - intros [<-|[]]. auto.
  - destruct (String.eqb k' k); simpl.
    + intros [<-|H]; auto.
    + intros [<-|H]; auto. destruct (IH H); auto.
Qed.

Lemma load_loop_classes items inc cl inc' cl' :
  for_fold (load_step defs_has known) items (inc, cl) = Ok (inc', cl') ->
  forall k c, In (k, c) cl' ->
    In (k, c) cl
    \/ exists data, In (k, data) items /\ is_class_entry defs_has k = true
                    /\ _get_class data = Ok c /\ check_types c known = Ok tt.
Proof.
  revert inc cl. induction items as [|[name data] items IH]; intros inc cl H k c Hin.
  - simpl in H. injection H as <- <-. auto.
  - rewrite for_fold_cons in H.
    destruct (load_step defs_has known (inc, cl) (name, data)) as [[inc1 cl1]|e] eqn:E;
      simpl in H; [|discriminate].
    destruct (IH _ _ H k c Hin) as [Hin1|(data' & Hd & Hrest)].
    + apply load_step_Ok in E.
      destruct E as [(_ & -> & _)|(Hc & _ & cls & Hg & Ht & _ & ->)]; auto.
      apply In_setitem in Hin1. destruct Hin1 as [E|Hin1]; auto.
      injection E as -> ->. right. exists data. repeat split; auto. now left.
    + right. exists data'. repeat split; try tauto. now right.
Qed.

Lemma load_loop_get_other items inc cl inc' cl' k :
  for_fold (load_step defs_has known) items (inc, cl) = Ok (inc', cl') ->
  ~ In k (keys items) -> get cl' k = get cl k.
Proof.
  revert inc cl. induction items as [|[name data] items IH]; intros inc cl H Hk.
  - simpl in H. now injection H as <- <-.
  - rewrite for_fold_cons in H.
    destruct (load_step defs_has known (inc, cl) (name, data)) as [[inc1 cl1]|e] eqn:E;
      simpl in H; [|discriminate].
    simpl in Hk. rewrite (IH _ _ H); [|tauto].
    apply load_step_Ok in E.
    destruct E as [(_ & -> & _)|(Hc & _ & cls & Hg & Ht & _ & ->)]; auto.
    rewrite get_setitem. destruct (String.eqb_spec name k); auto. tauto.
Qed.

Lemma load_loop_stores items inc cl inc' cl' :
  for_fold (load_step defs_has known) items (inc, cl) = Ok (inc', cl') ->
  NoDup (keys items) ->
  forall k data, In (k, data) items -> is_class_entry defs_has k = true ->
    exists c, _get_class data = Ok c /\ get cl' k = Some c.
Proof.
  revert inc cl. induction items as [|[name data] items IH]; intros inc cl H Hnd k d Hin Hc.
  - destruct Hin.
  - rewrite for_fold_cons in H.
    destruct (load_step defs_has known (inc, cl) (name, data)) as [[inc1 cl1]|e] eqn:E;
      simpl in H; [|discriminate].
    inversion Hnd as [|? ? Hname Hnd']; subst.
    destruct Hin as [Eq|Hin]; [|eauto].
    injection Eq as -> ->.
    apply load_step_Ok in E.
    destruct E as [(Hc' & _)|(_ & _ & cls & Hg & Ht & _ & ->)]; [congruence|].
    exists cls. split; auto.
    rewrite (load_loop_get_other _ _ _ _ _ k H Hname), get_setitem.
    now rewrite String.eqb_refl.
Qed.

Lemma Forall_setitem {V} (P : string * V -> Prop) (d : dict V) k v :
  Forall P d -> P (k, v) -> Forall P (setitem d k v).
Proof.
  intros Hd Hv. induction Hd as [|[k' v'] d Hx Hd IH]; simpl.
  - auto.
  - destruct (String.eqb k' k); auto.
Qed.

Lemma load_step_roots inc cl item inc' cl' :
  load_step defs_has known (inc, cl) item = Ok (inc', cl') ->
  later_have_bases cl -> later_have_bases cl'.
Proof.
  destruct item as [name data]. intros H Hl. apply load_step_Ok in H.
  destruct H as [(_ & -> & _)|(_ & _ & cls & _ & _ & Hb & ->)]; auto.
  unfold later_have_bases in *. destruct cl as [|[k0 c0] cl]; simpl.
  - constructor.
  - destruct Hb as [Hb|Hb]; [discriminate|]. simpl in Hl.
    destruct (String.eqb k0 name); simpl; auto.
    now apply Forall_setitem.
Qed.

Lemma load_loop_roots items inc cl inc' cl' :
  for_fold (load_step defs_has known) items (inc, cl) = Ok (inc', cl') ->
  later_have_bases cl -> later_have_bases cl'.
Proof.
  revert inc cl. induction items as [|item items IH]; intros inc cl H Hl.
  - simpl in H. now injection H as <- <-.
  - rewrite for_fold_cons in H.
    destruct (load_step defs_has known (inc, cl) item) as [[inc1 cl1]|e] eqn:E;
      simpl in H; [|discriminate].
    eapply IH; eauto. eapply load_step_roots; eauto.
Qed.

Lemma load_loop_includes items inc cl inc' cl' :
  for_fold (load_step defs_has known) items (inc, cl) = Ok (inc', cl') ->
  inc' = fold_left (includes_after defs_has) items inc.
Proof.
  revert inc cl. induction items as [|[name data] items IH]; intros inc cl H.
  - simpl in H. now injection H as <- <-.
  - rewrite for_fold_cons in H.
    destruct (load_step defs_has known (inc, cl) (name, data)) as [[inc1 cl1]|e] eqn:E;
      simpl in H; [|discriminate].
    rewrite (IH _ _ H). simpl. f_equal.
    apply load_step_Ok in E.
    destruct E as [(_ & _ & ->)|(Hc & -> & _)]; auto.
    unfold includes_after. unfold is_class_entry in Hc. simpl.
    destruct (defs_has name); simpl in *; auto.
    destruct (String.eqb name "__includes"); simpl in *; auto. discriminate.
Qed.

End loader_entries.

Lemma load_unfold defs_has m s :
  load defs_has m = Ok s ->
  exists inc cl,
    for_fold (load_step defs_has (initial_known m)) m ([], []) = Ok (inc, cl)
    /\ _toposort_classes_by_group cl = Ok (Schema.classes s)
    /\ Schema.includes s = inc
    /\ NoDup (keys cl).
Proof.
  unfold load. intros H.
  destruct (for_fold (load_step defs_has (initial_known m)) m ([], [])) as [[inc cl]|e] eqn:E;
    simpl in H; [|discriminate].
  bind_ok H as ret eqn:Es.
  injection H as <-. exists inc, cl. repeat split; auto.
  eapply load_loop_NoDup; eauto. constructor.
Qed.

Lemma load_class_origin defs_has m s k c :
  load defs_has m = Ok s -> In (k, c) (Schema.classes s) ->
  exists data, In (k, data) m /\ is_class_entry defs_has k = true
               /\ _get_class data = Ok c /\ check_types c (initial_known m) = Ok tt.
Proof.
  intros H Hin. apply load_unfold in H. destruct H as (inc & cl & Hl & Hs & _ & Hnd).
  destruct (sorter_reorders_when_ok _ _ Hnd Hs) as (Hp & _ & _).
  apply (Permutation_in _ Hp) in Hin.
  destruct (load_loop_classes _ _ _ _ _ _ _ Hl k c Hin) as [[]|H]. exact H.
Qed.

(** X14: every type a class of a loaded schema refers to (a base, a derived
    class, the type of a property, the classes of its synthesis
    information) is one of the three builtin names or the name of a module
    entry that does not start with two underscores. *)
Theorem load_types_known defs_has m s k c t :
  load defs_has m = Ok s ->
  In (k, c) (Schema.classes s) -> In t (referenced_types c) ->
  In t ["int"; "string"; "boolean"]
  \/ (In t (keys m) /\ PyStr.startswith t "__" = false).
Proof.
  intros H Hin Ht. destruct (load_class_origin _ _ _ _ _ H Hin) as (data & _ & _ & _ & Hc).
  rewrite check_types_names in Hc. unfold check_names in Hc.
  destruct (first_unknown (initial_known m) (referenced_types c)) eqn:E; [discriminate|].
  rewrite first_unknown_none in E. apply E in Ht.
  unfold initial_known in Ht. apply in_app_or in Ht. destruct Ht as [Ht|Ht]; auto.
  apply filter_In in Ht. destruct Ht as [Ht Hs]. right. split; auto.
  now apply negb_true_iff in Hs.
Qed.

(** X15: every base of a class of a loaded schema is itself a class of the
    schema. *)
Theorem load_bases_are_classes defs_has m s k c b :
  load defs_has m = Ok s ->
  In (k, c) (Schema.classes s) -> In b (Class.bases c) ->
  In b (keys (Schema.classes s)).
Proof.
  intros H Hin Hb. apply load_unfold in H. destruct H as (inc & cl & _ & Hs & _ & Hnd).
  destruct (sorter_reorders_when_ok _ _ Hnd Hs) as (Hp & _ & _).
  apply (Permutation_in _ Hp) in Hin.
  pose proof (sorter_ok_bases_are_keys _ _ Hnd Hs) as Hbk.
  pose proof (bases_are_keys_spec _ _ _ _ Hbk Hin Hb) as Hk.
  eapply Permutation_in; [|exact Hk].
  unfold keys. apply Permutation_map. now apply Permutation_sym.
Qed.

(** X16: a loaded schema has at most one class without bases. *)
Theorem load_at_most_one_root defs_has m s k1 c1 k2 c2 :
  load defs_has m = Ok s ->
  In (k1, c1) (Schema.classes s) -> In (k2, c2) (Schema.classes s) ->
  Class.bases c1 = [] -> Class.bases c2 = [] ->
  k1 = k2 /\ c1 = c2.
Proof.
  intros H H1 H2 B1 B2. apply load_unfold in H. destruct H as (inc & cl & Hl & Hs & _ & Hnd).
  destruct (sorter_reorders_when_ok _ _ Hnd Hs) as (Hp & _ & _).
  apply (Permutation_in _ Hp) in H1, H2.
  assert (Hr : later_have_bases cl).
  { eapply load_loop_roots; eauto. constructor. }
  unfold later_have_bases in Hr. destruct cl as [|kc cl]; [destruct H1|].
  simpl in Hr. rewrite Forall_forall in Hr.
  destruct H1 as [E1|H1]; [|apply Hr in H1; simpl in H1; contradiction].
  destruct H2 as [E2|H2]; [|apply Hr in H2; simpl in H2; contradiction].
  rewrite E1 in E2. now injection E2 as -> ->.
Qed.

(** X17: in a module whose entry names are pairwise distinct, the names a
    loaded schema binds are exactly the names of the class entries of the
    module, and the class bound to a name is the one built from the entry
    of that name, up to the names of its properties (a [Property] object
    shared with a later class is renamed by it). *)
Theorem load_classes_iff defs_has m s k :
  NoDup (keys m) ->
  load defs_has m = Ok s ->
  (In k (keys (Schema.classes s))
   <-> exists data, In (k, data) m /\ is_class_entry defs_has k = true)
  /\ (forall c data,
        get (Schema.classes s) k = Some c -> In (k, data) m ->
        exists built, _get_class data = Ok built /\ forget_names c = forget_names built).
Proof.
  intros Hm H. split; [split|].
  - intros Hk. apply get_In_keys in Hk. destruct Hk as (c & Hg). apply get_Some_In in Hg.
    destruct (load_class_origin _ _ _ _ _ H Hg) as (data & H1 & H2 & _). eauto.
  - intros (data & Hin & Hc).
    apply load_unfold in H. destruct H as (inc & cl & Hl & Hs & _ & Hnd).
    destruct (sorter_reorders_when_ok _ _ Hnd Hs) as (_ & _ & Hget).
    destruct (load_loop_stores _ _ _ _ _ _ _ Hl Hm k data Hin Hc) as (c' & _ & Hc').
    rewrite <- Hget in Hc'. eapply In_keys, get_Some_In; eauto.
  - intros c data Hg Hin. apply get_Some_In in Hg.
    destruct (load_class_origin _ _ _ _ _ H Hg) as (data' & H1 & _ & H3 & _).
    apply (In_get _ _ _ Hm) in H1, Hin. rewrite H1 in Hin. injection Hin as ->.
    exists c. auto.
Qed.

Lemma fold_includes_after defs_has (items : dict PyObject) inc :
  NoDup (keys items) ->
  fold_left (includes_after defs_has) items inc
  = if defs_has "__includes" then inc
    else match get items "__includes" with
         | Some (PyOther _ (Some l)) => nodup string_dec l
         | _ => inc
         end.
Proof.
  revert inc. induction items as [|[name data] items IH]; intros inc Hnd.
  - simpl. now destruct (defs_has "__includes").
  - inversion Hnd as [|? ? Hname Hnd']; subst. simpl fold_left. rewrite IH; auto.
    unfold includes_after. simpl fst. simpl snd. simpl get.
    destruct (String.eqb_spec name "__includes") as [->|Hne].
    + destruct (defs_has "__includes"); simpl; auto.
      apply get_None in Hname. rewrite Hname.
      now destruct data as [|? [l|]].
    + rewrite andb_false_r. reflexivity.
Qed.

(** X18: in a module whose entry names are pairwise distinct, the includes
    of a loaded schema are the items of the module's [__includes] entry,
    each one once; there are none when the module has no such entry or when
    [defs] has an attribute of that name. *)
Theorem load_includes defs_has m s :
  NoDup (keys m) ->
  load defs_has m = Ok s ->
  Schema.includes s
  = if defs_has "__includes" then []
    else match get m "__includes" with
         | Some (PyOther _ (Some items)) => nodup string_dec items
         | _ => []
         end.
Proof.
  intros Hm H. apply load_unfold in H. destruct H as (inc & cl & Hl & _ & -> & _).
  rewrite (load_loop_includes _ _ _ _ _ _ _ Hl). now apply fold_includes_after.
Qed.

(** ** The loader: what it raises *)

Lemma load_step_raise defs_has known st item e :
  load_step defs_has known st item = Raise e ->
  e = TypeError \/ e = IndexError \/ exists msg, e = Error msg.
Proof.
  destruct st as [inc cl], item as [name data]. unfold load_step.
  destruct (defs_has name); [discriminate|].
  destruct (String.eqb name "__includes").
  { destruct data as [|s [items|]]; try discriminate; intros H; injection H as <-; auto. }
  destruct (PyStr.startswith name "__"); [discriminate|].
  destruct (_get_class data) as [cls|e'] eqn:Eg; simpl.
  - destruct (negb (is_nil cl) && is_nil (Class.bases cls)).
    + intros H. injection H as <-. eauto.
    + destruct (check_types cls known) as [u|e'] eqn:Ec; simpl; [discriminate|].
      intros H. injection H as <-. apply check_types_raise in Ec.
      destruct Ec as (t & ->). eauto.
  - intros H. injection H as <-. apply get_class_raise in Eg.
    destruct Eg as [->|[(s & ->)|[(s & ->)|[(s & ->)|(s & ->)]]]]; eauto.
Qed.

Lemma load_raise defs_has m e :
  load defs_has m = Raise e ->
  (exists pre item post st,
      m = pre ++ item :: post
      /\ for_fold (load_step defs_has (initial_known m)) pre ([], []) = Ok st
      /\ load_step defs_has (initial_known m) st item = Raise e)
  \/ (exists inc cl,
        for_fold (load_step defs_has (initial_known m)) m ([], []) = Ok (inc, cl)
        /\ NoDup (keys cl)
        /\ _toposort_classes_by_group cl = Raise e).
Proof.
  unfold load. intros H.
  destruct (for_fold (load_step defs_has (initial_known m)) m ([], [])) as [[inc cl]|e'] eqn:E;
    simpl in H.
  - right. exists inc, cl. repeat split; auto.
    + eapply load_loop_NoDup; eauto. constructor.
    + destruct (_toposort_classes_by_group cl); simpl in H; [discriminate|congruence].
  - left. injection H as <-. apply for_fold_raise in E.
    destruct E as (pre & item & post & st & E1 & E2 & E3). exists pre, item, post, st. auto.
Qed.

(** X19: on a module whose annotations leave [|] to the naming modifier
    (see the conventions), the loader raises nothing but the schema
    [Error], [IndexError] (a class with an empty name), [TypeError] (from
    [set(data)] on an [__includes] entry that cannot be iterated),
    [KeyError] and [CircularDependencyError]. *)
Theorem load_raises_only defs_has m e :
  load defs_has m = Raise e -> loader_exception e.
Proof.
  intros H. apply load_raise in H.
  destruct H as [(pre & item & post & st & _ & _ & H)|(inc & cl & _ & _ & H)].
  - apply load_step_raise in H. destruct H as [->|[->|(msg & ->)]]; exact I.
  - apply sorter_raise in H. destruct H as [->|(k & ->)]; exact I.
Qed.

(** X20: a [KeyError] of the loader names a base of a class that is one of
    the three builtin type names or an attribute of [defs]: such a name
    passes the type check and is no class of the schema. *)
Theorem load_key_error defs_has m k :
  load defs_has m = Raise (KeyError k) ->
  (In k ["int"; "string"; "boolean"] \/ (In k (keys m) /\ defs_has k = true))
  /\ exists n data c, In (n, data) m /\ _get_class data = Ok c /\ In k (Class.bases c).
Proof.
  intros H. apply load_raise in H.
  destruct H as [(pre & item & post & st & _ & _ & H)|(inc & cl & Hl & Hnd & H)].
  { apply load_step_raise in H. destruct H as [H|[H|(msg & H)]]; discriminate. }
  apply sorter_raise_key in H; auto. destruct H as (Hk & n & c & Hin & Hb).
  destruct (load_loop_classes _ _ _ _ _ _ _ Hl n c Hin) as [[]|(data & Hd & _ & Hg & Hc)].
  split; [|exists n, data, c; auto].
  rewrite check_types_names in Hc. unfold check_names in Hc.
  destruct (first_unknown (initial_known m) (referenced_types c)) eqn:E; [discriminate|].
  rewrite first_unknown_none in E.
  assert (Ht : In k (initial_known m)).
  { apply E. unfold referenced_types. apply in_or_app. now left. }
  unfold initial_known in Ht. apply in_app_or in Ht. destruct Ht as [Ht|Ht]; auto.
  apply filter_In in Ht. destruct Ht as [Ht Hs]. right. split; auto.
  apply negb_true_iff in Hs.
  rewrite (load_loop_keys _ _ _ _ _ _ _ Hl k) in Hk.
  destruct (defs_has k) eqn:Hdk; auto. exfalso. apply Hk. right. split; auto.
  unfold is_class_entry. rewrite Hdk, Hs.
  destruct (String.eqb_spec k "__includes") as [->|]; [discriminate|reflexivity].
Qed.

(** ** Examples of loaded modules *)

Lemma load_types_known_witness :
  let m := [("Root", plain_class "Root" [base_object] None);
            ("Expr", plain_class "Expr" [base_class "Root" None] (Some "expr"))] in
  In "Root" ["int"; "string"; "boolean"]
  \/ (In "Root" (keys m) /\ PyStr.startswith "Root" "__" = false).
Proof.
  intros m.
  let v := eval vm_compute in (load (fun _ => false) m) in
  match v with
  | Ok ?s =>
      match eval vm_compute in (Schema.classes s) with
      | _ :: (?k, ?c) :: _ =>
          apply (load_types_known (fun _ => false) m s k c "Root");
          [vm_compute; reflexivity | simpl; auto | simpl; auto]
      end
  end.
Defined.

Lemma load_bases_are_classes_witness :
  let m := [("Root", plain_class "Root" [base_object] None);
            ("Expr", plain_class "Expr" [base_class "Root" None] (Some "expr"))] in
  exists s, load (fun _ => false) m = Ok s /\ In "Root" (keys (Schema.classes s)).
Proof.
  intros m.
  let v := eval vm_compute in (load (fun _ => false) m) in
  match v with
  | Ok ?s =>
      exists s; split; [vm_compute; reflexivity|];
      match eval vm_compute in (Schema.classes s) with
      | _ :: (?k, ?c) :: _ =>
          apply (load_bases_are_classes (fun _ => false) m s k c "Root");
          [vm_compute; reflexivity | simpl; auto | simpl; auto]
      end
  end.
Defined.

Lemma load_at_most_one_root_witness :
  let m := [("Root", plain_class "Root" [base_object] None);
            ("Expr", plain_class "Expr" [base_class "Root" None] (Some "expr"))] in
  exists s (c : Class.t),
    load (fun _ => false) m = Ok s /\ In ("Root", c) (Schema.classes s)
    /\ ("Root" = "Root" /\ c = c).
Proof.
  intros m.
  let v := eval vm_compute in (load (fun _ => false) m) in
  match v with
  | Ok ?s =>
      match eval vm_compute in (Schema.classes s) with
      | (?k, ?c) :: _ =>
          exists s, c; split; [vm_compute; reflexivity|]; split; [simpl; auto|];
          apply (load_at_most_one_root (fun _ => false) m s "Root" c "Root" c);
          [vm_compute; reflexivity | simpl; auto | simpl; auto | reflexivity | reflexivity]
      end
  end.
Defined.

Lemma load_classes_iff_witness :
  let m := [("Root", plain_class "Root" [base_object] None);
            ("Expr", plain_class "Expr" [base_class "Root" None] (Some "expr"))] in
  exists s,
    load (fun _ => false) m = Ok s
    /\ (In "Expr" (keys (Schema.classes s))
        <-> exists data, In ("Expr", data) m /\ is_class_entry (fun _ => false) "Expr" = true).
Proof.
  intros m.
  let v := eval vm_compute in (load (fun _ => false) m) in
  match v with
  | Ok ?s =>
      exists s; split; [vm_compute; reflexivity|];
      apply (load_classes_iff (fun _ => false) m s "Expr");
      [simpl; repeat constructor; simpl; intuition discriminate
      | vm_compute; reflexivity]
  end.
Defined.

Lemma load_includes_witness :
  let m := [("__includes", PyOther "list" (Some ["a.h"; "b.h"; "a.h"]));
            ("Root", plain_class "Root" [base_object] None)] in
  exists s, load (fun _ => false) m = Ok s /\ Schema.includes s = ["b.h"; "a.h"].
Proof.
  intros m.
  let v := eval vm_compute in (load (fun _ => false) m) in
  match v with
  | Ok ?s =>
      exists s; split; [vm_compute; reflexivity|];
      rewrite (load_includes (fun _ => false) m s);
      [reflexivity
      | simpl; repeat constructor; simpl; intuition discriminate
      | vm_compute; reflexivity]
  end.
Defined.

Lemma load_raises_only_witness :
  loader_exception (Error "Class name must be capitalized, found expr").
Proof.
  apply (load_raises_only (fun _ => false)
           [("expr", plain_class "expr" [base_object] None)]).
  reflexivity.
Defined.

Lemma load_key_error_witness :
  let m := [("Count", plain_class "Count" [base_class "int" None] None)] in
  (In "int" ["int"; "string"; "boolean"] \/ (In "int" (keys m) /\ false = true))
  /\ exists n data c, In (n, data) m /\ _get_class data = Ok c /\ In "int" (Class.bases c).
Proof.
  intros m. apply (load_key_error (fun _ => false) m "int"). reflexivity.
Defined.

(** ** Examples *)

Example splitlines_example :
  PyStr.splitlines ("a" ++ LF ++ LF ++ "b" ++ LF)%string = ["a"; ""; "b"]%string.
Proof. reflexivity. Qed.

Example toposort_flatten_example :
  toposort.toposort_flatten [("Root", []); ("B", ["Root"]); ("A", ["Root"; "X"])]
  = Ok ["Root"; "X"; "A"; "B"].
Proof. reflexivity. Qed.

Example final_example :
  Class.final (simple_class "Leaf" ["Root"] "") = true.
Proof. reflexivity. Qed.

Example load_root_and_child :
  exists s,
    load (fun _ => false)
      [("Root", plain_class "Root" [base_object] None);
       ("Child", plain_class "Child" [base_class "Root" None] None)] = Ok s
    /\ keys (Schema.classes s) = ["Root"; "Child"].
Proof. eexists. split; reflexivity. Qed.

Example load_two_roots :
  load (fun _ => false)
    [("Root", plain_class "Root" [base_object] None);
     ("Other", plain_class "Other" [base_object] None)]
  = Raise (Error "Only one root class allowed, found second root Other").
Proof. reflexivity. Qed.

Example load_unknown_property_type :
  load (fun _ => false)
    [("Root",
      PyType (PyClass.mk "Root" [base_object] [] None None None
                (Some [("x", SpecRef (RefStr "Unknown"))]) None None))]
  = Raise (Error "Unknown type Unknown").
Proof. reflexivity. Qed.

Example load_mixed_groups :
  load (fun _ => false)
    [("Root", plain_class "Root" [base_object] None);
     ("A", plain_class "A" [base_class "Root" None] (Some "g1"));
     ("B", plain_class "B" [base_class "Root" None] (Some "g2"));
     ("C", plain_class "C" [base_class "A" (Some "g1"); base_class "B" (Some "g2")]
             (Some "g1"))]
  = Raise (Error "Bases with mixed groups for C").
Proof. reflexivity. Qed.
